(** * Bike Surface AI: spatial aggregation and resilient delivery

    A shallow embedding of the aggregation and delivery code of the edge
    system, with the properties its specification states about it:

    - [GroupDamages]      src/edge/group_damages.py
    - [AutoLiveSystem]    src/edge/auto_live_system.py
    - [UpdateGithubPages] src/edge/update_github_pages.py
    - [EdgeMain]          src/edge/main.py

    Conventions of the embedding.  Python floats are rationals ([Q]); the
    comparisons of the source are the boolean comparisons of [Q].  The
    trigonometric distance functions ([calculate_distance], geopy's
    [geodesic]) are parameters of the definitions that call them, so every
    theorem holds whatever they compute.  A Python exception is [None] in
    the option monad.  Dictionaries with a fixed set of keys are records;
    a key that may be absent is an [option] field. *)

From Stdlib Require Import QArith Qminmax Qabs Ascii String.
From stdpp Require Import gmap strings list sorting.

(** ** Python primitives *)

(** [x >= y], [x > y] and [x < y] on floats. *)
Definition Qgeb (x y : Q) : bool := Qle_bool y x.
Definition Qgtb (x y : Q) : bool := negb (Qle_bool x y).
Definition Qltb (x y : Q) : bool := negb (Qle_bool y x).

(** Truth value of an optional number, as in [if not gps.get('latitude')]:
    an absent key and the number zero are both false. *)
Definition truthy (o : option Q) : bool :=
  match o with
  | Some q => negb (Qeq_bool q 0)
  | None => false
  end.

(** [sum(xs)]: a left fold starting from 0. *)
Definition py_sum (xs : list Q) : Q := fold_left Qplus xs 0%Q.

(** [x / n] for a length [n]; division by zero raises. *)
Definition py_div (x : Q) (n : nat) : option Q :=
  if (n =? 0)%nat then None else Some (x / inject_Z (Z.of_nat n))%Q.

(** [max(xs)] on numbers: the first maximal element; raises on an empty
    sequence. *)
Definition py_max (xs : list Q) : option Q :=
  match xs with
  | [] => None
  | x :: xs' => Some (fold_left (fun cur y => if Qltb cur y then y else cur) xs' x)
  end.

(** [max(it, key=k)] with a counting key: the first element of [it] whose
    key is maximal; raises on an empty iterable. *)
Definition py_max_by {A : Type} (k : A -> nat) (it : list A) : option A :=
  match it with
  | [] => None
  | x :: it' => Some (fold_left (fun cur y => if (k cur <? k y)%nat then y else cur) it' x)
  end.

(** [s.lower()], on the ASCII letters; Python also maps letters outside
    ASCII, which the classes of the detector do not contain. *)
Definition lower_ascii (c : ascii) : ascii :=
  let n := nat_of_ascii c in
  if ((65 <=? n) && (n <=? 90))%nat then ascii_of_nat (n + 32) else c.

Fixpoint lower (s : string) : string :=
  match s with
  | EmptyString => EmptyString
  | String c s' => String (lower_ascii c) (lower s')
  end.

(** [sorted(l, key=f)]: Python's sort is stable.  Insertion from the right
    puts an element in front of the first element whose key is not
    smaller, hence in front of the later elements with an equal key. *)
Section PySorted.
Context {A K : Type} (leb : K -> K -> bool) (key : A -> K).

Fixpoint insert_by (x : A) (l : list A) : list A :=
  match l with
  | [] => [x]
  | y :: l' => if leb (key x) (key y) then x :: l else y :: insert_by x l'
  end.

Definition py_sorted (l : list A) : list A := foldr insert_by [] l.

(** The order of the keys, on the elements. *)
Definition key_le (x y : A) : Prop := leb (key x) (key y) = true.
End PySorted.

(** Severities, shared by both classifiers (the strings 'low', 'medium'
    and 'high'). *)
Inductive severity := low | medium | high.

Definition severity_rank (s : severity) : nat :=
  match s with low => 0 | medium => 1 | high => 2 end.

(** ** src/edge/group_damages.py *)
Module GroupDamages.

(** [detection['gps']]. *)
Record gps_data := { latitude : option Q; longitude : option Q }.

(** [detection['detection']]. *)
Record detected := { class : option string; confidence : option Q }.

Record detection := {
  timestamp : option string;
  gps : option gps_data;
  det : option detected;
  image : option string
}.

(** [d.get('timestamp', '')], the sort key. *)
Definition get_timestamp (d : detection) : string := default ""%string (timestamp d).

(** [d.get('gps', {})]. *)
Definition get_gps (d : detection) : gps_data :=
  default {| latitude := None; longitude := None |} (gps d).

(** [d.get('detection', {}).get('class', 'unknown')]. *)
Definition get_class (d : detection) : string :=
  default "unknown"%string (det d ≫= class).

(** [d.get('detection', {}).get('confidence', 0)]. *)
Definition get_confidence (d : detection) : Q := default 0%Q (det d ≫= confidence).

(** Truth value of [d.get('gps')]: a dictionary is true when it has a key. *)
Definition has_gps (d : detection) : bool :=
  match gps d with
  | Some g => bool_decide (is_Some (latitude g)) || bool_decide (is_Some (longitude g))
  | None => false
  end.

(** [d['gps']['latitude']] and [d['gps']['longitude']]: KeyError when absent. *)
Definition gps_latitude (d : detection) : option Q := gps d ≫= latitude.
Definition gps_longitude (d : detection) : option Q := gps d ≫= longitude.

Record center_t := { lat : Q; lon : Q }.

(** A group while the main loop runs. *)
Record group := {
  group_id : nat;
  damage_type : string;
  center : center_t;
  detections : list detection;
  created : option string
}.

(** A returned group: its detections re-sorted, statistics added. *)
Record grouped := {
  base : group;
  image_count : nat;
  avg_confidence : Q;
  best_confidence : Q;
  first_seen : option string;
  last_seen : option string
}.

Definition set_center (g : group) (c : center_t) : group :=
  {| group_id := group_id g; damage_type := damage_type g; center := c;
     detections := detections g; created := created g |}.

Definition set_detections (g : group) (ds : list detection) : group :=
  {| group_id := group_id g; damage_type := damage_type g; center := center g;
     detections := ds; created := created g |}.

(** [DamageGrouper._update_group_center]. *)
Definition _update_group_center (g : group) : option group :=
  let with_gps := filter (fun d => has_gps d = true) (detections g) in
  lats ← mapM gps_latitude with_gps;
  lons ← mapM gps_longitude with_gps;
  let count := length with_gps in
  if (0 <? count)%nat then
    c_lat ← py_div (py_sum lats) count;
    c_lon ← py_div (py_sum lons) count;
    Some (set_center g {| lat := c_lat; lon := c_lon |})
  else Some g.

Section Grouper.
(** [calculate_distance] (haversine, in metres) and [self.max_distance].
    The distance is taken as a function of the four numbers: the domain
    error [math.sqrt] raises when rounding pushes the haversine term
    above 1, for points that are nearly antipodes, is left out, so what
    is proved of a call is proved of the calls that return. *)
Variable calculate_distance : Q -> Q -> Q -> Q -> Q.
Variable max_distance : Q.

(** Is the detection within reach of the group, and of its type? *)
Definition fits (la lo : Q) (ty : string) (g : group) : bool :=
  let distance := calculate_distance la lo (lat (center g)) (lon (center g)) in
  Qle_bool distance max_distance && String.eqb (damage_type g) ty.

(** The inner loop [for group in groups: ... break]; the boolean is
    [found_group]. *)
Fixpoint scan_groups (la lo : Q) (ty : string) (d : detection)
         (groups : list group) : option (bool * list group) :=
  match groups with
  | [] => Some (false, [])
  | g :: rest =>
      if fits la lo ty g then
        g' ← _update_group_center (set_detections g (detections g ++ [d]));
        Some (true, g' :: rest)
      else
        '(found_group, rest') ← scan_groups la lo ty d rest;
        Some (found_group, g :: rest')
  end.

Definition new_group (n : nat) (la lo : Q) (ty : string) (d : detection) : group :=
  {| group_id := n + 1; damage_type := ty;
     center := {| lat := la; lon := lo |};
     detections := [d]; created := timestamp d |}.

(** One iteration of the main loop: what happens to the groups when
    one detection arrives. *)
Definition process_detection (groups : list group) (d : detection)
  : option (list group) :=
  let g := get_gps d in
  if negb (truthy (latitude g)) || negb (truthy (longitude g)) then Some groups
  else
    la ← latitude g;
    lo ← longitude g;
    let ty := get_class d in
    '(found_group, groups') ← scan_groups la lo ty d groups;
    if (found_group : bool) then Some groups'
    else Some (groups ++ [new_group (length groups) la lo ty d]).

(** The groups after a sequence of detections, one at a time. *)
Fixpoint process_all (groups : list group) (ds : list detection)
  : option (list group) :=
  match ds with
  | [] => Some groups
  | d :: ds' => groups' ← process_detection groups d; process_all groups' ds'
  end.

(** The second loop: sort each group's detections, add statistics.  The
    average is the exact quotient [sum / len]; the rounding of the
    floating-point sum is left out. *)
Definition add_statistics (g : group) : option grouped :=
  let ds := py_sorted String.leb get_timestamp (detections g) in
  let confs := map get_confidence ds in
  avg ← py_div (py_sum confs) (length ds);
  best ← py_max confs;
  Some {| base := set_detections g ds;
          image_count := length ds;
          avg_confidence := avg;
          best_confidence := best;
          first_seen := get_timestamp <$> head ds;
          last_seen := get_timestamp <$> last ds |}.

(** [DamageGrouper.group_detections]. *)
Definition group_detections (dets : list detection) : option (list grouped) :=
  match dets with
  | [] => Some []
  | _ =>
      let sorted_detections := py_sorted String.leb get_timestamp dets in
      groups ← process_all [] sorted_detections;
      mapM add_statistics groups
  end.
End Grouper.

(** [DamageGrouper._calculate_severity], as a function of the three
    fields it reads. *)
Definition severity_of (ty : string) (conf : Q) (count : nat) : severity :=
  let damage_type := lower ty in
  let image_factor := Qmin (inject_Z (Z.of_nat count) / 3) 1 in
  if String.eqb damage_type "pothole" then
    if Qgtb conf 0.8 || Qgtb image_factor 0.7 then high
    else if Qgtb conf 0.6 then medium
    else low
  else if String.eqb damage_type "crack" then
    if Qgtb conf 0.75 && Qgtb image_factor 0.5 then medium
    else low
  else low.

Definition _calculate_severity (g : grouped) : severity :=
  severity_of (damage_type (base g)) (best_confidence g) (image_count g).

End GroupDamages.

(** ** src/edge/auto_live_system.py *)
Module AutoLiveSystem.

(** One entry of [config['damage_detection']['severity_rules']]: the
    keys 'high' and 'medium', either of which may be missing. *)
Record thresholds := { high_threshold : option Q; medium_threshold : option Q }.

(** [AutoLiveSystem.calculate_severity]. *)
Definition calculate_severity (rules : gmap string thresholds)
           (damage_type : string) (confidence : Q) : severity :=
  let th :=
    match rules !! damage_type with
    | Some t => t
    | None => {| high_threshold := Some 0.85%Q; medium_threshold := Some 0.70%Q |}
    end in
  if Qgeb confidence (default 0.85%Q (high_threshold th)) then high
  else if Qgeb confidence (default 0.70%Q (medium_threshold th)) then medium
  else low.

(** [deque(maxlen=n).append(x)]: a full deque drops its oldest entry;
    a deque of capacity 0 stays empty. *)
Definition deque_append {A : Type} (maxlen : nat) (buf : list A) (x : A) : list A :=
  if (maxlen =? 0)%nat then buf
  else if (length buf <? maxlen)%nat then buf ++ [x]
  else tail buf ++ [x].

(** [types.count(t)]. *)
Definition count (types : list string) (t : string) : nat :=
  length (filter (fun u => u = t) types).

(** [statistics.mean(xs)]: raises on an empty list. *)
Definition mean (xs : list Q) : option Q := py_div (py_sum xs) (length xs).

Section Smoother.
(** The order in which Python iterates over [set(types)].  It depends on
    the hashes of the strings, which change from one interpreter run to
    the next, and not on the order of [types]. *)
Variable set_order : list string -> list string.

(** The majority vote of [process_surface] over the buffer. *)
Definition majority_vote (surface_buffer : list (string * Q)) : option (string * Q) :=
  let types := map fst surface_buffer in
  surface_type ← py_max_by (count types) (set_order types);
  confidence ← mean (map snd (filter (fun s => s.1 = surface_type) surface_buffer));
  Some (surface_type, confidence).

(** The smoothing part of [AutoLiveSystem.process_surface]: the raw
    sample [(surface_type, confidence)] of the inference enters the
    buffer, and the sample that is recorded comes out.  [smoothing] is
    [config['surface_detection'].get('smoothing', True)] and [maxlen]
    the capacity of [self.surface_buffer]. *)
Definition process_surface (smoothing : bool) (maxlen : nat)
           (surface_buffer : list (string * Q)) (sample : string * Q)
  : option (list (string * Q) * (string * Q)) :=
  let surface_buffer := deque_append maxlen surface_buffer sample in
  if smoothing && (2 <=? length surface_buffer)%nat then
    voted ← majority_vote surface_buffer;
    Some (surface_buffer, voted)
  else Some (surface_buffer, sample).
End Smoother.

End AutoLiveSystem.

(** ** src/edge/update_github_pages.py *)
Module UpdateGithubPages.

(** A route coordinate [[lon, lat]]. *)
Definition coord : Type := Q * Q.

(** An entry of surfaces.json. *)
Record surface := {
  latitude : Q;
  longitude : Q;
  surface_type : string;
  confidence : Q
}.

Record segment := {
  coordinates : list coord;
  seg_surface_type : string;
  seg_confidence : Q
}.

Definition append_coord (s : segment) (c : coord) : segment :=
  {| coordinates := coordinates s ++ [c];
     seg_surface_type := seg_surface_type s;
     seg_confidence := seg_confidence s |}.

(** The variables of the loop of [segment_by_surface]. *)
Record loop_state := {
  segments : list segment;
  current_segment : segment;
  surface_idx : nat
}.

Section Segmenter.
(** geopy's [geodesic(p, q).meters] on [(lat, lon)] pairs; [None] when
    the import of geopy failed.  The distance is taken as a function of
    the two points: the ValueError geopy raises for a latitude outside
    [-90, 90] is left out, so what is proved of a call is proved of the
    calls that return. *)
Variable geodesic : option (Q * Q -> Q * Q -> Q).

(** [geodesic and geodesic((lat, lon), (s.latitude, s.longitude)).meters < 5]. *)
Definition near (la lo : Q) (s : surface) : bool :=
  match geodesic with
  | Some dist => Qltb (dist (la, lo) (latitude s, longitude s)) 5
  | None => false
  end.

(** Does this coordinate start the segment of the next surface? *)
Definition passes_next (surfaces : list surface) (idx : nat) (c : coord)
  : option surface :=
  if (Z.of_nat idx <? Z.of_nat (length surfaces) - 1)%Z then
    match surfaces !! (idx + 1)%nat with
    | Some next_surface =>
        if near c.2 c.1 next_surface then Some next_surface else None
    | None => None
    end
  else None.

(** The body of [for coord in coordinates]. *)
Definition loop_body (surfaces : list surface) (st : loop_state) (c : coord)
  : loop_state :=
  match passes_next surfaces (surface_idx st) c with
  | Some next_surface =>
      {| segments :=
           match coordinates (current_segment st) with
           | [] => segments st
           | _ => segments st ++ [current_segment st]
           end;
         current_segment :=
           {| coordinates := [c];
              seg_surface_type := surface_type next_surface;
              seg_confidence := confidence next_surface |};
         surface_idx := surface_idx st + 1 |}
  | None =>
      {| segments := segments st;
         current_segment := append_coord (current_segment st) c;
         surface_idx := surface_idx st |}
  end.

(** [GitHubPagesUpdater.segment_by_surface]. *)
Definition segment_by_surface (coords : list coord) (surfaces : list surface)
  : list segment :=
  match surfaces with
  | [] => [{| coordinates := coords;
              seg_surface_type := "unknown";
              seg_confidence := 0 |}]
  | s0 :: _ =>
      let st :=
        fold_left (loop_body surfaces) coords
          {| segments := [];
             current_segment :=
               {| coordinates := [];
                  seg_surface_type := surface_type s0;
                  seg_confidence := confidence s0 |};
             surface_idx := 0 |} in
      match coordinates (current_segment st) with
      | [] => segments st
      | _ => segments st ++ [current_segment st]
      end
  end.
End Segmenter.

End UpdateGithubPages.

(** ** src/edge/main.py *)
Module EdgeMain.

(** One detection of a frame, as the detector returns it. *)
Record det := { class : string; confidence : Q; bbox : list Q }.

(** A detection record of [start_session]. *)
Record record := {
  timestamp : Q;
  latitude : Q;
  longitude : Q;
  altitude : Q;
  speed : Q;
  detections : list det
}.

(** Python's [==] on these dictionaries: numbers compare by value. *)
Definition list_eqb {A : Type} (eqb : A -> A -> bool) (l1 l2 : list A) : bool :=
  (length l1 =? length l2)%nat && forallb (fun p => eqb p.1 p.2) (zip l1 l2).

Definition det_eqb (a b : det) : bool :=
  String.eqb (class a) (class b) && Qeq_bool (confidence a) (confidence b)
  && list_eqb Qeq_bool (bbox a) (bbox b).

Definition record_eqb (a b : record) : bool :=
  Qeq_bool (timestamp a) (timestamp b) && Qeq_bool (latitude a) (latitude b)
  && Qeq_bool (longitude a) (longitude b) && Qeq_bool (altitude a) (altitude b)
  && Qeq_bool (speed a) (speed b) && list_eqb det_eqb (detections a) (detections b).

(** [d in data]. *)
Definition py_in (d : record) (data : list record) : bool := existsb (record_eqb d) data.

(** A GeoJSON feature of [convert_to_geojson]. *)
Record properties_t := {
  p_timestamp : Q;
  p_detections : list det;
  p_altitude : Q;
  p_speed : Q
}.

Record feature := {
  geometry_type : string;
  coordinates : list Q;
  properties : properties_t
}.

Record geojson := {
  features : list feature;
  generated : string;
  total_features : nat
}.

(** A file of the backup directory. *)
Record file := { content : geojson; st_mtime : Q }.

(** What the clock gives during one backup: [strftime("%Y%m%d_%H%M%S")]
    for the file name, [isoformat()] for the metadata, and the
    modification time the file gets. *)
Record clock := { strftime : string; isoformat : string; now : Q }.

(** How [requests.post] and the two calls after it end. *)
Inductive response :=
| Accepted (ride : option string)  (* 2xx with a JSON body; [result.get('ride_id')] *)
| ConnectionError
| Timeout
| OtherError.                      (* HTTP error status, invalid JSON, ... *)

(** The fields of [BikeEdgeSystem] the upload path uses, the backup
    directory, and the list of payloads posted so far. *)
Record system := {
  session_data : list record;
  ride_id : option string;
  backup_dir : gmap string file;
  posted : list (list record)
}.

Definition to_feature (r : record) : feature :=
  {| geometry_type := "Point";
     coordinates := [longitude r; latitude r];
     properties := {| p_timestamp := timestamp r;
                      p_detections := detections r;
                      p_altitude := altitude r;
                      p_speed := speed r |} |}.

(** [BikeEdgeSystem.convert_to_geojson]. *)
Definition convert_to_geojson (iso : string) (data : list record) : geojson :=
  let features := map to_feature data in
  {| features := features; generated := iso; total_features := length features |}.

(** Does a file name match the pattern [backup_*.geojson]? *)
Definition is_backup_name (name : string) : bool :=
  let n := String.length name in
  (15 <=? n)%nat && String.eqb (String.substring 0 7 name) "backup_"
  && String.eqb (String.substring (n - 8) 8 name) ".geojson".

(** [backup_dir.glob("backup_*.geojson")]; the order is that of the
    directory listing. *)
Definition glob (dir : gmap string file) : list (string * file) :=
  filter (fun p => is_backup_name p.1 = true) (map_to_list dir).

(** [l[:k]] for a possibly negative [k]. *)
Definition slice_to {A : Type} (k : Z) (l : list A) : list A :=
  let n := Z.of_nat (length l) in
  let stop := if (k <? 0)%Z then Z.max 0 (n + k) else Z.min k n in
  take (Z.to_nat stop) l.

(** [old_file.unlink()] for each file of the list. *)
Definition unlink_all (files : list (string * file)) (dir : gmap string file)
  : gmap string file :=
  fold_left (fun d p => delete p.1 d) files dir.

(** [BikeEdgeSystem.cleanup_old_backups], on the backup directory. *)
Definition cleanup_old_backups (max_files : Z) (dir : gmap string file)
  : gmap string file :=
  let backup_files := py_sorted Qle_bool (fun p => st_mtime p.2) (glob dir) in
  if (Z.of_nat (length backup_files) >? max_files)%Z then
    unlink_all (slice_to (- max_files) backup_files) dir
  else dir.

Definition set_backup_dir (s : system) (dir : gmap string file) : system :=
  {| session_data := session_data s; ride_id := ride_id s;
     backup_dir := dir; posted := posted s |}.

Definition backup_name (c : clock) : string :=
  ("backup_" ++ strftime c ++ ".geojson")%string.

(** [BikeEdgeSystem.save_local_backup]. *)
Definition save_local_backup (max_files : Z) (c : clock)
           (data : option (list record)) (s : system) : system :=
  let data := default (session_data s) data in
  match data with
  | [] => s
  | _ =>
      let backup_file :=
        {| content := convert_to_geojson (isoformat c) data; st_mtime := now c |} in
      set_backup_dir s
        (cleanup_old_backups max_files (<[backup_name c := backup_file]> (backup_dir s)))
  end.

(** [BikeEdgeSystem.upload_to_cloud]. *)
Definition upload_to_cloud (max_files : Z) (c : clock) (resp : response)
           (s : system) : system :=
  match session_data s with
  | [] => s
  | _ =>
      let data_to_upload := session_data s in
      let s := {| session_data := session_data s; ride_id := ride_id s;
                  backup_dir := backup_dir s;
                  posted := posted s ++ [data_to_upload] |} in
      match resp with
      | Accepted ride =>
          {| session_data :=
               filter (fun d => py_in d data_to_upload = false) (session_data s);
             ride_id := ride;
             backup_dir := backup_dir s;
             posted := posted s |}
      | ConnectionError | Timeout | OtherError =>
          save_local_backup max_files c (Some data_to_upload) s
      end
  end.

End EdgeMain.

(** * Notions of the specification *)

(** The default rule in the words of the specification. *)
Definition default_rule (confidence : Q) : severity :=
  if Qgeb confidence 0.85 then high
  else if Qgeb confidence 0.70 then medium
  else low.

Section GroupingNotions.
Import GroupDamages.

(** The test of the main loop: [gps.get('latitude')] and
    [gps.get('longitude')] are both true. *)
Definition valid_position (d : detection) : bool :=
  truthy (latitude (get_gps d)) && truthy (longitude (get_gps d)).

(** Latitude and longitude of a member of a group. *)
Definition member_lat (d : detection) : Q := default 0%Q (gps_latitude d).
Definition member_lon (d : detection) : Q := default 0%Q (gps_longitude d).

(** The arithmetic mean of the positions of the members. *)
Definition centroid (ds : list detection) : center_t :=
  let n := inject_Z (Z.of_nat (length ds)) in
  {| lat := (py_sum (map member_lat ds) / n)%Q;
     lon := (py_sum (map member_lon ds) / n)%Q |}.

(** The group after a detection joined it: one more member, the centre
    moved to the mean of all members. *)
Definition attach (g : group) (d : detection) : group :=
  set_center (set_detections g (detections g ++ [d])) (centroid (detections g ++ [d])).

(** What holds of every group the main loop builds: it has members, and
    each of them passed the position test. *)
Definition group_ok (g : group) : Prop :=
  Forall (fun d => valid_position d = true) (detections g) /\ detections g <> [].

(** Timestamps in increasing order. *)
Definition ts_le : relation detection := key_le String.leb get_timestamp.

End GroupingNotions.

(** The group the specification selects for a detection: of the groups that
    fit, one whose centre is nearest. *)
Definition nearest_fit (dist : Q -> Q -> Q -> Q -> Q) (r la lo : Q) (ty : string)
           (groups : list GroupDamages.group) : option GroupDamages.group :=
  let d g := dist la lo (GroupDamages.lat (GroupDamages.center g))
                        (GroupDamages.lon (GroupDamages.center g)) in
  fold_left
    (fun best g =>
       if GroupDamages.fits dist r la lo ty g then
         match best with
         | Some b => if Qltb (d g) (d b) then Some g else best
         | None => Some g
         end
       else best)
    groups None.

(** The order of iteration over a set: each element once. *)
Definition set_order_ok (set_order : list string -> list string) : Prop :=
  forall l, NoDup (set_order l) /\ forall x, x ∈ set_order l <-> x ∈ l.

(** The vote in the words of the specification: the label with the highest
    count, the earliest in the window among the labels that tie. *)
Definition earliest_majority (types : list string) : option string :=
  py_max_by (AutoLiveSystem.count types) types.

(** The route as the specification reads it off the segments: adjacent
    segments share their boundary point, which is taken once. *)
Definition join_shared (segs : list UpdateGithubPages.segment)
  : list UpdateGithubPages.coord :=
  match segs with
  | [] => []
  | s :: rest =>
      UpdateGithubPages.coordinates s
      ++ concat (map (fun s' => tail (UpdateGithubPages.coordinates s')) rest)
  end.

(** Label and confidence of a segment, and of a surface detection. *)
Definition segment_label (s : UpdateGithubPages.segment) : string * Q :=
  (UpdateGithubPages.seg_surface_type s, UpdateGithubPages.seg_confidence s).

Definition surface_label (s : UpdateGithubPages.surface) : string * Q :=
  (UpdateGithubPages.surface_type s, UpdateGithubPages.confidence s).

Section SegmenterNotions.
Import UpdateGithubPages.

(** All coordinates a loop state holds, in order. *)
Definition state_coords (st : loop_state) : list coord :=
  concat (map coordinates (segments st)) ++ coordinates (current_segment st).

(** What the loop keeps true about the labels. *)
Definition labels_inv (surfaces : list surface) (st : loop_state) : Prop :=
  exists k,
    k <= surface_idx st /\ k <= 1
    /\ map segment_label (segments st)
       = drop k (take (surface_idx st) (map surface_label surfaces))
    /\ map surface_label surfaces !! surface_idx st
       = Some (segment_label (current_segment st))
    /\ (coordinates (current_segment st) = [] -> surface_idx st = 0)
    /\ Forall (fun s => coordinates s <> []) (segments st).

End SegmenterNotions.

Section BackupNotions.
Import EdgeMain.

(** Modification times in increasing order. *)
Definition mtime_le : relation (string * file) :=
  key_le Qle_bool (fun p : string * file => st_mtime p.2).

End BackupNotions.

(** * Sample data *)

(** The haversine distance of two points of one meridian is the radius of
    the earth times their difference in latitude: 6371000 * pi / 180, about
    111195 metres for each degree.  The samples below all lie on the
    meridian of 8 degrees east. *)
Definition meridian_distance (la1 lo1 la2 lo2 : Q) : Q :=
  (111195 * Qabs (la2 - la1))%Q.

Definition pothole_at (t : string) (la : Q) (c : Q) : GroupDamages.detection :=
  {| GroupDamages.timestamp := Some t;
     GroupDamages.gps :=
       Some {| GroupDamages.latitude := Some la; GroupDamages.longitude := Some 8%Q |};
     GroupDamages.det :=
       Some {| GroupDamages.class := Some "pothole"%string;
               GroupDamages.confidence := Some c |};
     GroupDamages.image := None |}.

(** Three potholes along the meridian: the second lies 1.5 m north of the
    first, the third 0.9 m north of the first and 0.6 m south of the second. *)
Definition pothole1 := pothole_at "2025-10-27T13:47:01" 50 0.9.
Definition pothole2 := pothole_at "2025-10-27T13:47:02" 50.0000135 0.7.
Definition pothole3 := pothole_at "2025-10-27T13:47:03" 50.0000081 0.8.

(** A detection on the equator. *)
Definition pothole_equator := pothole_at "2025-10-27T13:47:04" 0 0.8.

Definition group1 := GroupDamages.new_group 0 50 8 "pothole" pothole1.
Definition group2 := GroupDamages.new_group 1 50.0000135 8 "pothole" pothole2.

(** A returned group of a given type, best confidence and image count, to
    exercise the classifier of groups. *)
Definition sample_group (ty : string) (best : Q) (n : nat) : GroupDamages.grouped :=
  {| GroupDamages.base :=
       {| GroupDamages.group_id := 1; GroupDamages.damage_type := ty;
          GroupDamages.center := {| GroupDamages.lat := 50; GroupDamages.lon := 8 |};
          GroupDamages.detections := []; GroupDamages.created := None |};
     GroupDamages.image_count := n;
     GroupDamages.avg_confidence := best;
     GroupDamages.best_confidence := best;
     GroupDamages.first_seen := None;
     GroupDamages.last_seen := None |}.

(** A rule table with one entry, as [severity_rules] of the configuration. *)
Definition sample_rules : gmap string AutoLiveSystem.thresholds :=
  {[ "pothole"%string :=
       {| AutoLiveSystem.high_threshold := Some 0.9%Q;
          AutoLiveSystem.medium_threshold := Some 0.6%Q |} ]}.

(** [geodesic] on the sample meridian, on [(lat, lon)] pairs. *)
Definition meridian_geodesic (p q : Q * Q) : Q := meridian_distance p.1 p.2 q.1 q.2.

Definition route_point (la : Q) : UpdateGithubPages.coord := (8%Q, la).

Definition surface_at (la : Q) (ty : string) (c : Q) : UpdateGithubPages.surface :=
  {| UpdateGithubPages.latitude := la;
     UpdateGithubPages.longitude := 8;
     UpdateGithubPages.surface_type := ty;
     UpdateGithubPages.confidence := c |}.

(** Two route points 11 m apart, a surface detection at each. *)
Definition sample_route : list UpdateGithubPages.coord :=
  [route_point 50; route_point 50.0001].

Definition surfaces_changing : list UpdateGithubPages.surface :=
  [surface_at 50 "asphalt_good" 0.9; surface_at 50.0001 "gravel" 0.8].

Definition surfaces_unchanged : list UpdateGithubPages.surface :=
  [surface_at 50 "asphalt_good" 0.9; surface_at 50.0001 "asphalt_good" 0.8].

(** Ten buffered detection records, as in scenario B. *)
Definition record_at (i : nat) : EdgeMain.record :=
  {| EdgeMain.timestamp := 1761572849 + inject_Z (Z.of_nat i);
     EdgeMain.latitude := 50 + inject_Z (Z.of_nat i) / 100000;
     EdgeMain.longitude := 8;
     EdgeMain.altitude := 120;
     EdgeMain.speed := 5;
     EdgeMain.detections :=
       [{| EdgeMain.class := "pothole"; EdgeMain.confidence := 0.8;
           EdgeMain.bbox := [100; 100; 300; 300]%Q |}] |}.

Definition ten_records : list EdgeMain.record := map record_at (seq 0 10).

Definition system0 : EdgeMain.system :=
  {| EdgeMain.session_data := ten_records;
     EdgeMain.ride_id := None;
     EdgeMain.backup_dir := ∅;
     EdgeMain.posted := [] |}.

Definition clock1 : EdgeMain.clock :=
  {| EdgeMain.strftime := "20251027_134729";
     EdgeMain.isoformat := "2025-10-27T13:47:29.120000";
     EdgeMain.now := 1761572849 |}.

Definition clock2 : EdgeMain.clock :=
  {| EdgeMain.strftime := "20251027_134759";
     EdgeMain.isoformat := "2025-10-27T13:47:59.480000";
     EdgeMain.now := 1761572879 |}.

(** * The rest of the pipeline *)

Section GroupInvariantNotions.
Import GroupDamages.

(** The centre of a group is the mean of the positions of its members. *)
Definition center_is_mean (g : group) : Prop :=
  (lat (center g) == lat (centroid (detections g)))%Q
  /\ (lon (center g) == lon (centroid (detections g)))%Q.

(** What the main loop keeps true of each group. *)
Definition group_inv (g : group) : Prop :=
  group_ok g
  /\ Forall (fun d => get_class d = damage_type g) (detections g)
  /\ center_is_mean g
  /\ timestamp <$> head (detections g) = Some (created g).

(** ... and of the list of groups, after the detections [seen]. *)
Definition groups_inv (seen : list detection) (groups : list group) : Prop :=
  Forall group_inv groups
  /\ map group_id groups = seq 1 (length groups)
  /\ concat (map detections groups)
     ≡ₚ filter (fun d => valid_position d = true) seen.
End GroupInvariantNotions.

(** [DamageGrouper._calculate_severity] with the image factor read as a
    number of images. *)
Definition severity_by_count (ty : string) (conf : Q) (count : nat) : severity :=
  if String.eqb (lower ty) "pothole" then
    if Qgtb conf 0.8 || (3 <=? count)%nat then high
    else if Qgtb conf 0.6 then medium
    else low
  else if String.eqb (lower ty) "crack" then
    if Qgtb conf 0.75 && (2 <=? count)%nat then medium else low
  else low.

(** ** src/edge/group_damages.py: the GeoJSON export *)
Module GroupedGeojson.

(** An entry of [images]. *)
Record img_info := {
  url : string;
  filename : string;
  img_timestamp : string;
  img_confidence : Q
}.

Record properties_t := {
  p_id : nat;
  p_damage_type : string;
  p_image_count : nat;
  p_images : list img_info;
  p_avg_confidence : Q;
  p_best_confidence : Q;
  p_first_seen : string;
  p_last_seen : string;
  p_severity : severity
}.

Record feature := {
  geometry_type : string;
  coordinates : list Q;
  properties : properties_t
}.

Record metadata_t := {
  generated : string;
  total_groups : nat;
  total_images : nat;
  grouping_distance_m : Q
}.

Record geojson := { metadata : metadata_t; features : list feature }.

Section Exporter.
(** [round(x, 3)]; the key 'image_url' of a detection, which the records
    of the embedding do not carry, with its default ''; and
    [datetime.now().isoformat()]. *)
Variable round3 : Q -> Q.
Variable image_url : GroupDamages.detection -> string.
Variable now : string.

Definition img_info_of (d : GroupDamages.detection) : img_info :=
  {| url := image_url d;
     filename := default ""%string (GroupDamages.image d);
     img_timestamp := GroupDamages.get_timestamp d;
     img_confidence := GroupDamages.get_confidence d |}.

(** One iteration of [for group in groups]; [group['first_seen']] and
    [group['last_seen']] raise KeyError when the key is missing. *)
Definition feature_of (g : GroupDamages.grouped) : option feature :=
  let images := map img_info_of (GroupDamages.detections (GroupDamages.base g)) in
  first ← GroupDamages.first_seen g;
  last ← GroupDamages.last_seen g;
  Some {| geometry_type := "Point";
          coordinates := [GroupDamages.lon (GroupDamages.center (GroupDamages.base g));
                          GroupDamages.lat (GroupDamages.center (GroupDamages.base g))];
          properties :=
            {| p_id := GroupDamages.group_id (GroupDamages.base g);
               p_damage_type := GroupDamages.damage_type (GroupDamages.base g);
               p_image_count := GroupDamages.image_count g;
               p_images := images;
               p_avg_confidence := round3 (GroupDamages.avg_confidence g);
               p_best_confidence := round3 (GroupDamages.best_confidence g);
               p_first_seen := first;
               p_last_seen := last;
               p_severity := GroupDamages._calculate_severity g |} |}.

(** [DamageGrouper.export_grouped_geojson], up to the document it writes. *)
Definition export_grouped_geojson (max_distance : Q) (groups : list GroupDamages.grouped)
  : option geojson :=
  features ← mapM feature_of groups;
  Some {| metadata :=
            {| generated := now;
               total_groups := length groups;
               total_images := sum_list (map GroupDamages.image_count groups);
               grouping_distance_m := max_distance |};
          features := features |}.
End Exporter.
End GroupedGeojson.

(** [enumerate(l)], counting from [n]. *)
Fixpoint enumerate_from {A : Type} (n : nat) (l : list A) : list (nat * A) :=
  match l with
  | [] => []
  | x :: l' => (n, x) :: enumerate_from (S n) l'
  end.

(** ** src/edge/update_github_pages.py: grouping of damages *)
Module PagesDamages.

(** An entry of damages.json, a [DamageDetection] of the live system. *)
Record damage := {
  damage_id : nat;
  timestamp : string;
  latitude : Q;
  longitude : Q;
  damage_type : string;
  confidence : Q;
  severity : string;
  image_path : string;
  bbox : list Q
}.

Section Grouping.
(** geopy's [geodesic(p, q).meters], [None] when the import failed, and
    [gh_config['geojson'].get('group_radius_m', 1.0)]. *)
Variable geodesic : option (Q * Q -> Q * Q -> Q).
Variable radius_m : Q.

(** The body of [for j, other in enumerate(damages)], on the variables
    [group] and [used]; [seed] is the [damage] of the outer loop. *)
Definition inner_body (dist : Q * Q -> Q * Q -> Q) (i : nat) (seed : damage)
           (st : list damage * gset nat) (jo : nat * damage) : list damage * gset nat :=
  if bool_decide (jo.1 ∈ st.2) || (i =? jo.1)%nat then st
  else if negb (String.eqb (damage_type seed) (damage_type jo.2)) then st
  else if Qle_bool (dist (latitude seed, longitude seed)
                         (latitude jo.2, longitude jo.2)) radius_m
       then (st.1 ++ [jo.2], {[jo.1]} ∪ st.2)
       else st.

(** The body of [for i, damage in enumerate(damages)], on [groups] and
    [used]. *)
Definition outer_body (dist : Q * Q -> Q * Q -> Q) (damages : list damage)
           (st : list (list damage) * gset nat) (id : nat * damage)
  : list (list damage) * gset nat :=
  if bool_decide (id.1 ∈ st.2) then st
  else
    let r := fold_left (inner_body dist id.1 id.2) (enumerate_from 0 damages)
                       ([id.2], {[id.1]} ∪ st.2) in
    (st.1 ++ [r.1], r.2).

(** [GitHubPagesUpdater.group_damages]. *)
Definition group_damages (damages : list damage) : list (list damage) :=
  match damages, geodesic with
  | [], _ | _, None => map (fun d => [d]) damages
  | _, Some dist =>
      (fold_left (outer_body dist damages) (enumerate_from 0 damages) ([], ∅)).1
  end.
End Grouping.
End PagesDamages.

(** The elements of [all] whose index is in [used]. *)
Definition picked {A : Type} (all : list (nat * A)) (used : gset nat) : list A :=
  (filter (fun p => p.1 ∈ used) all).*2.

Section PagesDamagesNotions.
Import PagesDamages.

(** A group as [group_damages] builds it: a first damage, the seed, and
    damages of its type within the radius of the seed. *)
Definition seeded_group (dist : Q * Q -> Q * Q -> Q) (radius_m : Q)
           (g : list damage) : Prop :=
  exists seed rest,
    g = seed :: rest
    /\ Forall (fun o =>
                 damage_type o = damage_type seed
                 /\ (dist (latitude seed, longitude seed) (latitude o, longitude o)
                     <= radius_m)%Q) rest.

(** What the outer loop of [group_damages] keeps true: the groups hold
    the damages whose index is in [used], each once. *)
Definition outer_inv (dist : Q * Q -> Q * Q -> Q) (radius_m : Q) (damages : list damage)
           (st : list (list damage) * gset nat) : Prop :=
  concat st.1 ≡ₚ picked (enumerate_from 0 damages) st.2
  /\ Forall (seeded_group dist radius_m) st.1.
End PagesDamagesNotions.

(** [min(xs)] and [max(xs)] on strings: the first minimal and the first
    maximal element; both raise on an empty sequence. *)
Definition py_min_str (xs : list string) : option string :=
  match xs with
  | [] => None
  | x :: xs' => Some (fold_left (fun cur y => if String.ltb y cur then y else cur) xs' x)
  end.

Definition py_max_str (xs : list string) : option string :=
  match xs with
  | [] => None
  | x :: xs' => Some (fold_left (fun cur y => if String.ltb cur y then y else cur) xs' x)
  end.

(** ** src/edge/update_github_pages.py: the damage markers *)
Module PagesGeojson.

(** An entry of [images]. *)
Record image_t := {
  filename : string;
  url : string;
  img_timestamp : string;
  img_confidence : Q
}.

Record properties_t := {
  p_id : nat;
  p_session_id : string;
  p_damage_type : string;
  p_severity : string;
  p_image_count : nat;
  p_images : list image_t;
  p_avg_confidence : Q;
  p_best_confidence : Q;
  p_first_seen : string;
  p_last_seen : string
}.

Record feature := {
  geometry_type : string;
  coordinates : list Q;
  properties : properties_t
}.

Record metadata_t := {
  m_session_id : string;
  generated : string;
  total_groups : nat;
  total_images : nat;
  grouping_distance_m : Q
}.

Record geojson := { metadata : metadata_t; features : list feature }.

Section Generator.
(** geopy's [geodesic(p, q).meters] ([None] when the import failed),
    [gh_config['geojson'].get('group_radius_m', 1.0)], the order in which
    Python iterates over a set of strings, [Path(p).name], and
    [datetime.now().isoformat()]. *)
Variable geodesic : option (Q * Q -> Q * Q -> Q).
Variable radius_m : Q.
Variable set_order : list string -> list string.
Variable path_name : string -> string.
Variable now : string.

Definition image_of (session_id : string) (d : PagesDamages.damage) : image_t :=
  {| filename := path_name (PagesDamages.image_path d);
     url := ("images/" ++ session_id ++ "/" ++ path_name (PagesDamages.image_path d))%string;
     img_timestamp := PagesDamages.timestamp d;
     img_confidence := PagesDamages.confidence d |}.

(** ['high' if 'high' in severities else ('medium' if 'medium' in
    severities else 'low')]. *)
Definition worst_severity (severities : list string) : string :=
  if existsb (String.eqb "high") severities then "high"
  else if existsb (String.eqb "medium") severities then "medium"
  else "low".

(** One iteration of [for group_id, group in enumerate(grouped, 1)]:
    the divisions and [min]/[max] raise on an empty group. *)
Definition feature_of (session_id : string) (group_id : nat)
           (group : list PagesDamages.damage) : option feature :=
  avg_lat ← py_div (py_sum (map PagesDamages.latitude group)) (length group);
  avg_lon ← py_div (py_sum (map PagesDamages.longitude group)) (length group);
  let damage_types := map PagesDamages.damage_type group in
  damage_type ← py_max_by (AutoLiveSystem.count damage_types) (set_order damage_types);
  let severity := worst_severity (map PagesDamages.severity group) in
  let images := map (image_of session_id) group in
  avg_confidence ← py_div (py_sum (map PagesDamages.confidence group)) (length group);
  best_confidence ← py_max (map PagesDamages.confidence group);
  first_seen ← py_min_str (map PagesDamages.timestamp group);
  last_seen ← py_max_str (map PagesDamages.timestamp group);
  Some {| geometry_type := "Point";
          coordinates := [avg_lon; avg_lat];
          properties :=
            {| p_id := group_id;
               p_session_id := session_id;
               p_damage_type := damage_type;
               p_severity := severity;
               p_image_count := length images;
               p_images := images;
               p_avg_confidence := avg_confidence;
               p_best_confidence := best_confidence;
               p_first_seen := first_seen;
               p_last_seen := last_seen |} |}.

(** [GitHubPagesUpdater.generate_damages_geojson], up to the document it
    writes to [damages_<session_id>.geojson]. *)
Definition generate_damages_geojson (session_id : string)
           (damages : list PagesDamages.damage) : option geojson :=
  let grouped := PagesDamages.group_damages geodesic radius_m damages in
  features ← mapM (fun p => feature_of session_id p.1 p.2) (enumerate_from 1 grouped);
  Some {| metadata :=
            {| m_session_id := session_id;
               generated := now;
               total_groups := length features;
               total_images :=
                 sum_list (map (fun f => length (p_images (properties f))) features);
               grouping_distance_m := radius_m |};
          features := features |}.
End Generator.
End PagesGeojson.

(** The rank of a severity string, as [worst_severity] reads it. *)
Definition severity_string_rank (s : string) : nat :=
  if String.eqb "high" s then 2 else if String.eqb "medium" s then 1 else 0.

Section PagesGeojsonNotions.
Import PagesDamages PagesGeojson.

(** How the feature [f] summarises the group [g]. *)
Definition summarises (f : feature) (g : list damage) : Prop :=
  let n := inject_Z (Z.of_nat (length g)) in
  let p := properties f in
  geometry_type f = "Point"%string
  /\ (exists avg_lat avg_lon,
         coordinates f = [avg_lon; avg_lat]
         /\ (avg_lat * n == py_sum (map latitude g))%Q
         /\ (avg_lon * n == py_sum (map longitude g))%Q)
  /\ Forall (fun d => damage_type d = p_damage_type p) g
  /\ (exists d, d ∈ g /\ severity_string_rank (severity d) = severity_string_rank (p_severity p))
  /\ Forall (fun d => severity_string_rank (severity d) <= severity_string_rank (p_severity p)) g
  /\ p_image_count p = length g
  /\ map img_timestamp (p_images p) = map timestamp g
  /\ (p_avg_confidence p * n == py_sum (map confidence g))%Q
  /\ (exists d, d ∈ g /\ p_best_confidence p = confidence d)
  /\ Forall (fun d => (confidence d <= p_best_confidence p)%Q) g
  /\ (exists d1 dn, d1 ∈ g /\ dn ∈ g
                    /\ p_first_seen p = timestamp d1 /\ p_last_seen p = timestamp dn)
  /\ Forall (fun d => String.leb (p_first_seen p) (timestamp d) = true
                      /\ String.leb (timestamp d) (p_last_seen p) = true) g.
End PagesGeojsonNotions.

(** Three damages of one ride, on the sample meridian: two potholes
    0.6 m apart and a crack 11 m further on. *)
Definition damage_at (i : nat) (t : string) (la : Q) (ty : string) (c : Q)
           (sev : string) : PagesDamages.damage :=
  {| PagesDamages.damage_id := i;
     PagesDamages.timestamp := t;
     PagesDamages.latitude := la;
     PagesDamages.longitude := 8;
     PagesDamages.damage_type := ty;
     PagesDamages.confidence := c;
     PagesDamages.severity := sev;
     PagesDamages.image_path :=
       ("data/20251027_134700/damages/damage_00000" ++ String (ascii_of_nat (48 + i)) ".jpg")%string;
     PagesDamages.bbox := [100; 100; 300; 300]%Q |}.

Definition sample_damages : list PagesDamages.damage :=
  [damage_at 1 "2025-10-27T13:47:01" 50 "pothole" 0.9 "high";
   damage_at 2 "2025-10-27T13:47:02" 50.0000054 "pothole" 0.7 "medium";
   damage_at 3 "2025-10-27T13:47:09" 50.0001 "crack" 0.8 "medium"]%string.

(** ** src/edge/update_github_pages.py: the route *)
Module PagesRoute.

(** [route['features'][i]['geometry']]. *)
Record geometry := { g_type : string; g_coordinates : list UpdateGithubPages.coord }.

(** The properties of a feature: of the whole route, or of a segment. *)
Inductive properties_t :=
| RouteProperties (session_id : string)
| SegmentProperties (session_id : string) (segment_id : nat) (surface_type : string)
                    (confidence : Q) (color : string).

Record feature := { f_geometry : geometry; f_properties : properties_t }.

Record geojson := {
  m_session_id : string;
  generated : string;
  m_segments : nat;
  features : list feature
}.

(** The table of [get_surface_color]. *)
Definition colors : gmap string string :=
  list_to_map
    [("asphalt_excellent", "#27ae60"); ("asphalt_good", "#2ecc71");
     ("asphalt_fair", "#f39c12"); ("asphalt_poor", "#e74c3c");
     ("concrete", "#95a5a6"); ("cobblestone", "#7f8c8d");
     ("paving_stones", "#8e44ad"); ("gravel", "#d35400");
     ("dirt", "#795548")]%string.

(** [GitHubPagesUpdater.get_surface_color]. *)
Definition get_surface_color (surface_type : string) : string :=
  default "#3498db"%string (colors !! surface_type).

Section Generator.
(** geopy's [geodesic], [gh_config['geojson'].get('route_segments', True)]
    and [datetime.now().isoformat()]. *)
Variable geodesic : option (Q * Q -> Q * Q -> Q).
Variable route_segments : bool.
Variable now : string.

Definition segment_feature (session_id : string) (p : nat * UpdateGithubPages.segment)
  : feature :=
  {| f_geometry :=
       {| g_type := "LineString";
          g_coordinates := UpdateGithubPages.coordinates p.2 |};
     f_properties :=
       SegmentProperties session_id p.1
         (UpdateGithubPages.seg_surface_type p.2)
         (UpdateGithubPages.seg_confidence p.2)
         (get_surface_color (UpdateGithubPages.seg_surface_type p.2)) |}.

(** [GitHubPagesUpdater.generate_route_geojson], up to the document it
    writes to [route_<session_id>.geojson]; [route] is the list of the
    geometries of [route['features']], and [route['features'][0]] raises
    on an empty list. *)
Definition generate_route_geojson (session_id : string) (route : list geometry)
           (surfaces : list UpdateGithubPages.surface) : option geojson :=
  geometry0 ← head route;
  let features :=
    if negb route_segments then
      [{| f_geometry := geometry0; f_properties := RouteProperties session_id |}]
    else
      map (segment_feature session_id)
          (enumerate_from 0
             (UpdateGithubPages.segment_by_surface geodesic (g_coordinates geometry0)
                                                   surfaces)) in
  Some {| m_session_id := session_id;
          generated := now;
          m_segments := length features;
          features := features |}.
End Generator.
End PagesRoute.

Section PagesRouteNotions.
Import PagesRoute.

(** The segment id of a feature, if it is a segment. *)
Definition segment_id_of (f : feature) : option nat :=
  match f_properties f with
  | SegmentProperties _ i _ _ _ => Some i
  | RouteProperties _ => None
  end.

(** The colour of a feature is the colour of its surface type. *)
Definition colored_by_surface (f : feature) : Prop :=
  match f_properties f with
  | SegmentProperties _ _ ty _ color => color = get_surface_color ty
  | RouteProperties _ => False
  end.
End PagesRouteNotions.

(** ** src/edge/auto_live_system.py: the capture loop *)

(** The strings of the severities. *)
Definition severity_str (s : severity) : string :=
  match s with low => "low" | medium => "medium" | high => "high" end.

Module LiveSystem.

(** An entry of [self.route_points]. *)
Record route_point := {
  rp_timestamp : string;
  rp_latitude : Q;
  rp_longitude : Q;
  rp_surface_type : option string
}.

(** The dataclass [SurfaceDetection]. *)
Record surface_detection := {
  sd_timestamp : string;
  sd_latitude : Q;
  sd_longitude : Q;
  sd_surface_type : string;
  sd_confidence : Q;
  sd_image_path : option string
}.

(** What the capture loop reads of the configuration, and whether a
    model is loaded ([self.model is not None]).  [azure_live] stands for
    [azure.enabled and azure.upload_damages and azure.upload_mode == 'live']. *)
Record config := {
  surface_enabled : bool;
  segment_length_m : Q;
  smoothing : bool;
  smoothing_window : nat;
  save_all_images : bool;
  damage_enabled : bool;
  severity_rules : gmap string AutoLiveSystem.thresholds;
  azure_live : bool;
  model_loaded : bool
}.

(** The fields of [AutoLiveSystem] the capture loop changes; the
    dataclass [DamageDetection] is the entry of damages.json. *)
Record state := {
  route_points : list route_point;
  surface_detections : list surface_detection;
  damage_detections : list PagesDamages.damage;
  current_position : option (Q * Q);
  last_surface_check_pos : option (Q * Q);
  current_surface : option string;
  surface_buffer : list (string * Q);
  total_images : nat;
  total_distance_km : Q;
  stats_surfaces : gmap string nat;
  stats_damages : gmap string nat;
  upload_queue : list PagesDamages.damage
}.

(** The state [__init__] sets up. *)
Definition initial : state :=
  {| route_points := [];
     surface_detections := [];
     damage_detections := [];
     current_position := None;
     last_surface_check_pos := None;
     current_surface := None;
     surface_buffer := [];
     total_images := 0;
     total_distance_km := 0;
     stats_surfaces := ∅;
     stats_damages := ∅;
     upload_queue := [] |}.

(** What one pass of the loop reads from outside: the camera ([None]
    without a camera, else the flag [ret]), the GPS ([None] without a
    GPS module, else what [get_current_position] returns), the clock, and
    the draws of the demo mode: the surface with its confidence, and the
    damage, if one is drawn. *)
Record capture := {
  camera : option bool;
  gps : option (option GroupDamages.gps_data);
  clock : string;
  drawn_surface : string * Q;
  drawn_damage : option (string * Q)
}.

Section Loop.
(** geopy's [geodesic(p, q).meters] ([None] when the import failed), the
    iteration order of sets, and the paths [images/img_<n>.jpg] and
    [damages/damage_<n>.jpg] of the session directory. *)
Variable geodesic : option (Q * Q -> Q * Q -> Q).
Variable set_order : list string -> list string.
Variable image_path : nat -> string.
Variable damage_path : nat -> string.

(** [AutoLiveSystem.get_gps_position]. *)
Definition get_gps_position (g : option (option GroupDamages.gps_data)) : option (Q * Q) :=
  match g with
  | None => Some (48.2904, 11.0434)%Q
  | Some None => None
  | Some (Some data) =>
      if truthy (GroupDamages.latitude data) && truthy (GroupDamages.longitude data) then
        la ← GroupDamages.latitude data;
        lo ← GroupDamages.longitude data;
        Some (la, lo)
      else None
  end.

(** The test at the head of [process_surface]: is the position less
    than a segment length from the last measurement? *)
Definition too_close (cfg : config) (s : state) (pos : Q * Q) : bool :=
  match last_surface_check_pos s, geodesic with
  | Some last_pos, Some dist => Qltb (dist last_pos pos) (segment_length_m cfg)
  | _, _ => false
  end.

(** The sample of the inference: drawn in demo mode, fixed otherwise. *)
Definition raw_sample (cfg : config) (c : capture) : string * Q :=
  if model_loaded cfg then ("asphalt_good"%string, 0.85%Q) else drawn_surface c.

(** [AutoLiveSystem.process_surface]. *)
Definition process_surface (cfg : config) (c : capture) (lat lon : Q)
           (timestamp img : string) (s : state) : option state :=
  if negb (surface_enabled cfg) then Some s
  else if too_close cfg s (lat, lon) then Some s
  else
    '(buffer, voted) ← AutoLiveSystem.process_surface set_order (smoothing cfg)
                          (smoothing_window cfg) (surface_buffer s) (raw_sample cfg c);
    let detection :=
      {| sd_timestamp := timestamp;
         sd_latitude := lat;
         sd_longitude := lon;
         sd_surface_type := voted.1;
         sd_confidence := voted.2;
         sd_image_path := if save_all_images cfg then Some img else None |} in
    Some {| route_points := route_points s;
            surface_detections := surface_detections s ++ [detection];
            damage_detections := damage_detections s;
            current_position := current_position s;
            last_surface_check_pos := Some (lat, lon);
            current_surface := Some voted.1;
            surface_buffer := buffer;
            total_images := total_images s;
            total_distance_km := total_distance_km s;
            stats_surfaces :=
              <[voted.1 := default 0 (stats_surfaces s !! voted.1) + 1]> (stats_surfaces s);
            stats_damages := stats_damages s;
            upload_queue := upload_queue s |}.

(** The body of [for damage_type, confidence, bbox in detections]. *)
Definition record_damage (cfg : config) (lat lon : Q) (timestamp : string)
           (s : state) (d : string * Q * list Q) : state :=
  let '(damage_type, confidence, bbox) := d in
  let severity := AutoLiveSystem.calculate_severity (severity_rules cfg) damage_type confidence in
  let damage_id := length (damage_detections s) + 1 in
  let detection :=
    {| PagesDamages.damage_id := damage_id;
       PagesDamages.timestamp := timestamp;
       PagesDamages.latitude := lat;
       PagesDamages.longitude := lon;
       PagesDamages.damage_type := damage_type;
       PagesDamages.confidence := confidence;
       PagesDamages.severity := severity_str severity;
       PagesDamages.image_path := damage_path damage_id;
       PagesDamages.bbox := bbox |} in
  {| route_points := route_points s;
     surface_detections := surface_detections s;
     damage_detections := damage_detections s ++ [detection];
     current_position := current_position s;
     last_surface_check_pos := last_surface_check_pos s;
     current_surface := current_surface s;
     surface_buffer := surface_buffer s;
     total_images := total_images s;
     total_distance_km := total_distance_km s;
     stats_surfaces := stats_surfaces s;
     stats_damages :=
       <[damage_type := default 0 (stats_damages s !! damage_type) + 1]> (stats_damages s);
     upload_queue :=
       if azure_live cfg then upload_queue s ++ [detection] else upload_queue s |}.

(** The detections of one frame: one drawn damage at most in demo mode,
    none with a model, whose results are not read yet. *)
Definition frame_damages (cfg : config) (c : capture) : list (string * Q * list Q) :=
  if model_loaded cfg then []
  else match drawn_damage c with
       | Some (damage_type, confidence) => [(damage_type, confidence, [100; 100; 300; 300]%Q)]
       | None => []
       end.

(** [AutoLiveSystem.process_damages]. *)
Definition process_damages (cfg : config) (c : capture) (lat lon : Q)
           (timestamp : string) (s : state) : state :=
  if negb (damage_enabled cfg) then s
  else fold_left (record_damage cfg lat lon timestamp) (frame_damages cfg c) s.

(** The first part of [capture_and_process]: the position becomes a
    route point with the surface known so far, the distance grows by the
    leg from the previous point, and the image is counted if there is a
    frame. *)
Definition add_route_point (c : capture) (lat lon : Q) (s : state) : state :=
  let point := {| rp_timestamp := clock c;
                  rp_latitude := lat;
                  rp_longitude := lon;
                  rp_surface_type := current_surface s |} in
  {| route_points := route_points s ++ [point];
     surface_detections := surface_detections s;
     damage_detections := damage_detections s;
     current_position := Some (lat, lon);
     last_surface_check_pos := last_surface_check_pos s;
     current_surface := current_surface s;
     surface_buffer := surface_buffer s;
     total_images :=
       match camera c with
       | Some _ => total_images s + 1
       | None => total_images s
       end;
     total_distance_km :=
       match last (route_points s), geodesic with
       | Some prev, Some dist =>
           (total_distance_km s
            + dist (rp_latitude prev, rp_longitude prev) (lat, lon) / 1000)%Q
       | _, _ => total_distance_km s
       end;
     stats_surfaces := stats_surfaces s;
     stats_damages := stats_damages s;
     upload_queue := upload_queue s |}.

(** [AutoLiveSystem.capture_and_process]. *)
Definition capture_and_process (cfg : config) (c : capture) (s : state) : option state :=
  if negb (default true (camera c)) then Some s
  else
    match get_gps_position (gps c) with
    | None => Some s
    | Some (lat, lon) =>
        let s1 := add_route_point c lat lon s in
        let img := image_path (length (route_points s1)) in
        s2 ← process_surface cfg c lat lon (clock c) img s1;
        Some (process_damages cfg c lat lon (clock c) s2)
    end.

(** The main loop of [run], one pass for each entry of [cs]. *)
Fixpoint run (cfg : config) (cs : list capture) (s : state) : option state :=
  match cs with
  | [] => Some s
  | c :: cs' => s' ← capture_and_process cfg c s; run cfg cs' s'
  end.
End Loop.

(** What [save_session_data] writes to route.geojson and surfaces.json:
    the geometries of the features of the route, and the entries of the
    surface list with the keys the publisher reads. *)
Definition saved_route (s : state) : list PagesRoute.geometry :=
  [{| PagesRoute.g_type := "LineString";
      PagesRoute.g_coordinates :=
        map (fun p => (rp_longitude p, rp_latitude p)) (route_points s) |}].

Definition saved_surfaces (s : state) : list UpdateGithubPages.surface :=
  map (fun d => {| UpdateGithubPages.latitude := sd_latitude d;
                   UpdateGithubPages.longitude := sd_longitude d;
                   UpdateGithubPages.surface_type := sd_surface_type d;
                   UpdateGithubPages.confidence := sd_confidence d |})
      (surface_detections s).

End LiveSystem.

(** The entry a counter dictionary has for [t] after counting [l]: no
    entry for a key that never occurred. *)
Definition tally (l : list string) (t : string) : option nat :=
  let n := AutoLiveSystem.count l t in
  if (n =? 0)%nat then None else Some n.

Section LiveSystemNotions.
Import LiveSystem.

(** A capture that reaches the detections: the camera delivered, and the
    position is known. *)
Definition positioned (c : capture) : option (Q * Q) :=
  if negb (default true (camera c)) then None
  else match gps c with
       | None => Some (48.2904, 11.0434)%Q
       | Some None => None
       | Some (Some data) =>
           match GroupDamages.latitude data, GroupDamages.longitude data with
           | Some la, Some lo =>
               if Qeq_bool la 0 || Qeq_bool lo 0 then None else Some (la, lo)
           | _, _ => None
           end
       end.

(** What the loop keeps true of the state. *)
Definition live_inv (cfg : config) (s : state) : Prop :=
  (forall t, stats_surfaces s !! t = tally (map sd_surface_type (surface_detections s)) t)
  /\ (forall t, stats_damages s !! t
                = tally (map PagesDamages.damage_type (damage_detections s)) t)
  /\ map PagesDamages.damage_id (damage_detections s)
     = seq 1 (length (damage_detections s))
  /\ Forall (fun d => PagesDamages.severity d
                      = severity_str (AutoLiveSystem.calculate_severity
                                        (severity_rules cfg)
                                        (PagesDamages.damage_type d)
                                        (PagesDamages.confidence d)))
            (damage_detections s)
  /\ upload_queue s = (if azure_live cfg then damage_detections s else [])
  /\ current_surface s = sd_surface_type <$> last (surface_detections s)
  /\ last_surface_check_pos s
     = (fun d => (sd_latitude d, sd_longitude d)) <$> last (surface_detections s)
  /\ current_position s
     = (fun p => (rp_latitude p, rp_longitude p)) <$> last (route_points s)
  /\ length (surface_detections s) <= length (route_points s)
  /\ length (damage_detections s) <= length (route_points s)
  /\ total_images s <= length (route_points s)
  /\ length (surface_buffer s) <= smoothing_window cfg
  /\ length (surface_buffer s) <= length (surface_detections s).

(** What the loop keeps true when a model is loaded. *)
Definition loaded_inv (s : state) : Prop :=
  Forall (fun x => x = ("asphalt_good"%string, 0.85%Q)) (surface_buffer s)
  /\ Forall (fun d => sd_surface_type d = "asphalt_good"%string
                      /\ (sd_confidence d == 0.85)%Q) (surface_detections s)
  /\ damage_detections s = []
  /\ stats_damages s = ∅
  /\ upload_queue s = [].

(** What the loop keeps true without geopy, when surface detection is
    on: [raws] are the samples of the inference so far. *)
Definition measured_inv (cfg : config) (raws : list (string * Q)) (s : state) : Prop :=
  map (fun d => (sd_timestamp d, sd_latitude d, sd_longitude d)) (surface_detections s)
  = map (fun p => (rp_timestamp p, rp_latitude p, rp_longitude p)) (route_points s)
  /\ surface_buffer s = drop (length raws - smoothing_window cfg) raws.

(** The samples of the inference for the captures with a position. *)
Definition raw_samples (cfg : config) (cs : list capture) : list (string * Q) :=
  map (raw_sample cfg) (filter (fun c => is_Some (positioned c)) cs).
End LiveSystemNotions.

(** A configuration of the demo mode, and three captures along the
    sample meridian, the second of them without a fix. *)
Definition sample_config : LiveSystem.config :=
  {| LiveSystem.surface_enabled := true;
     LiveSystem.segment_length_m := 5;
     LiveSystem.smoothing := true;
     LiveSystem.smoothing_window := 3;
     LiveSystem.save_all_images := true;
     LiveSystem.damage_enabled := true;
     LiveSystem.severity_rules := sample_rules;
     LiveSystem.azure_live := false;
     LiveSystem.model_loaded := false |}.

Definition capture_at (t : string) (la : option Q) (surface : string)
           (damage : option (string * Q)) : LiveSystem.capture :=
  {| LiveSystem.camera := Some true;
     LiveSystem.gps :=
       Some (Some {| GroupDamages.latitude := la; GroupDamages.longitude := Some 8%Q |});
     LiveSystem.clock := t;
     LiveSystem.drawn_surface := (surface, 0.8%Q);
     LiveSystem.drawn_damage := damage |}.

Definition sample_captures : list LiveSystem.capture :=
  [capture_at "2025-10-27T13:47:01" (Some 50%Q) "asphalt_good" None;
   capture_at "2025-10-27T13:47:02" None "gravel" None;
   capture_at "2025-10-27T13:47:03" (Some 50.0001%Q) "gravel" (Some ("pothole", 0.9%Q))]%string.

(** The same configuration with a model loaded. *)
Definition sample_config_model : LiveSystem.config :=
  {| LiveSystem.surface_enabled := true;
     LiveSystem.segment_length_m := 5;
     LiveSystem.smoothing := true;
     LiveSystem.smoothing_window := 3;
     LiveSystem.save_all_images := true;
     LiveSystem.damage_enabled := true;
     LiveSystem.severity_rules := sample_rules;
     LiveSystem.azure_live := true;
     LiveSystem.model_loaded := true |}.

Definition sample_image_path (n : nat) : string := "images/img.jpg".
Definition sample_damage_path (n : nat) : string := "damages/damage.jpg".

(** ** src/edge/main.py: the session around the upload *)
Module EdgeSession.

(** [self.session_data.append(detection_record)] of [start_session]. *)
Definition append_record (r : EdgeMain.record) (s : EdgeMain.system) : EdgeMain.system :=
  {| EdgeMain.session_data := EdgeMain.session_data s ++ [r];
     EdgeMain.ride_id := EdgeMain.ride_id s;
     EdgeMain.backup_dir := EdgeMain.backup_dir s;
     EdgeMain.posted := EdgeMain.posted s |}.

Section Session.
(** [config['cloud']['batch_size']] and [config['storage']['max_backup_files']]. *)
Variable batch_size : Z.
Variable max_files : Z.

(** One turn of the loop of [periodic_upload], after the sleep. *)
Definition periodic_upload (c : EdgeMain.clock) (resp : EdgeMain.response)
           (s : EdgeMain.system) : EdgeMain.system :=
  if (batch_size <=? Z.of_nat (length (EdgeMain.session_data s)))%Z
  then EdgeMain.upload_to_cloud max_files c resp s
  else s.

(** The upload part of [BikeEdgeSystem.cleanup]: [c1] is the clock of the
    backup a failed upload makes, [c2] that of the backup after it. *)
Definition cleanup (c1 c2 : EdgeMain.clock) (resp : EdgeMain.response)
           (s : EdgeMain.system) : EdgeMain.system :=
  match EdgeMain.session_data s with
  | [] => s
  | _ =>
      let s1 := EdgeMain.upload_to_cloud max_files c1 resp s in
      match EdgeMain.session_data s1 with
      | [] => s1
      | _ => EdgeMain.save_local_backup max_files c2 None s1
      end
  end.

(** What happens to the buffer during a session. *)
Inductive event :=
| Detected (r : EdgeMain.record)
| UploadDue (c : EdgeMain.clock) (resp : EdgeMain.response)
| Shutdown (c1 c2 : EdgeMain.clock) (resp : EdgeMain.response).

Definition step (s : EdgeMain.system) (e : event) : EdgeMain.system :=
  match e with
  | Detected r => append_record r s
  | UploadDue c resp => periodic_upload c resp s
  | Shutdown c1 c2 resp => cleanup c1 c2 resp s
  end.

Definition session (events : list event) (s : EdgeMain.system) : EdgeMain.system :=
  fold_left step events s.
End Session.
End EdgeSession.

Section EdgeSessionNotions.
Import EdgeMain EdgeSession.

(** The records of the events. *)
Definition detected (events : list event) : list record :=
  omap (fun e => match e with Detected r => Some r | _ => None end) events.


End EdgeSessionNotions.

(** Two backup files of the ten sample records, written 30 s apart. *)
Definition sample_backup (c : EdgeMain.clock) : EdgeMain.file :=
  {| EdgeMain.content := EdgeMain.convert_to_geojson (EdgeMain.isoformat c) ten_records;
     EdgeMain.st_mtime := EdgeMain.now c |}.

Definition sample_backups : gmap string EdgeMain.file :=
  <[EdgeMain.backup_name clock2 := sample_backup clock2]>
    {[ EdgeMain.backup_name clock1 := sample_backup clock1 ]}.

(** ** src/edge/gps_module.py *)
Module GpsModule.

(** The dictionary [get_current_position] returns. *)
Record position := {
  latitude : Q;
  longitude : Q;
  altitude : Q;
  speed : Q;
  timestamp : string;
  satellites : Z;
  fix_quality : Z
}.

(** What a line of the serial port is to [get_current_position]: blank
    after [strip] (also a read that timed out), refused by
    [pynmea2.parse], a GGA or an RMC sentence with the fields that are
    read, another sentence, or a line whose handling raises another
    exception. *)
Inductive line :=
| Blank
| ParseError
| GGA (gps_qual : Z) (lat lon : Q) (alt : option Q) (num_sats : Z)
| RMC (status : string) (lat lon : Q) (spd_over_grnd : option Q)
| OtherSentence
| Failure.

(** The fields of [GPSModule] the method uses; [port] holds the lines
    that wait to be read. *)
Record gps := {
  connected : bool;
  last_valid_position : option position;
  port : list line
}.




End GpsModule.

(** ** src/demo.py *)
Module Demo.

(** A point [(lat, lon)]. *)
Definition point : Type := Q * Q.

(** [generate_route_waypoints]. *)
Definition generate_route_waypoints : list point :=
  [(48.2905, 11.0434); (48.2915, 11.0425); (48.2928, 11.0415); (48.2945, 11.0408);
   (48.2962, 11.0402); (48.2980, 11.0398); (48.2998, 11.0395); (48.3015, 11.0392);
   (48.3032, 11.0390); (48.3048, 11.0388); (48.3062, 11.0387); (48.3075, 11.0386)]%Q.

(** The point the inner loop appends for [j]. *)
Definition interpolate (points_per_segment : Z) (p1 p2 : point) (j : nat) : point :=
  let t := (inject_Z (Z.of_nat j) / inject_Z points_per_segment)%Q in
  (p1.1 + (p2.1 - p1.1) * t, p1.2 + (p2.2 - p1.2) * t)%Q.

(** The points one turn of the outer loop appends, for the waypoints
    [i] and [i + 1]. *)
Definition segment_points (waypoints : list point) (points_per_segment : Z) (i : nat)
  : option (list point) :=
  p1 ← waypoints !! i;
  p2 ← waypoints !! (i + 1);
  Some (map (interpolate points_per_segment p1 p2) (seq 0 (Z.to_nat points_per_segment))).

(** [interpolate_route]; [waypoints[-1]] raises on an empty list. *)
Definition interpolate_route (waypoints : list point) (points_per_segment : Z)
  : option (list point) :=
  segments ← mapM (segment_points waypoints points_per_segment)
                  (seq 0 (length waypoints - 1));
  last_waypoint ← last waypoints;
  Some (concat segments ++ [last_waypoint]).
End Demo.

(** Two points at the same place, whatever the fractions. *)
Definition same_point (p q : Demo.point) : Prop := (p.1 == q.1)%Q /\ (p.2 == q.2)%Q.

(** ** Streaming insertion in the words of the specification *)

(** A cluster: its damage type and its members in the order in which
    they joined.  The centroid is not stored: it is the mean of the
    positions of the members. *)
Record cluster := { cluster_type : string; members : list GroupDamages.detection }.

(** The cluster an event opens, and a cluster after an event joined. *)
Definition singleton_cluster (d : GroupDamages.detection) : cluster :=
  {| cluster_type := GroupDamages.get_class d; members := [d] |}.

Definition join (d : GroupDamages.detection) (c : cluster) : cluster :=
  {| cluster_type := cluster_type c; members := members c ++ [d] |}.

Section StreamingNotions.
(** The distance of two positions and the cluster radius. *)
Variable dist : Q -> Q -> Q -> Q -> Q.
Variable radius : Q.

(** The distance from an event to the centroid of a cluster. *)
Definition distance_to (d : GroupDamages.detection) (c : cluster) : Q :=
  dist (member_lat d) (member_lon d)
       (GroupDamages.lat (centroid (members c))) (GroupDamages.lon (centroid (members c))).

(** An event qualifies for a cluster of its type whose centroid lies
    within the radius. *)
Definition qualifies (d : GroupDamages.detection) (c : cluster) : bool :=
  String.eqb (cluster_type c) (GroupDamages.get_class d)
  && Qle_bool (distance_to d c) radius.

(** First-fit insertion: the event joins the first cluster, in the order
    of creation, for which it qualifies; if there is none it opens a
    cluster of its own, the last in that order. *)
Fixpoint insert_first_fit (d : GroupDamages.detection) (cs : list cluster) : list cluster :=
  match cs with
  | [] => [singleton_cluster d]
  | c :: cs' => if qualifies d c then join d c :: cs' else c :: insert_first_fit d cs'
  end.

(** Nearest insertion, as the specification describes it: of the
    clusters for which the event qualifies, the index and distance of
    one with the least distance (the earliest of them) ... *)
Definition nearest_qualifying (d : GroupDamages.detection) (cs : list cluster)
  : option (nat * Q) :=
  fold_left
    (fun best ic =>
       if qualifies d ic.2 then
         match best with
         | Some b => if Qltb (distance_to d ic.2) b.2
                     then Some (ic.1, distance_to d ic.2) else best
         | None => Some (ic.1, distance_to d ic.2)
         end
       else best)
    (enumerate_from 0 cs) None.

(** ... which the event joins; without one it opens a cluster. *)
Definition insert_nearest (d : GroupDamages.detection) (cs : list cluster) : list cluster :=
  match nearest_qualifying d cs with
  | Some b => alter (join d) b.1 cs
  | None => cs ++ [singleton_cluster d]
  end.

(** Streaming: the events are inserted one at a time, starting without
    a cluster. *)
Definition stream (insert : GroupDamages.detection -> list cluster -> list cluster)
           (events : list GroupDamages.detection) : list cluster :=
  fold_left (fun cs d => insert d cs) events [].
End StreamingNotions.

(** The cluster a group of the code stands for. *)
Definition cluster_of (g : GroupDamages.group) : cluster :=
  {| cluster_type := GroupDamages.damage_type g; members := GroupDamages.detections g |}.

(** A distance depends on the four numbers, not on the fractions that
    denote them. *)
Definition distance_respects_Qeq (dist : Q -> Q -> Q -> Q -> Q) : Prop :=
  forall a b c d a' b' c' d',
    (a == a')%Q -> (b == b')%Q -> (c == c')%Q -> (d == d')%Q ->
    (dist a b c d == dist a' b' c' d')%Q.

(** ** A route read as legs *)

(** A leg of a route: a surface detection, the route point at which the
    segmenter reaches it, and the route points that follow up to the
    next leg. *)
Record leg := {
  leg_surface : UpdateGithubPages.surface;
  leg_start : UpdateGithubPages.coord;
  leg_rest : list UpdateGithubPages.coord
}.

Definition leg_coords (l : leg) : list UpdateGithubPages.coord := leg_start l :: leg_rest l.

(** The segment of a leg: its points, under the label and the confidence
    of its detection. *)
Definition leg_segment (l : leg) : UpdateGithubPages.segment :=
  {| UpdateGithubPages.coordinates := leg_coords l;
     UpdateGithubPages.seg_surface_type := UpdateGithubPages.surface_type (leg_surface l);
     UpdateGithubPages.seg_confidence := UpdateGithubPages.confidence (leg_surface l) |}.

Section LegNotions.
Variable dist : Q * Q -> Q * Q -> Q.

(** The route point [[lon, lat]] lies within 5 m of the detection. *)
Definition reaches (c : UpdateGithubPages.coord) (s : UpdateGithubPages.surface) : bool :=
  UpdateGithubPages.near (Some dist) c.2 c.1 s.

(** The route passes the detections one after the other: the points
    [before] a leg stay out of reach of its detection, the leg starts
    with a point that reaches it, and so on for the points after the
    start and the next leg. *)
Fixpoint separated (before : list UpdateGithubPages.coord) (legs : list leg) : Prop :=
  match legs with
  | [] => True
  | l :: legs' =>
      Forall (fun c => reaches c (leg_surface l) = false) before
      /\ reaches (leg_start l) (leg_surface l) = true
      /\ separated (leg_rest l) legs'
  end.
End LegNotions.

(** What the end of [segment_by_surface] makes of the state of its loop. *)
Definition close_segments (st : UpdateGithubPages.loop_state)
  : list UpdateGithubPages.segment :=
  match UpdateGithubPages.coordinates (UpdateGithubPages.current_segment st) with
  | [] => UpdateGithubPages.segments st
  | _ => UpdateGithubPages.segments st ++ [UpdateGithubPages.current_segment st]
  end.

(** * Properties *)

(** ** Comparisons of floats *)

Lemma Qgeb_mono (c1 c2 t : Q) : (c1 <= c2)%Q -> Qgeb c1 t = true -> Qgeb c2 t = true.
Proof.
  unfold Qgeb. rewrite !Qle_bool_iff. intros H12 Ht.
  eapply Qle_trans; eassumption.
Qed.

Lemma Qgtb_mono (c1 c2 t : Q) : (c1 <= c2)%Q -> Qgtb c1 t = true -> Qgtb c2 t = true.
Proof.
  unfold Qgtb. rewrite !negb_true_iff. intros H12 Ht.
  destruct (Qle_bool c2 t) eqn:E; [|done].
  apply Qle_bool_iff in E.
  assert (Qle_bool c1 t = true) as Hc; [|congruence].
  apply Qle_bool_iff. eapply Qle_trans; eassumption.
Qed.

(** ** Orders on timestamps and modification times *)

Lemma string_compare_lt_trans (s1 s2 s3 : string) :
  String.compare s1 s2 = Lt -> String.compare s2 s3 = Lt -> String.compare s1 s3 = Lt.
Proof.
  revert s2 s3. induction s1 as [|a s1 IH]; intros [|b s2] [|c s3]; simpl; try done.
  destruct (Ascii.compare a b) eqn:Eab; try done.
  - apply Ascii.compare_eq_iff in Eab as ->.
    destruct (Ascii.compare b c); try done. apply IH.
  - intros _. destruct (Ascii.compare b c) eqn:Ebc; try done.
    + apply Ascii.compare_eq_iff in Ebc as <-. by rewrite Eab.
    + intros _. unfold Ascii.compare in *.
      rewrite N.compare_lt_iff in Eab, Ebc.
      assert (N_of_ascii a < N_of_ascii c)%N as H by (etrans; eassumption).
      apply N.compare_lt_iff in H. by rewrite H.
Qed.

Lemma string_leb_trans (s1 s2 s3 : string) :
  String.leb s1 s2 = true -> String.leb s2 s3 = true -> String.leb s1 s3 = true.
Proof.
  unfold String.leb.
  destruct (String.compare s1 s2) eqn:E12; try done; intros _.
  - apply String.compare_eq_iff in E12 as ->. done.
  - destruct (String.compare s2 s3) eqn:E23; try done; intros _.
    + apply String.compare_eq_iff in E23 as <-. by rewrite E12.
    + by rewrite (string_compare_lt_trans _ _ _ E12 E23).
Qed.

Lemma Qle_bool_total (a b : Q) : Qle_bool a b = true \/ Qle_bool b a = true.
Proof.
  rewrite !Qle_bool_iff. destruct (Qlt_le_dec a b) as [H|H]; [left|right]; [|done].
  by apply Qlt_le_weak.
Qed.

Lemma Qle_bool_trans (a b c : Q) :
  Qle_bool a b = true -> Qle_bool b c = true -> Qle_bool a c = true.
Proof. rewrite !Qle_bool_iff. apply Qle_trans. Qed.

(** ** Python's stable sort *)

Section PySortedFacts.
Context {A K : Type} (leb : K -> K -> bool) (key : A -> K).
Hypothesis leb_total : forall a b, leb a b = true \/ leb b a = true.
Hypothesis leb_trans : forall a b c, leb a b = true -> leb b c = true -> leb a c = true.

Local Abbreviation key_le := (key_le leb key).
Local Abbreviation insert_by := (insert_by leb key).
Local Abbreviation py_sorted := (py_sorted leb key).

Lemma insert_by_Permutation x l : insert_by x l ≡ₚ x :: l.
Proof.
  induction l as [|y l IH]; simpl; [done|].
  destruct (leb (key x) (key y)); [done|].
  rewrite IH. apply Permutation_swap.
Qed.

Lemma py_sorted_Permutation l : py_sorted l ≡ₚ l.
Proof.
  induction l as [|x l IH]; simpl; [done|].
  by rewrite insert_by_Permutation, IH.
Qed.

Lemma insert_by_below x l :
  Forall (key_le x) l -> insert_by x l = x :: l.
Proof.
  destruct 1 as [|y l Hy _]; simpl; [done|].
  unfold key_le in Hy. by rewrite Hy.
Qed.

Lemma insert_by_StronglySorted x l :
  StronglySorted key_le l -> StronglySorted key_le (insert_by x l).
Proof.
  induction 1 as [|y l Hl IH Hy]; simpl.
  - repeat constructor.
  - destruct (leb (key x) (key y)) eqn:E.
    + constructor; [by constructor|].
      constructor; [done|].
      eapply Forall_impl; [exact Hy|]. intros z Hz. unfold key_le in *. eauto.
    + constructor; [done|].
      rewrite insert_by_Permutation. constructor; [|done].
      unfold key_le. destruct (leb_total (key x) (key y)); congruence.
Qed.

Lemma py_sorted_StronglySorted l : StronglySorted key_le (py_sorted l).
Proof.
  induction l; simpl; [constructor|]. by apply insert_by_StronglySorted.
Qed.

(** Sorting a sorted list changes nothing. *)
Lemma py_sorted_id l : StronglySorted key_le l -> py_sorted l = l.
Proof.
  induction 1 as [|x l Hl IH Hx]; simpl; [done|].
  rewrite IH. by apply insert_by_below.
Qed.

(** Stability: elements whose keys are equivalent keep their order. *)
Lemma insert_by_filter_tied (P : A -> Prop) `{!forall x, Decision (P x)} x l :
  (forall y, P y -> key_le x y) ->
  filter P (insert_by x l) = filter P (x :: l).
Proof.
  intros HP. induction l as [|y l IH]; simpl; [done|].
  destruct (leb (key x) (key y)) eqn:E; [done|].
  rewrite filter_cons, IH, !filter_cons.
  destruct (decide (P y)) as [Hy|Hy]; [|done].
  apply HP in Hy. unfold key_le in Hy. congruence.
Qed.

Lemma insert_by_filter_out (P : A -> Prop) `{!forall x, Decision (P x)} x l :
  ~ P x -> filter P (insert_by x l) = filter P l.
Proof.
  intros Hx. induction l as [|y l IH]; simpl.
  - by rewrite filter_cons, decide_False.
  - destruct (leb (key x) (key y)).
    + by rewrite filter_cons, decide_False.
    + by rewrite !filter_cons, IH.
Qed.

Lemma py_sorted_stable (P : A -> Prop) `{!forall x, Decision (P x)} l :
  (forall x y, P x -> P y -> key_le x y) ->
  filter P (py_sorted l) = filter P l.
Proof.
  intros HP. induction l as [|x l IH]; simpl; [done|].
  destruct (decide (P x)) as [Hx|Hx].
  - rewrite insert_by_filter_tied by eauto.
    by rewrite !filter_cons, IH.
  - rewrite insert_by_filter_out by done.
    by rewrite IH, filter_cons, decide_False.
Qed.

(** Sorting commutes with dropping elements. *)
Lemma insert_by_filter_in (P : A -> Prop) `{!forall x, Decision (P x)} x l :
  StronglySorted key_le l -> P x ->
  filter P (insert_by x l) = insert_by x (filter P l).
Proof.
  intros Hs Hx. induction Hs as [|y l Hl IH Hy]; simpl.
  - by rewrite filter_cons, decide_True.
  - destruct (leb (key x) (key y)) eqn:E.
    + assert (Forall (key_le x) (y :: l)) as Hall.
      { constructor; [done|]. eapply Forall_impl; [exact Hy|].
        intros z Hz. unfold key_le in *. eauto. }
      rewrite filter_cons, decide_True by done.
      symmetry. apply insert_by_below.
      apply Forall_forall. intros z Hz.
      apply list_elem_of_filter in Hz as [_ Hz].
      rewrite Forall_forall in Hall. by apply Hall.
    + rewrite filter_cons, IH, (filter_cons _ y).
      destruct (decide (P y)); [|done]. simpl. by rewrite E.
Qed.

Lemma py_sorted_filter (P : A -> Prop) `{!forall x, Decision (P x)} l :
  py_sorted (filter P l) = filter P (py_sorted l).
Proof.
  induction l as [|x l IH]; simpl; [done|].
  rewrite filter_cons. destruct (decide (P x)) as [Hx|Hx]; simpl.
  - rewrite insert_by_filter_in by (done || apply py_sorted_StronglySorted).
    by rewrite IH.
  - by rewrite insert_by_filter_out.
Qed.

(** Two arrival orders of elements with distinct keys sort to one list. *)
Lemma py_sorted_unique l1 l2 :
  (forall a b, leb a b = true -> leb b a = true -> a = b) ->
  l1 ≡ₚ l2 -> NoDup (map key l1) -> py_sorted l1 = py_sorted l2.
Proof.
  intros Hanti Hperm Hnd.
  apply (StronglySorted_unique_strong key_le);
    [|apply py_sorted_StronglySorted|apply py_sorted_StronglySorted
     |by rewrite !py_sorted_Permutation].
  intros x1 x2 H1 H2 H12 H21.
  rewrite py_sorted_Permutation in H1.
  rewrite py_sorted_Permutation, <- Hperm in H2.
  assert (key x1 = key x2) as Hk by (by apply Hanti).
  clear -H1 H2 Hk Hnd.
  induction l1 as [|y l1 IH]; [by apply elem_of_nil in H1|].
  apply NoDup_cons in Hnd as [Hy Hnd].
  apply elem_of_cons in H1 as [->|H1], H2 as [->|H2]; [done| | |by apply IH].
  - exfalso. apply Hy. rewrite Hk. by apply (list_elem_of_fmap_2 key).
  - exfalso. apply Hy. rewrite <- Hk. by apply (list_elem_of_fmap_2 key).
Qed.
End PySortedFacts.

(** ** Severity classifiers *)

Section Severity.
Import GroupDamages AutoLiveSystem.

Lemma severity_of_mono (ty : string) (count : nat) (c1 c2 : Q) :
  (c1 <= c2)%Q ->
  severity_rank (severity_of ty c1 count) <= severity_rank (severity_of ty c2 count).
Proof.
  intros H. unfold severity_of.
  destruct (String.eqb (lower ty) "pothole").
  - destruct (Qgtb c1 0.8) eqn:E1.
    + rewrite (Qgtb_mono _ _ _ H E1). done.
    + simpl. destruct (Qgtb _ 0.7); [by destruct (Qgtb c2 0.8)|].
      rewrite orb_false_r.
      destruct (Qgtb c1 0.6) eqn:E2.
      * rewrite (Qgtb_mono _ _ _ H E2). destruct (Qgtb c2 0.8); simpl; lia.
      * destruct (Qgtb c2 0.8), (Qgtb c2 0.6); simpl; lia.
  - destruct (String.eqb (lower ty) "crack"); [|done].
    destruct (Qgtb c1 0.75) eqn:E1.
    + rewrite (Qgtb_mono _ _ _ H E1). done.
    + simpl. destruct (Qgtb c2 0.75 && _); simpl; lia.
Qed.

Lemma calculate_severity_mono (rules : gmap string thresholds) (ty : string) (c1 c2 : Q) :
  (c1 <= c2)%Q ->
  severity_rank (calculate_severity rules ty c1)
  <= severity_rank (calculate_severity rules ty c2).
Proof.
  intros H. unfold calculate_severity.
  set (th := match rules !! ty with Some t => t | None => _ end).
  destruct (Qgeb c1 (default _ (high_threshold th))) eqn:E1.
  - rewrite (Qgeb_mono _ _ _ H E1). done.
  - destruct (Qgeb c1 (default _ (medium_threshold th))) eqn:E2.
    + rewrite (Qgeb_mono _ _ _ H E2). destruct (Qgeb c2 _); simpl; lia.
    + simpl. lia.
Qed.

(** C8.  For a fixed damage type and a fixed number of members the
    severity does not decrease when the confidence grows, with
    low < medium < high: for two groups of one type and one image count,
    [_calculate_severity] is monotone in the best confidence, and for one
    type and one rule table [calculate_severity] is monotone in the
    confidence. *)
Theorem severity_monotone_in_confidence
        (g1 g2 : grouped) (rules : gmap string thresholds) (ty : string) (c1 c2 : Q) :
  damage_type (base g1) = damage_type (base g2) ->
  image_count g1 = image_count g2 ->
  (best_confidence g1 <= best_confidence g2)%Q ->
  (c1 <= c2)%Q ->
  severity_rank (_calculate_severity g1) <= severity_rank (_calculate_severity g2)
  /\ severity_rank (calculate_severity rules ty c1)
     <= severity_rank (calculate_severity rules ty c2).
Proof.
  intros Hty Hn Hb Hc. split.
  - unfold _calculate_severity. rewrite Hty, Hn. by apply severity_of_mono.
  - by apply calculate_severity_mono.
Qed.

Lemma severity_monotone_in_confidence_witness :
  severity_rank (_calculate_severity (sample_group "pothole" 0.5 1))
  <= severity_rank (_calculate_severity (sample_group "pothole" 0.7 1))
  /\ severity_rank (calculate_severity sample_rules "pothole" 0.5)
     <= severity_rank (calculate_severity sample_rules "pothole" 0.9).
Proof.
  apply (severity_monotone_in_confidence
           (sample_group "pothole" 0.5 1) (sample_group "pothole" 0.7 1)
           sample_rules "pothole" 0.5 0.9); try reflexivity.
  - simpl. unfold Qle. simpl. lia.
  - unfold Qle. simpl. lia.
Defined.

(** C6, as stated, fails on the classifier of groups: a type without a
    rule of its own is always 'low' there, also at confidence 0.9 where
    the default rule says 'high'. *)
Lemma default_rule_not_used_for_groups :
  let g := sample_group "manhole" 0.9 1 in
  lower (damage_type (base g)) <> "pothole"%string
  /\ lower (damage_type (base g)) <> "crack"%string
  /\ default_rule (best_confidence g) = high
  /\ _calculate_severity g = low
  /\ _calculate_severity g <> default_rule (best_confidence g).
Proof. vm_compute. repeat split; discriminate. Qed.

(** C6, amended.  The default rule (high from 0.85, medium from 0.70,
    low below) is what [calculate_severity] applies to the confidence of
    a detection whose type has no entry in the rule table; the classifier
    of groups, [_calculate_severity], returns 'low' for every type other
    than pothole and crack, whatever the best confidence. *)
Theorem severity_without_table_entry
        (rules : gmap string thresholds) (ty : string) (c : Q) (g : grouped) :
  rules !! ty = None ->
  lower (damage_type (base g)) <> "pothole"%string ->
  lower (damage_type (base g)) <> "crack"%string ->
  calculate_severity rules ty c = default_rule c
  /\ _calculate_severity g = low.
Proof.
  intros Hr Hp Hc. split.
  - unfold calculate_severity, default_rule. by rewrite Hr.
  - unfold _calculate_severity, severity_of.
    apply String.eqb_neq in Hp, Hc. by rewrite Hp, Hc.
Qed.

Lemma severity_without_table_entry_witness :
  calculate_severity sample_rules "manhole" 0.9 = default_rule 0.9
  /\ _calculate_severity (sample_group "manhole" 0.9 1) = low.
Proof.
  apply (severity_without_table_entry sample_rules "manhole" 0.9
           (sample_group "manhole" 0.9 1)).
  - vm_compute. reflexivity.
  - vm_compute. discriminate.
  - vm_compute. discriminate.
Defined.
End Severity.

(** ** Damage grouping *)

Section Grouping.
Import GroupDamages.

Lemma truthy_Some (o : option Q) : truthy o = true -> exists q, o = Some q /\ ~ (q == 0)%Q.
Proof.
  destruct o as [q|]; simpl; [|done]. intros H. exists q. split; [done|].
  intros Hq. apply Qeq_bool_iff in Hq. rewrite Hq in H. done.
Qed.

Lemma valid_position_gps (d : detection) :
  valid_position d = true ->
  exists la lo, gps_latitude d = Some la /\ gps_longitude d = Some lo
                /\ ~ (la == 0)%Q /\ ~ (lo == 0)%Q.
Proof.
  unfold valid_position, get_gps, gps_latitude, gps_longitude.
  intros [H1 H2]%andb_true_iff.
  apply truthy_Some in H1 as (la & H1 & Hla), H2 as (lo & H2 & Hlo).
  exists la, lo. destruct (gps d) as [g|]; simpl in *; [done|done].
Qed.

Lemma valid_position_has_gps (d : detection) : valid_position d = true -> has_gps d = true.
Proof.
  intros (la & lo & H1 & H2 & _)%valid_position_gps.
  unfold has_gps, gps_latitude in *. destruct (gps d) as [g|]; simpl in *; [|done].
  rewrite H1. done.
Qed.

Lemma mapM_gps_latitude (ds : list detection) :
  Forall (fun d => valid_position d = true) ds ->
  mapM gps_latitude ds = Some (map member_lat ds).
Proof.
  intros H. apply mapM_Some. induction H as [|d ds Hd _ IH]; simpl; constructor; [|done].
  apply valid_position_gps in Hd as (la & lo & H1 & _).
  unfold member_lat. by rewrite H1.
Qed.

Lemma mapM_gps_longitude (ds : list detection) :
  Forall (fun d => valid_position d = true) ds ->
  mapM gps_longitude ds = Some (map member_lon ds).
Proof.
  intros H. apply mapM_Some. induction H as [|d ds Hd _ IH]; simpl; constructor; [|done].
  apply valid_position_gps in Hd as (la & lo & _ & H2 & _).
  unfold member_lon. by rewrite H2.
Qed.

Lemma filter_has_gps (ds : list detection) :
  Forall (fun d => valid_position d = true) ds ->
  filter (fun d => has_gps d = true) ds = ds.
Proof.
  induction 1 as [|d ds Hd _ IH]; [done|].
  rewrite filter_cons, decide_True by by apply valid_position_has_gps.
  by rewrite IH.
Qed.

(** The centre of a group with members is the mean of their positions. *)
Lemma _update_group_center_ok (g : group) :
  group_ok g -> _update_group_center g = Some (set_center g (centroid (detections g))).
Proof.
  intros [Hall Hne]. unfold _update_group_center.
  rewrite filter_has_gps by done.
  rewrite mapM_gps_latitude, mapM_gps_longitude by done. simpl.
  destruct (detections g) as [|d ds] eqn:E; [done|]. simpl.
  reflexivity.
Qed.

Lemma StronglySorted_sublist {A} (R : relation A) (l1 l2 : list A) :
  l1 `sublist_of` l2 -> StronglySorted R l2 -> StronglySorted R l1.
Proof.
  induction 1 as [|x l1 l2 Hsub IH|x l1 l2 Hsub IH]; intros Hs.
  - constructor.
  - apply StronglySorted_inv in Hs as [Hs Hx]. constructor; [by apply IH|].
    apply Forall_forall. intros y Hy. rewrite Forall_forall in Hx.
    apply Hx. eapply elem_of_sublist; eassumption.
  - apply StronglySorted_inv in Hs as [Hs Hx]. by apply IH.
Qed.

Section GrouperFacts.
Variable calculate_distance : Q -> Q -> Q -> Q -> Q.
Variable max_distance : Q.

Local Abbreviation fits := (fits calculate_distance max_distance).
Local Abbreviation scan_groups := (scan_groups calculate_distance max_distance).
Local Abbreviation process_detection := (process_detection calculate_distance max_distance).
Local Abbreviation process_all := (process_all calculate_distance max_distance).
Local Abbreviation group_detections := (group_detections calculate_distance max_distance).

Lemma attach_ok (g : group) (d : detection) :
  group_ok g -> valid_position d = true ->
  _update_group_center (set_detections g (detections g ++ [d])) = Some (attach g d)
  /\ group_ok (attach g d).
Proof.
  intros [Hall Hne] Hd.
  assert (group_ok (set_detections g (detections g ++ [d]))) as Hok.
  { split; simpl.
    - apply Forall_app. split; [done|]. by constructor.
    - by destruct (detections g). }
  split; [by rewrite _update_group_center_ok|].
  exact Hok.
Qed.

(** No group fits: the scan leaves the groups as they are. *)
Lemma scan_groups_none la lo ty d (groups : list group) :
  Forall (fun g => fits la lo ty g = false) groups ->
  scan_groups la lo ty d groups = Some (false, groups).
Proof.
  induction 1 as [|g groups Hg _ IH]; simpl; [done|].
  by rewrite Hg, IH.
Qed.

(** Some group fits: the scan stops at the first one. *)
Lemma scan_groups_first la lo ty d (pre post : list group) (g : group) :
  Forall (fun g' => fits la lo ty g' = false) pre ->
  fits la lo ty g = true ->
  group_ok g -> valid_position d = true ->
  scan_groups la lo ty d (pre ++ g :: post) = Some (true, pre ++ attach g d :: post).
Proof.
  intros Hpre Hg Hok Hd.
  induction Hpre as [|g' pre Hg' _ IH]; simpl.
  - rewrite Hg. by destruct (attach_ok g d Hok Hd) as [-> _].
  - by rewrite Hg', IH.
Qed.

(** Every list of groups splits at its first fitting group, if any. *)
Lemma first_fit_split la lo ty (groups : list group) :
  Forall (fun g => fits la lo ty g = false) groups
  \/ exists pre g post,
      groups = pre ++ g :: post
      /\ Forall (fun g' => fits la lo ty g' = false) pre
      /\ fits la lo ty g = true.
Proof.
  induction groups as [|g groups IH]; [by left|].
  destruct (fits la lo ty g) eqn:Hg.
  - right. exists [], g, groups. by repeat split.
  - destruct IH as [IH|(pre & g' & post & -> & Hpre & Hg')].
    + left. by constructor.
    + right. exists (g :: pre), g', post. repeat split; [|done]. by constructor.
Qed.

Lemma process_detection_skip (groups : list group) (d : detection) :
  valid_position d = false -> process_detection groups d = Some groups.
Proof.
  unfold valid_position, process_detection. intros H.
  apply andb_false_iff in H.
  destruct (truthy (latitude (get_gps d))), (truthy (longitude (get_gps d)));
    simpl; try done; by destruct H.
Qed.

Lemma process_detection_valid (groups : list group) (d : detection) :
  valid_position d = true ->
  exists la lo,
    gps_latitude d = Some la /\ gps_longitude d = Some lo /\
    process_detection groups d =
      '(found_group, groups') ← scan_groups la lo (get_class d) d groups;
      if (found_group : bool) then Some groups'
      else Some (groups ++ [new_group (length groups) la lo (get_class d) d]).
Proof.
  intros H. pose proof H as (la & lo & H1 & H2 & _)%valid_position_gps.
  exists la, lo. split; [done|]. split; [done|].
  unfold process_detection. unfold valid_position in H.
  apply andb_true_iff in H as [-> ->]. simpl.
  unfold gps_latitude, gps_longitude, get_gps in *.
  destruct (gps d) as [g|]; simpl in *; [|done].
  by rewrite H1, H2.
Qed.

(** The groups stay well formed. *)
Lemma process_detection_ok (groups : list group) (d : detection) :
  Forall group_ok groups ->
  exists groups', process_detection groups d = Some groups' /\ Forall group_ok groups'.
Proof.
  intros Hok. destruct (valid_position d) eqn:Hd.
  - destruct (process_detection_valid groups d Hd) as (la & lo & H1 & H2 & ->).
    destruct (first_fit_split la lo (get_class d) groups)
      as [Hnone|(pre & g & post & -> & Hpre & Hg)].
    + rewrite scan_groups_none by done. simpl. eexists. split; [done|].
      apply Forall_app. split; [done|]. constructor; [|done].
      split; simpl; [|done]. by constructor.
    + apply Forall_app in Hok as [Hok1 Hok2].
      apply Forall_cons in Hok2 as [Hg_ok Hok2].
      rewrite scan_groups_first by done. simpl. eexists. split; [done|].
      apply Forall_app. split; [done|]. constructor; [|done].
      by apply attach_ok.
  - rewrite process_detection_skip by done. by eexists.
Qed.

Lemma process_all_ok (ds : list detection) (groups : list group) :
  Forall group_ok groups ->
  exists groups', process_all groups ds = Some groups' /\ Forall group_ok groups'.
Proof.
  revert groups. induction ds as [|d ds IH]; intros groups Hok; simpl.
  - by eexists.
  - destruct (process_detection_ok groups d Hok) as (groups1 & -> & Hok1). simpl.
    by apply IH.
Qed.

Local Abbreviation sorted_by_time := (py_sorted String.leb get_timestamp).

Lemma add_statistics_ok (g : group) :
  detections g <> [] ->
  exists s, add_statistics g = Some s
            /\ base s = set_detections g (sorted_by_time (detections g)).
Proof.
  intros Hne. unfold add_statistics.
  pose proof (py_sorted_Permutation String.leb get_timestamp (detections g)) as Hp.
  destruct (sorted_by_time (detections g)) as [|d ds] eqn:E.
  - apply Permutation_nil in Hp. done.
  - simpl. eexists. split; [done|]. done.
Qed.

Lemma set_detections_id (g : group) : set_detections g (detections g) = g.
Proof. by destruct g. Qed.

(** The statistics of well-formed groups are defined. *)
Lemma mapM_add_statistics_ok (groups : list group) :
  Forall group_ok groups ->
  exists ss, mapM add_statistics groups = Some ss
             /\ Forall2 (fun g s => base s = set_detections g (sorted_by_time (detections g)))
                        groups ss.
Proof.
  induction 1 as [|g groups [_ Hg] _ (ss & IH & Hss)]; simpl.
  - by eexists.
  - destruct (add_statistics_ok g Hg) as (s & -> & Hs). simpl.
    rewrite IH. simpl. eexists. split; [done|]. by constructor.
Qed.

Lemma group_detections_unfold (dets : list detection) :
  group_detections dets
  = process_all [] (sorted_by_time dets) ≫= mapM add_statistics.
Proof. by destruct dets. Qed.

(** With a distance that returns, [group_detections] returns. *)
Lemma group_detections_ok (dets : list detection) :
  exists groups ss,
    process_all [] (sorted_by_time dets) = Some groups
    /\ Forall group_ok groups
    /\ group_detections dets = Some ss
    /\ Forall2 (fun g s => base s = set_detections g (sorted_by_time (detections g)))
               groups ss.
Proof.
  rewrite group_detections_unfold.
  destruct (process_all_ok (sorted_by_time dets) []) as (groups & Hg & Hok); [done|].
  destruct (mapM_add_statistics_ok groups Hok) as (ss & Hss & Hbase).
  exists groups, ss. rewrite Hg. simpl. done.
Qed.

(** Detections without a position change nothing. *)
Lemma process_all_filter (ds : list detection) (groups : list group) :
  process_all groups (filter (fun d => valid_position d = true) ds)
  = process_all groups ds.
Proof.
  revert groups. induction ds as [|d ds IH]; intros groups; [done|].
  rewrite filter_cons. destruct (decide (valid_position d = true)) as [Hd|Hd]; simpl.
  - destruct (process_detection groups d); simpl; [apply IH|done].
  - rewrite process_detection_skip by (by destruct (valid_position d)).
    simpl. apply IH.
Qed.

Lemma group_detections_filter (dets : list detection) :
  group_detections (filter (fun d => valid_position d = true) dets)
  = group_detections dets.
Proof.
  rewrite !group_detections_unfold.
  rewrite (py_sorted_filter _ _ String.leb_total string_leb_trans).
  by rewrite process_all_filter.
Qed.

(** The members of a group arrived in the order of the input. *)
Lemma process_detection_sublist (seen : list detection) (groups groups' : list group)
      (d : detection) :
  Forall group_ok groups ->
  Forall (fun g => detections g `sublist_of` seen) groups ->
  process_detection groups d = Some groups' ->
  Forall (fun g => detections g `sublist_of` seen ++ [d]) groups'.
Proof.
  intros Hok Hsub.
  assert (Forall (fun g => detections g `sublist_of` seen ++ [d]) groups) as Hsub'.
  { eapply Forall_impl; [exact Hsub|]. intros g Hg. by apply sublist_inserts_r. }
  destruct (valid_position d) eqn:Hd.
  - destruct (process_detection_valid groups d Hd) as (la & lo & H1 & H2 & ->).
    destruct (first_fit_split la lo (get_class d) groups)
      as [Hnone|(pre & g & post & -> & Hpre & Hg)].
    + rewrite scan_groups_none by done. simpl. intros [= <-].
      apply Forall_app. split; [done|]. constructor; [|done]. simpl.
      by apply sublist_inserts_l.
    + apply Forall_app in Hok as [Hok1 Hok2].
      apply Forall_cons in Hok2 as [Hg_ok Hok2].
      rewrite scan_groups_first by done. simpl. intros [= <-].
      apply Forall_app in Hsub as [Hs1 Hs2].
      apply Forall_cons in Hs2 as [Hgs Hs2].
      apply Forall_app in Hsub' as [Hs1' Hs2'].
      apply Forall_cons in Hs2' as [_ Hs2'].
      apply Forall_app. split; [done|]. constructor; [|done]. simpl.
      by apply sublist_app.
  - rewrite process_detection_skip by done. by intros [= <-].
Qed.

Lemma process_all_sublist (ds seen : list detection) (groups groups' : list group) :
  Forall group_ok groups ->
  Forall (fun g => detections g `sublist_of` seen) groups ->
  process_all groups ds = Some groups' ->
  Forall (fun g => detections g `sublist_of` seen ++ ds) groups'.
Proof.
  revert seen groups. induction ds as [|d ds IH]; intros seen groups Hok Hsub; simpl.
  - intros [= <-]. by rewrite app_nil_r.
  - destruct (process_detection_ok groups d Hok) as (groups1 & Hg1 & Hok1).
    rewrite Hg1. simpl. intros Hrest.
    replace (seen ++ d :: ds) with ((seen ++ [d]) ++ ds) by (by rewrite <- app_assoc).
    eapply IH; [exact Hok1| |exact Hrest].
    eapply process_detection_sublist; [exact Hok|exact Hsub|exact Hg1].
Qed.
End GrouperFacts.

End Grouping.

Section GroupingClaims.
Import GroupDamages.
Variable calculate_distance : Q -> Q -> Q -> Q -> Q.
Variable max_distance : Q.

Local Abbreviation fits := (fits calculate_distance max_distance).
Local Abbreviation process_detection := (process_detection calculate_distance max_distance).
Local Abbreviation process_all := (process_all calculate_distance max_distance).
Local Abbreviation group_detections := (group_detections calculate_distance max_distance).
Local Abbreviation sorted_by_time := (py_sorted String.leb get_timestamp).

(** C1, amended.  A detection with a position joins the first group, in
    the order of creation, that has its type and whose centre lies within
    [max_distance], and the centre of that group becomes the mean of its
    members; the groups before and after it are left as they are, also
    when one of them is nearer.  If no group fits, a new group with this
    detection alone is appended, numbered after the groups so far. *)
Theorem process_detection_first_fit (groups : list group) (d : detection) (la lo : Q) :
  Forall group_ok groups ->
  valid_position d = true ->
  gps_latitude d = Some la ->
  gps_longitude d = Some lo ->
  (forall pre g post,
      groups = pre ++ g :: post ->
      Forall (fun g' => fits la lo (get_class d) g' = false) pre ->
      fits la lo (get_class d) g = true ->
      process_detection groups d = Some (pre ++ attach g d :: post))
  /\ (Forall (fun g => fits la lo (get_class d) g = false) groups ->
      process_detection groups d
      = Some (groups ++ [new_group (length groups) la lo (get_class d) d])).
Proof.
  intros Hok Hd Hla Hlo.
  destruct (process_detection_valid calculate_distance max_distance groups d Hd)
    as (la' & lo' & Hla' & Hlo' & Heq).
  assert (la' = la) as -> by congruence.
  assert (lo' = lo) as -> by congruence.
  split.
  - intros pre g post -> Hpre Hg.
    apply Forall_app in Hok as [_ Hok]. apply Forall_cons in Hok as [Hg_ok _].
    rewrite Heq, scan_groups_first by done. done.
  - intros Hnone. rewrite Heq, scan_groups_none by done. done.
Qed.

(** C10.  A detection whose latitude or longitude is absent or equal to 0
    is skipped without an error: [group_detections] returns groups, none
    of which contains the detection, and the result is the same as without
    it, wherever it stands in the input. *)
Theorem detections_without_position_are_skipped (dets : list detection) (d : detection) :
  gps_latitude d = None \/ gps_longitude d = None
  \/ (exists q, gps_latitude d = Some q /\ (q == 0)%Q)
  \/ (exists q, gps_longitude d = Some q /\ (q == 0)%Q) ->
  (exists groups,
      group_detections dets = Some groups
      /\ forall g, g ∈ groups -> d ∉ detections (base g))
  /\ (forall pre post,
        dets = pre ++ post ->
        group_detections (pre ++ d :: post) = group_detections dets).
Proof.
  intros Hd.
  assert (valid_position d = false) as Hinv.
  { unfold valid_position, get_gps, gps_latitude, gps_longitude in *.
    apply andb_false_iff.
    destruct (gps d) as [g|]; simpl in *; [|by left].
    destruct Hd as [->|[->|[(q & -> & Hq)|(q & -> & Hq)]]]; simpl.
    - by left.
    - by right.
    - left. apply Qeq_bool_iff in Hq. by rewrite Hq.
    - right. apply Qeq_bool_iff in Hq. by rewrite Hq. }
  split.
  - destruct (group_detections_ok calculate_distance max_distance dets)
      as (groups & ss & _ & Hok & Hss & Hbase).
    exists ss. split; [done|]. intros s Hs Hin.
    apply list_elem_of_lookup in Hs as [i Hi].
    destruct (Forall2_lookup_r _ _ _ _ _ Hbase Hi) as (g & Hg & Hb).
    rewrite Hb in Hin. simpl in Hin.
    rewrite py_sorted_Permutation in Hin.
    apply (Forall_lookup_1 _ _ _ _ Hok) in Hg as [Hall _].
    rewrite Forall_forall in Hall. apply Hall in Hin. congruence.
  - intros pre post ->.
    rewrite <- (group_detections_filter _ _ (pre ++ d :: post)).
    rewrite <- (group_detections_filter _ _ (pre ++ post)).
    rewrite !filter_app, filter_cons, decide_False by congruence. done.
Qed.

End GroupingClaims.

(** ** The damage grouper on the sample potholes *)

Section GroupingExamples.
Import GroupDamages.

(** C1, as stated, fails: the third pothole fits both groups and the second
    group is the nearer one (0.6 m against 0.9 m), yet the detection joins
    the first group, the first that fits; the second group stays as it
    was. *)
Lemma first_fit_is_not_nearest :
  (map (fun g => detections (base g))
     <$> group_detections meridian_distance 1 [pothole1; pothole2; pothole3])
  = Some [[pothole1; pothole3]; [pothole2]]
  /\ process_all meridian_distance 1 [] [pothole1; pothole2] = Some [group1; group2]
  /\ fits meridian_distance 1 50.0000081 8 "pothole" group1 = true
  /\ fits meridian_distance 1 50.0000081 8 "pothole" group2 = true
  /\ nearest_fit meridian_distance 1 50.0000081 8 "pothole" [group1; group2] = Some group2
  /\ process_detection meridian_distance 1 [group1; group2] pothole3
     = Some [attach group1 pothole3; group2]
  /\ attach group1 pothole3 <> group1.
Proof. vm_compute. repeat split; discriminate. Qed.

Lemma sample_groups_ok : Forall group_ok [group1; group2].
Proof. repeat constructor; discriminate. Defined.

Lemma process_detection_first_fit_witness :
  process_detection meridian_distance 1 [group1; group2] pothole3
  = Some [attach group1 pothole3; group2].
Proof.
  apply (proj1 (process_detection_first_fit meridian_distance 1
                  [group1; group2] pothole3 50.0000081 8
                  sample_groups_ok eq_refl eq_refl eq_refl) [] group1 [group2]).
  - reflexivity.
  - constructor.
  - vm_compute. reflexivity.
Defined.

Lemma detections_without_position_are_skipped_witness :
  group_detections meridian_distance 1 ([pothole1] ++ pothole_equator :: [pothole2])
  = group_detections meridian_distance 1 [pothole1; pothole2].
Proof.
  apply (proj2 (detections_without_position_are_skipped meridian_distance 1
                  [pothole1; pothole2] pothole_equator
                  (or_intror (or_intror (or_introl
                     (ex_intro _ 0%Q (conj eq_refl (Qeq_refl 0)))))))
               [pothole1] [pothole2]).
  reflexivity.
Defined.

End GroupingExamples.

(** ** Surface smoothing *)

(** ** [max] with a key *)
Section PyMaxBy.
Context {A : Type} (k : A -> nat).

Lemma fold_max_by_spec (l : list A) (x0 : A) :
  let m := fold_left (fun cur y => if (k cur <? k y)%nat then y else cur) l x0 in
  (m = x0 \/ m ∈ l) /\ k x0 <= k m /\ Forall (fun y => k y <= k m) l.
Proof.
  revert x0. induction l as [|y l IH]; intros x0; simpl.
  - repeat split; [by left|done|done].
  - destruct (IH (if (k x0 <? k y)%nat then y else x0)) as (Hin & Hle & Hall).
    destruct (Nat.ltb_spec (k x0) (k y)) as [Hlt|Hge].
    + repeat split.
      * right. destruct Hin as [->|Hin]; [left|by right].
      * lia.
      * by constructor.
    + repeat split.
      * destruct Hin as [->|Hin]; [by left|right; by right].
      * done.
      * constructor; [lia|done].
Qed.

Lemma py_max_by_Some (l : list A) : l <> [] -> is_Some (py_max_by k l).
Proof. by destruct l. Qed.

Lemma py_max_by_elem_of (l : list A) (x : A) : py_max_by k l = Some x -> x ∈ l.
Proof.
  destruct l as [|x0 l]; simpl; [done|]. intros [= <-].
  destruct (fold_max_by_spec l x0) as ([->|Hin] & _); [left|by right].
Qed.

Lemma py_max_by_max (l : list A) (x y : A) :
  py_max_by k l = Some x -> y ∈ l -> k y <= k x.
Proof.
  destruct l as [|x0 l]; simpl; [done|]. intros [= <-].
  destruct (fold_max_by_spec l x0) as (_ & H0 & Hall).
  intros [->|Hy]%elem_of_cons; [done|].
  rewrite Forall_forall in Hall. by apply Hall.
Qed.
End PyMaxBy.

Section SmootherFacts.
Import AutoLiveSystem.
Variable set_order : list string -> list string.
Hypothesis set_order_spec : set_order_ok set_order.

Lemma majority_vote_spec (buf : list (string * Q)) :
  buf <> [] ->
  exists t c,
    majority_vote set_order buf = Some (t, c)
    /\ py_max_by (count (map fst buf)) (set_order (map fst buf)) = Some t
    /\ t ∈ map fst buf
    /\ (forall u, u ∈ map fst buf -> count (map fst buf) u <= count (map fst buf) t)
    /\ mean (map snd (filter (fun s => s.1 = t) buf)) = Some c.
Proof.
  intros Hne. unfold majority_vote.
  set (types := map fst buf).
  destruct (set_order_spec types) as [_ Hset].
  assert (set_order types <> []) as Hne'.
  { destruct buf as [|[t0 c0] buf]; [done|].
    assert (t0 ∈ set_order types) as Hin by (apply Hset; left).
    intros E. rewrite E in Hin. by apply elem_of_nil in Hin. }
  destruct (py_max_by_Some (count types) _ Hne') as [t Ht].
  rewrite Ht. simpl.
  assert (t ∈ types) as Htin by (by apply Hset, (py_max_by_elem_of (count types))).
  assert (exists c, mean (map snd (filter (fun s => s.1 = t) buf)) = Some c) as [c Hc].
  { unfold mean, py_div. rewrite length_map.
    apply (list_elem_of_fmap_1 fst) in Htin as ([t' c'] & -> & Hin).
    assert ((t', c') ∈ filter (fun s : string * Q => s.1 = (t', c').1) buf) as Hf
        by (by apply list_elem_of_filter).
    destruct (filter _ buf); [by apply elem_of_nil in Hf|]. simpl. by eexists. }
  exists t, c. rewrite Hc. simpl. repeat split; try done.
  intros u Hu. apply (py_max_by_max (count types) _ _ _ Ht). by apply Hset.
Qed.
End SmootherFacts.

Section SmootherClaims.
Import AutoLiveSystem.

Lemma remove_dups_set_order : set_order_ok remove_dups.
Proof.
  intros l. split; [apply NoDup_remove_dups|].
  intros x. apply elem_of_remove_dups.
Defined.

Lemma reverse_remove_dups_set_order : set_order_ok (fun l => reverse (remove_dups l)).
Proof.
  intros l. split.
  - rewrite reverse_Permutation. apply NoDup_remove_dups.
  - intros x. rewrite elem_of_reverse. apply elem_of_remove_dups.
Qed.

(** C4, as stated, fails: with one sample of each of two labels in the
    window, the vote is the label that Python's set yields first.  Under
    one order of iteration it is the later label, not the earliest; under
    another it is the earlier one, so two runs on the same samples
    differ. *)
Lemma vote_tie_follows_set_order :
  let window := [("asphalt_good", 0.9%Q); ("gravel", 0.8%Q)]%string in
  earliest_majority (map fst window) = Some "asphalt_good"%string
  /\ process_surface (fun l => reverse (remove_dups l)) true 3
       [("asphalt_good", 0.9%Q)]%string ("gravel", 0.8%Q)%string
     = Some (window, ("gravel", 0.8%Q)%string)
  /\ process_surface remove_dups true 3
       [("asphalt_good", 0.9%Q)]%string ("gravel", 0.8%Q)%string
     = Some (window, ("asphalt_good", 0.9%Q)%string).
Proof. vm_compute. repeat split. Qed.

(** C4, amended.  With smoothing enabled and at least two samples in the
    window, the recorded label is a label of the window with the highest
    count, namely the first such label in the iteration order of the set
    of window labels; when one label has a strictly higher count than
    every other, it is that label whatever the order.  With smoothing
    disabled or fewer than two samples the raw sample is recorded.  The
    call never raises. *)
Theorem smoothed_label_has_highest_count
        (set_order : list string -> list string) (smoothing : bool) (maxlen : nat)
        (surface_buffer : list (string * Q)) (sample : string * Q) :
  set_order_ok set_order ->
  let window := deque_append maxlen surface_buffer sample in
  let types := map fst window in
  exists out,
    process_surface set_order smoothing maxlen surface_buffer sample = Some (window, out)
    /\ (smoothing = true -> 2 <= length window ->
        py_max_by (count types) (set_order types) = Some out.1
        /\ out.1 ∈ types
        /\ (forall u, u ∈ types -> count types u <= count types out.1)
        /\ (forall t, t ∈ types ->
                      (forall u, u ∈ types -> u <> t -> count types u < count types t) ->
                      out.1 = t))
    /\ (smoothing = false \/ length window < 2 -> out = sample).
Proof.
  intros Hset window types. unfold process_surface. fold window.
  destruct smoothing.
  - rewrite andb_true_l. destruct (2 <=? length window)%nat eqn:E.
    + apply Nat.leb_le in E.
      assert (window <> []) as Hne
        by (intros E'; rewrite E' in E; simpl in E; lia).
      destruct (majority_vote_spec set_order Hset window Hne)
        as (t & c & -> & Hmax & Hin & Hle & _).
      simpl. exists (t, c). split; [done|]. split.
      * intros _ _. simpl. repeat split; try done.
        intros t' Ht' Hstrict. destruct (decide (t = t')) as [|Hne']; [done|].
        specialize (Hle t' Ht'). specialize (Hstrict t Hin Hne'). fold types in Hle. lia.
      * intros [?|?]; [done|lia].
    + apply Nat.leb_gt in E.
      exists sample. split; [done|]. split; [lia|done].
  - rewrite andb_false_l.
    exists sample. split; [done|]. split; [done|done].
Qed.

Lemma smoothed_label_has_highest_count_witness :
  exists out,
    process_surface remove_dups true 3
      [("asphalt_good", 0.9%Q); ("gravel", 0.7%Q)]%string ("gravel", 0.8%Q)%string
    = Some ([("asphalt_good", 0.9%Q); ("gravel", 0.7%Q); ("gravel", 0.8%Q)]%string, out)
    /\ out.1 = "gravel"%string.
Proof.
  destruct (smoothed_label_has_highest_count remove_dups true 3
              [("asphalt_good", 0.9%Q); ("gravel", 0.7%Q)]%string
              ("gravel", 0.8%Q)%string remove_dups_set_order)
    as (out & Hout & Hvote & _).
  exists out. split; [exact Hout|].
  destruct (Hvote eq_refl) as (_ & _ & _ & Hunique).
  - simpl. lia.
  - apply Hunique.
    + apply (bool_decide_unpack _). vm_compute. reflexivity.
    + intros u Hu Hne. apply list_elem_of_In in Hu. simpl in Hu.
      destruct Hu as [<-|[<-|[<-|[]]]]; try done; vm_compute; lia.
Defined.
End SmootherClaims.

(** ** Route segmentation *)

Section SegmenterFacts.
Import UpdateGithubPages.
Variable geodesic : option (Q * Q -> Q * Q -> Q).

Local Abbreviation near := (near geodesic).
Local Abbreviation passes_next := (passes_next geodesic).
Local Abbreviation loop_body := (loop_body geodesic).
Local Abbreviation segment_by_surface := (segment_by_surface geodesic).

Lemma passes_next_Some (surfaces : list surface) (idx : nat) (c : coord) (s : surface) :
  passes_next surfaces idx c = Some s
  <-> surfaces !! (idx + 1)%nat = Some s /\ near c.2 c.1 s = true.
Proof.
  unfold passes_next. split.
  - destruct (Z.of_nat idx <? Z.of_nat (length surfaces) - 1)%Z; [|done].
    destruct (surfaces !! (idx + 1)%nat) as [s'|]; [|done].
    destruct (near c.2 c.1 s') eqn:E; [|done]. by intros [= <-].
  - intros [Hs Hn].
    pose proof (lookup_lt_Some _ _ _ Hs) as Hlt.
    destruct (Z.ltb_spec (Z.of_nat idx) (Z.of_nat (length surfaces) - 1)); [|lia].
    by rewrite Hs, Hn.
Qed.

Lemma loop_body_coords (surfaces : list surface) (st : loop_state) (c : coord) :
  state_coords (loop_body surfaces st c) = state_coords st ++ [c].
Proof.
  unfold loop_body, state_coords.
  destruct (passes_next surfaces (surface_idx st) c) as [s|]; simpl.
  - destruct (coordinates (current_segment st)) as [|c0 cs] eqn:E; simpl.
    + by rewrite app_nil_r.
    + rewrite map_app, concat_app. simpl. rewrite E, app_nil_r. done.
  - by rewrite app_assoc.
Qed.

Lemma fold_loop_body_coords (surfaces : list surface) (coords : list coord)
      (st : loop_state) :
  state_coords (fold_left (loop_body surfaces) coords st) = state_coords st ++ coords.
Proof.
  revert st. induction coords as [|c coords IH]; intros st; simpl.
  - by rewrite app_nil_r.
  - rewrite IH, loop_body_coords, <- app_assoc. done.
Qed.

(** C3, amended.  The segments partition the route: concatenating their
    coordinate lists, as they are, gives back the route, no point dropped,
    repeated or reordered.  Adjacent segments share no boundary point. *)
Theorem segments_partition_route (coords : list coord) (surfaces : list surface) :
  concat (map coordinates (segment_by_surface coords surfaces)) = coords.
Proof.
  unfold segment_by_surface. destruct surfaces as [|s0 surfaces]; simpl.
  - by rewrite app_nil_r.
  - match goal with |- context [fold_left ?f coords ?st0] =>
      pose proof (fold_loop_body_coords (s0 :: surfaces) coords st0) as H;
      destruct (fold_left f coords st0) as [segs cur idx]
    end.
    unfold state_coords in H. simpl in *.
    destruct (coordinates cur) as [|c cs] eqn:E.
    + by rewrite app_nil_r in H.
    + rewrite map_app, concat_app. simpl. by rewrite E, app_nil_r.
Qed.

(** One step of the loop, read off the surface list: the labels play no
    part in the decision. *)
Lemma loop_body_cases (surfaces : list surface) (st : loop_state) (c : coord) :
  (exists s,
      surfaces !! (surface_idx st + 1)%nat = Some s
      /\ near c.2 c.1 s = true
      /\ loop_body surfaces st c
         = {| segments :=
                match coordinates (current_segment st) with
                | [] => segments st
                | _ => segments st ++ [current_segment st]
                end;
              current_segment :=
                {| coordinates := [c];
                   seg_surface_type := surface_type s;
                   seg_confidence := confidence s |};
              surface_idx := surface_idx st + 1 |})
  \/ ((forall s, surfaces !! (surface_idx st + 1)%nat = Some s -> near c.2 c.1 s = false)
      /\ loop_body surfaces st c
         = {| segments := segments st;
              current_segment := append_coord (current_segment st) c;
              surface_idx := surface_idx st |}).
Proof.
  unfold loop_body.
  destruct (passes_next surfaces (surface_idx st) c) as [s|] eqn:E.
  - left. exists s. apply passes_next_Some in E as [Hs Hn]. done.
  - right. split; [|done]. intros s Hs.
    destruct (near c.2 c.1 s) eqn:Hn; [|done].
    assert (passes_next surfaces (surface_idx st) c = Some s) as E'
        by (by apply passes_next_Some).
    congruence.
Qed.

Lemma loop_body_labels (surfaces : list surface) (st : loop_state) (c : coord) :
  labels_inv surfaces st ->
  labels_inv surfaces (loop_body surfaces st c)
  /\ coordinates (current_segment (loop_body surfaces st c)) <> [].
Proof.
  intros (k & Hk & Hk1 & Hsegs & Hcur & Hempty & Hne).
  destruct (loop_body_cases surfaces st c) as [(s & Hs & _ & ->)|[_ ->]]; simpl.
  - split; [|done].
    assert (map surface_label surfaces !! (surface_idx st + 1)%nat = Some (surface_label s))
      as Hs' by (by rewrite list_lookup_fmap, Hs).
    destruct (coordinates (current_segment st)) as [|c0 cs] eqn:E.
    + rewrite (Hempty eq_refl) in *. exists 1. simpl.
      repeat split; try done.
      destruct (segments st) as [|? ?]; [|by rewrite take_0, drop_nil in Hsegs].
      simpl. destruct (map surface_label surfaces); done.
    + exists k. simpl. repeat split; try done; [lia| |].
      * rewrite map_app, Hsegs. simpl.
        replace (surface_idx st + 1)%nat with (S (surface_idx st)) by lia.
        rewrite (take_S_r _ _ _ Hcur).
        rewrite drop_app_le by (rewrite length_take; apply lookup_lt_Some in Hcur; lia).
        done.
      * apply Forall_app. split; [done|]. constructor; [|done]. by rewrite E.
  - split; [|by destruct (coordinates (current_segment st))].
    exists k. simpl. repeat split; try done.
    by destruct (coordinates (current_segment st)).
Qed.

Lemma fold_loop_body_labels (surfaces : list surface) (coords : list coord)
      (st : loop_state) :
  labels_inv surfaces st ->
  labels_inv surfaces (fold_left (loop_body surfaces) coords st).
Proof.
  revert st. induction coords as [|c coords IH]; intros st Hst; simpl; [done|].
  apply IH. by apply loop_body_labels.
Qed.

Lemma segment_by_surface_labels (coords : list coord) (surfaces : list surface) :
  surfaces <> [] ->
  exists k n,
    k <= 1
    /\ map segment_label (segment_by_surface coords surfaces)
       = drop k (take n (map surface_label surfaces))
    /\ Forall (fun s => coordinates s <> []) (segment_by_surface coords surfaces).
Proof.
  intros Hne. unfold segment_by_surface.
  destruct surfaces as [|s0 surfaces]; [done|].
  match goal with |- context [fold_left ?f coords ?st0] =>
    pose proof (fold_loop_body_labels (s0 :: surfaces) coords st0) as H;
    destruct (fold_left f coords st0) as [segs cur idx]
  end.
  destruct H as (k & Hk & Hk1 & Hsegs & Hcur & Hempty & Hall).
  { exists 0. simpl. split_and!; (done || lia). }
  cbn [segments current_segment surface_idx] in *.
  destruct (coordinates cur) as [|c cs] eqn:E.
  - exists k, idx. done.
  - exists k, (S idx). split; [done|]. split.
    + rewrite (take_S_r _ _ _ Hcur).
      rewrite drop_app_le by (rewrite length_take; apply lookup_lt_Some in Hcur; lia).
      by rewrite map_app, Hsegs.
    + apply Forall_app. split; [done|]. constructor; [|done]. by rewrite E.
Qed.

End SegmenterFacts.

(** ** The segmenter on the sample route *)

Section SegmenterExamples.
Import UpdateGithubPages.

(** C3, as stated, fails: the two segments of the sample route have no
    point in common, and reading the route off them with a shared boundary
    point loses the second point. *)
Lemma adjacent_segments_share_no_point :
  let segs := segment_by_surface (Some meridian_geodesic) sample_route surfaces_changing in
  map coordinates segs = [[route_point 50]; [route_point 50.0001]]
  /\ (exists s1 s2,
         segs = [s1; s2] /\ last (coordinates s1) <> head (coordinates s2))
  /\ join_shared segs <> sample_route.
Proof.
  vm_compute. split; [reflexivity|]. split; [|discriminate].
  eexists _, _. split; [reflexivity|]. discriminate.
Qed.

End SegmenterExamples.

(** ** Backup rotation *)

Section Backups.
Import EdgeMain.

Local Abbreviation sorted_by_mtime :=
  (py_sorted Qle_bool (fun p : string * file => st_mtime p.2)).

Lemma substring_append_skip (a b : string) (m : nat) :
  String.substring (String.length a) m (a ++ b) = String.substring 0 m b.
Proof. induction a as [|c a IH]; simpl; [done|]. exact IH. Qed.

Lemma substring_all (s : string) : String.substring 0 (String.length s) s = s.
Proof. induction s as [|c s IH]; simpl; [done|]. by rewrite IH. Qed.

Lemma substring_append_take (a b : string) :
  String.substring 0 (String.length a) (a ++ b) = a.
Proof. induction a as [|c a IH]; simpl; [by destruct b|]. by rewrite IH. Qed.

Lemma string_length_append (a b : string) :
  String.length (a ++ b) = String.length a + String.length b.
Proof. induction a as [|c a IH]; simpl; [done|]. by rewrite IH. Qed.

Lemma string_append_assoc (a b c : string) : (a ++ (b ++ c) = (a ++ b) ++ c)%string.
Proof.
  induction a as [|x a IH]; [done|].
  change (String x (a ++ (b ++ c)) = String x ((a ++ b) ++ c))%string.
  by rewrite IH.
Qed.

(** The name of a new backup file matches the pattern of [glob]. *)
Lemma backup_name_is_backup_name (c : clock) : is_backup_name (backup_name c) = true.
Proof.
  unfold is_backup_name, backup_name.
  rewrite !string_length_append. simpl String.length.
  apply andb_true_iff. split; [apply andb_true_iff; split|].
  - apply Nat.leb_le. lia.
  - apply String.eqb_eq. apply (substring_append_take "backup_").
  - replace (7 + (String.length (strftime c) + 8) - 8)
      with (String.length ("backup_" ++ strftime c)%string)
      by (rewrite string_length_append; simpl; lia).
    rewrite string_append_assoc.
    rewrite substring_append_skip.
    apply String.eqb_eq. apply (substring_all ".geojson").
Qed.

Lemma elem_of_glob (dir : gmap string file) (name : string) (f : file) :
  (name, f) ∈ glob dir <-> dir !! name = Some f /\ is_backup_name name = true.
Proof.
  unfold glob. rewrite list_elem_of_filter, elem_of_map_to_list. simpl. tauto.
Qed.

Lemma NoDup_glob_names (dir : gmap string file) : NoDup (glob dir).*1.
Proof.
  unfold glob. eapply sublist_NoDup; [apply (NoDup_fst_map_to_list dir)|].
  apply fmap_sublist, sublist_filter.
Qed.

(** Removing one backup file removes it from the listing. *)
Lemma glob_delete (dir : gmap string file) (name : string) (f : file) :
  (name, f) ∈ glob dir ->
  glob dir ≡ₚ (name, f) :: glob (delete name dir).
Proof.
  intros [Hf Hb]%elem_of_glob. unfold glob.
  rewrite <- (map_to_list_delete dir name f Hf), filter_cons.
  by rewrite decide_True.
Qed.

(** Unlinking listed files leaves the others. *)
Lemma glob_unlink_all (del keep : list (string * file)) (dir : gmap string file) :
  del ++ keep ≡ₚ glob dir -> glob (unlink_all del dir) ≡ₚ keep.
Proof.
  revert dir. induction del as [|[name f] del IH]; intros dir Hp; simpl.
  - done.
  - apply IH.
    assert ((name, f) ∈ glob dir) as Hin by (rewrite <- Hp; left).
    rewrite (glob_delete dir name f Hin) in Hp.
    by apply Permutation_cons_inv in Hp.
Qed.

(** A file that is not unlinked stays. *)
Lemma lookup_unlink_all (del : list (string * file)) (dir : gmap string file)
      (name : string) :
  name ∉ del.*1 -> unlink_all del dir !! name = dir !! name.
Proof.
  revert dir. induction del as [|[name' f'] del IH]; intros dir Hn; simpl; [done|].
  apply not_elem_of_cons in Hn as [Hne Hn].
  rewrite IH by done. by apply lookup_delete_ne.
Qed.

Lemma sorted_by_mtime_Permutation (dir : gmap string file) :
  sorted_by_mtime (glob dir) ≡ₚ glob dir.
Proof. apply py_sorted_Permutation. Qed.

Lemma sorted_by_mtime_sorted (dir : gmap string file) :
  StronglySorted mtime_le (sorted_by_mtime (glob dir)).
Proof. apply py_sorted_StronglySorted; [apply Qle_bool_total|apply Qle_bool_trans]. Qed.

(** What [cleanup_old_backups] leaves of the backup files: the listing
    sorted by modification time, without the files of the slice. *)
Lemma glob_cleanup_old_backups (max_files : Z) (dir : gmap string file) :
  let backup_files := sorted_by_mtime (glob dir) in
  let n := Z.of_nat (length backup_files) in
  glob (cleanup_old_backups max_files dir)
  ≡ₚ if (n >? max_files)%Z
      then drop (length (slice_to (- max_files) backup_files)) backup_files
      else backup_files.
Proof.
  intros backup_files n. unfold cleanup_old_backups. fold backup_files. fold n.
  destruct (n >? max_files)%Z.
  - apply glob_unlink_all.
    unfold slice_to. rewrite length_take_le.
    + rewrite take_drop. apply sorted_by_mtime_Permutation.
    + destruct (Z.ltb_spec (- max_files) 0); lia.
  - symmetry. apply sorted_by_mtime_Permutation.
Qed.

(** With a limit of zero nothing is unlinked. *)
Lemma cleanup_old_backups_zero (dir : gmap string file) :
  cleanup_old_backups 0 dir = dir.
Proof.
  unfold cleanup_old_backups.
  destruct (_ >? 0)%Z; [|done].
  unfold slice_to. simpl. by rewrite Z.min_l, take_0 by lia.
Qed.

(** With a limit of at least one, at most that many backup files stay. *)
Lemma cleanup_old_backups_count (max_files : Z) (dir : gmap string file) :
  (1 <= max_files)%Z ->
  (Z.of_nat (length (glob (cleanup_old_backups max_files dir))) <= max_files)%Z.
Proof.
  intros Hmax. rewrite glob_cleanup_old_backups.
  destruct (Z.gtb_spec (Z.of_nat (length (sorted_by_mtime (glob dir)))) max_files)
    as [Hgt|Hle]; [|done].
  rewrite length_drop. unfold slice_to.
  rewrite length_take_le by (destruct (Z.ltb_spec (- max_files) 0); lia).
  destruct (Z.ltb_spec (- max_files) 0); lia.
Qed.

(** With a limit of at least one, the newest backup file stays. *)
Lemma cleanup_old_backups_newest (max_files : Z) (dir : gmap string file)
      (name : string) (f : file) :
  (1 <= max_files)%Z ->
  dir !! name = Some f ->
  is_backup_name name = true ->
  (forall name' f', dir !! name' = Some f' -> is_backup_name name' = true ->
                    name' <> name -> (st_mtime f' < st_mtime f)%Q) ->
  cleanup_old_backups max_files dir !! name = Some f.
Proof.
  intros Hmax Hf Hb Hnew.
  unfold cleanup_old_backups.
  set (backup_files := sorted_by_mtime (glob dir)).
  destruct (Z.gtb_spec (Z.of_nat (length backup_files)) max_files) as [Hgt|Hle]; [|done].
  rewrite lookup_unlink_all; [done|].
  assert ((name, f) ∈ backup_files) as Hin.
  { unfold backup_files. rewrite sorted_by_mtime_Permutation. by apply elem_of_glob. }
  apply list_elem_of_split in Hin as (l1 & l2 & Hsplit).
  assert (NoDup backup_files.*1) as Hnd.
  { unfold backup_files. rewrite sorted_by_mtime_Permutation. apply NoDup_glob_names. }
  assert (l2 = []) as ->.
  { destruct l2 as [|[name' f'] l2]; [done|]. exfalso.
    pose proof (sorted_by_mtime_sorted dir) as Hs. fold backup_files in Hs.
    rewrite Hsplit in Hs, Hnd.
    apply StronglySorted_app in Hs as (_ & _ & Hs). apply StronglySorted_inv in Hs as [_ Hs].
    apply Forall_cons in Hs as [Hle _].
    unfold mtime_le, key_le in Hle. simpl in Hle. apply Qle_bool_iff in Hle.
    assert ((name', f') ∈ glob dir) as Hin'.
    { rewrite <- sorted_by_mtime_Permutation. fold backup_files. rewrite Hsplit.
      apply elem_of_app. right. right. left. }
    apply elem_of_glob in Hin' as [Hf' Hb'].
    assert (name' <> name) as Hne.
    { rewrite fmap_app, fmap_cons in Hnd. apply NoDup_app in Hnd as (_ & _ & Hnd).
      apply NoDup_cons in Hnd as [Hnd _]. intros ->. apply Hnd. simpl. left. }
    specialize (Hnew name' f' Hf' Hb' Hne).
    apply Qlt_not_le in Hnew. done. }
  unfold slice_to.
  rewrite Hsplit in Hnd, Hgt |- *.
  rewrite length_app in Hgt |- *. cbn [length] in Hgt |- *.
  destruct (Z.ltb_spec (- max_files) 0); [|lia].
  rewrite take_app_le by lia.
  rewrite fmap_app in Hnd. apply NoDup_app in Hnd as (_ & Hnd & _).
  intros Hin. apply (Hnd name).
  - eapply elem_of_sublist; [exact Hin|]. apply fmap_sublist, sublist_take.
  - simpl. left.
Qed.
End Backups.

(** ** Upload and local backup *)

Section Upload.
Import EdgeMain.

Lemma list_eqb_refl {A : Type} (eqb : A -> A -> bool) (l : list A) :
  (forall x, eqb x x = true) -> list_eqb eqb l l = true.
Proof.
  intros Hrefl. unfold list_eqb. rewrite Nat.eqb_refl. simpl.
  induction l as [|x l IH]; simpl; [done|]. by rewrite Hrefl, IH.
Qed.

Lemma det_eqb_refl (d : det) : det_eqb d d = true.
Proof.
  unfold det_eqb. rewrite String.eqb_refl, Qeq_bool_refl, list_eqb_refl; [done|].
  apply Qeq_bool_refl.
Qed.

Lemma record_eqb_refl (r : record) : record_eqb r r = true.
Proof.
  unfold record_eqb. rewrite !Qeq_bool_refl, list_eqb_refl; [done|].
  apply det_eqb_refl.
Qed.

Lemma py_in_elem_of (d : record) (data : list record) : d ∈ data -> py_in d data = true.
Proof.
  intros Hd. unfold py_in. apply existsb_exists. exists d.
  split; [by apply list_elem_of_In|apply record_eqb_refl].
Qed.

(** An accepted upload empties the buffer and caches the ride. *)
Lemma upload_accepted (max_files : Z) (c : clock) (ride : option string) (s : system) :
  session_data s <> [] ->
  upload_to_cloud max_files c (Accepted ride) s
  = {| session_data := []; ride_id := ride; backup_dir := backup_dir s;
       posted := posted s ++ [session_data s] |}.
Proof.
  intros Hne. unfold upload_to_cloud.
  destruct (session_data s) as [|r data] eqn:E; [done|]. simpl. f_equal.
  assert (forall l, l ⊆ r :: data ->
                    filter (fun d => py_in d (r :: data) = false) l = []) as Hall.
  { induction l as [|d l IH]; intros Hl; [done|].
    rewrite filter_cons, decide_False, IH; [done|set_solver|].
    rewrite py_in_elem_of; [done|]. apply Hl. left. }
  by apply Hall.
Qed.

Lemma upload_failed (max_files : Z) (c : clock) (resp : response) (s : system) :
  session_data s <> [] ->
  (forall ride, resp <> Accepted ride) ->
  upload_to_cloud max_files c resp s
  = {| session_data := session_data s; ride_id := ride_id s;
       backup_dir :=
         cleanup_old_backups max_files
           (<[backup_name c :=
                {| content := convert_to_geojson (isoformat c) (session_data s);
                   st_mtime := now c |}]> (backup_dir s));
       posted := posted s ++ [session_data s] |}.
Proof.
  intros Hne Hresp. unfold upload_to_cloud, save_local_backup.
  destruct (session_data s) as [|r data] eqn:E; [done|].
  destruct resp as [ride| | |]; [by destruct (Hresp ride)|done..].
Qed.

(** C2, as stated, fails: after a refused connection the ten records are
    in one backup file, but they are still in the buffer as well, and the
    next upload posts all ten again. *)
Lemma failed_upload_keeps_the_buffer :
  let s1 := upload_to_cloud 5 clock1 ConnectionError system0 in
  let s2 := upload_to_cloud 5 clock2 (Accepted (Some "ride-1"%string)) s1 in
  length (session_data system0) = 10
  /\ (exists f,
         backup_dir s1 !! backup_name clock1 = Some f
         /\ features (content f) = map to_feature ten_records)
  /\ session_data s1 = ten_records
  /\ session_data s1 <> []
  /\ posted s2 = [ten_records; ten_records].
Proof.
  vm_compute. split; [reflexivity|]. split; [|done].
  eexists. split; reflexivity.
Qed.

(** C2, amended.  When a delivery attempt on a non-empty buffer fails, the
    whole batch is posted once and written, one Point feature for each
    record, to the backup file named after the current time, after which
    the rotation runs; with a limit of at least one file the new file
    stays if it is newer than every other backup file.  The buffer keeps
    the batch, and the next delivery attempt posts it again. *)
Theorem failed_upload_is_backed_up_and_kept
        (max_files : Z) (c c' : clock) (resp resp' : response) (s : system) :
  session_data s <> [] ->
  (forall ride, resp <> Accepted ride) ->
  let s' := upload_to_cloud max_files c resp s in
  let backup := {| content := convert_to_geojson (isoformat c) (session_data s);
                   st_mtime := now c |} in
  posted s' = posted s ++ [session_data s]
  /\ backup_dir s'
     = cleanup_old_backups max_files (<[backup_name c := backup]> (backup_dir s))
  /\ features (content backup) = map to_feature (session_data s)
  /\ Forall (fun f => geometry_type f = "Point"%string) (features (content backup))
  /\ ((1 <= max_files)%Z ->
      (forall name f, backup_dir s !! name = Some f -> is_backup_name name = true ->
                      name <> backup_name c -> (st_mtime f < now c)%Q) ->
      backup_dir s' !! backup_name c = Some backup)
  /\ session_data s' = session_data s
  /\ posted (upload_to_cloud max_files c' resp' s') = posted s' ++ [session_data s].
Proof.
  intros Hne Hresp s' backup. subst s'.
  rewrite (upload_failed max_files c resp s Hne Hresp). simpl. fold backup.
  split_and!; try done.
  - apply Forall_forall. intros f (r & -> & _)%list_elem_of_fmap. done.
  - intros Hmax Hnew. apply cleanup_old_backups_newest; [done| | |].
    + apply lookup_insert_eq.
    + apply backup_name_is_backup_name.
    + intros name f Hf Hb Hname. rewrite lookup_insert_ne in Hf by done.
      simpl. by apply (Hnew name f).
  - unfold upload_to_cloud at 1. simpl.
    destruct (session_data s) as [|r data] eqn:E; [done|].
    by destruct resp'.
Qed.

Lemma connection_error_not_accepted (ride : option string) : ConnectionError <> Accepted ride.
Proof. discriminate. Defined.

Lemma failed_upload_is_backed_up_and_kept_witness :
  let s1 := upload_to_cloud 5 clock1 ConnectionError system0 in
  session_data s1 = ten_records
  /\ posted (upload_to_cloud 5 clock2 Timeout s1) = posted s1 ++ [ten_records].
Proof.
  pose proof (failed_upload_is_backed_up_and_kept 5 clock1 clock2 ConnectionError Timeout
                system0 ltac:(discriminate) connection_error_not_accepted) as H.
  simpl in H. destruct H as (_ & _ & _ & _ & _ & Hdata & Hposted).
  split; [exact Hdata|exact Hposted].
Defined.

(** C9.  With [max_backup_files] = 0 the rotation unlinks nothing, whatever
    the directory holds: after a failed upload the backup file just written
    is still there, one file where the limit is zero. *)
Theorem cleanup_with_limit_zero_unlinks_nothing :
  (forall dir, cleanup_old_backups 0 dir = dir)
  /\ let s1 := upload_to_cloud 0 clock1 ConnectionError system0 in
     length (glob (backup_dir s1)) = 1
     /\ is_Some (backup_dir s1 !! backup_name clock1).
Proof.
  split; [apply cleanup_old_backups_zero|].
  vm_compute. split; [reflexivity|]. by eexists.
Qed.
End Upload.

(** * Properties of the rest of the pipeline *)

(** ** Invariants of the damage grouper *)

Section GroupInvariants.
Import GroupDamages.
Variable calculate_distance : Q -> Q -> Q -> Q -> Q.
Variable max_distance : Q.

Local Abbreviation fits := (fits calculate_distance max_distance).
Local Abbreviation scan_groups := (scan_groups calculate_distance max_distance).
Local Abbreviation process_detection := (process_detection calculate_distance max_distance).
Local Abbreviation process_all := (process_all calculate_distance max_distance).
Local Abbreviation group_detections := (group_detections calculate_distance max_distance).
Local Abbreviation sorted_by_time := (py_sorted String.leb get_timestamp).

Lemma fits_damage_type la lo ty g : fits la lo ty g = true -> damage_type g = ty.
Proof.
  unfold GroupDamages.fits. intros [_ H]%andb_true_iff. by apply String.eqb_eq.
Qed.

Lemma attach_inv (g : group) (d : detection) :
  group_inv g -> valid_position d = true -> get_class d = damage_type g ->
  group_inv (attach g d).
Proof.
  intros (Hok & Hty & _ & Hcr) Hd Hc. split_and!.
  - by apply attach_ok.
  - simpl. apply Forall_app. split; [done|]. by constructor.
  - split; reflexivity.
  - simpl. destruct Hok as [_ Hne]. by destruct (detections g).
Qed.

Lemma new_group_inv (n : nat) (la lo : Q) (d : detection) :
  valid_position d = true ->
  gps_latitude d = Some la -> gps_longitude d = Some lo ->
  group_inv (new_group n la lo (get_class d) d).
Proof.
  intros Hd Hla Hlo. split_and!; simpl.
  - split; simpl; [by constructor|done].
  - by constructor.
  - unfold center_is_mean, centroid, member_lat, member_lon, py_sum. simpl.
    rewrite Hla, Hlo. simpl. split; field.
  - done.
Qed.

Lemma process_detection_inv (seen : list detection) (groups : list group) (d : detection) :
  groups_inv seen groups ->
  exists groups',
    process_detection groups d = Some groups' /\ groups_inv (seen ++ [d]) groups'.
Proof.
  intros (Hinv & Hids & Hperm).
  assert (Forall group_ok groups) as Hok.
  { eapply Forall_impl; [exact Hinv|]. by intros g [? _]. }
  destruct (valid_position d) eqn:Hd.
  - destruct (process_detection_valid calculate_distance max_distance groups d Hd)
      as (la & lo & Hla & Hlo & ->).
    destruct (first_fit_split calculate_distance max_distance la lo (get_class d) groups)
      as [Hnone|(pre & g & post & -> & Hpre & Hg)].
    + rewrite scan_groups_none by done. simpl. eexists. split; [done|]. split_and!.
      * apply Forall_app. split; [done|]. constructor; [|done]. by apply new_group_inv.
      * rewrite map_app, length_app, Hids. simpl.
        rewrite seq_app. simpl. do 2 f_equal. lia.
      * rewrite map_app, concat_app, filter_app, Hperm. simpl.
        rewrite filter_cons, decide_True by done. done.
    + apply Forall_app in Hok as [_ Hok2]. apply Forall_cons in Hok2 as [Hg_ok _].
      rewrite scan_groups_first by done. simpl. eexists. split; [done|].
      apply Forall_app in Hinv as [Hi1 Hi2]. apply Forall_cons in Hi2 as [Hgi Hi2].
      split_and!.
      * apply Forall_app. split; [done|]. constructor; [|done].
        apply attach_inv; [done..|]. symmetry. by eapply fits_damage_type.
      * rewrite !map_app, !length_app in *. simpl in *. done.
      * rewrite !map_app, !concat_app in *. simpl in *.
        rewrite filter_app, <- Hperm, filter_cons, decide_True by done. simpl.
        rewrite filter_nil, <- !app_assoc.
        apply Permutation_app_head, Permutation_app_head.
        apply Permutation_app_comm.
  - rewrite process_detection_skip by done. eexists. split; [done|]. split_and!; try done.
    rewrite filter_app, filter_cons, decide_False by congruence.
    by rewrite app_nil_r.
Qed.

Lemma process_all_inv (ds seen : list detection) (groups : list group) :
  groups_inv seen groups ->
  exists groups',
    process_all groups ds = Some groups' /\ groups_inv (seen ++ ds) groups'.
Proof.
  revert seen groups. induction ds as [|d ds IH]; intros seen groups Hinv; simpl.
  - exists groups. by rewrite app_nil_r.
  - destruct (process_detection_inv seen groups d Hinv) as (groups1 & -> & Hinv1). simpl.
    destruct (IH _ _ Hinv1) as (groups' & Hg & Hinv').
    exists groups'. split; [done|]. by rewrite <- app_assoc in Hinv'.
Qed.

(** The groups that [group_detections] returns are the groups of the main
    loop, statistics added. *)
Lemma group_detections_groups (dets : list detection) :
  exists groups ss,
    group_detections dets = Some ss
    /\ groups_inv (sorted_by_time dets) groups
    /\ Forall (fun g => StronglySorted ts_le (detections g)) groups
    /\ Forall2 (fun g s => add_statistics g = Some s /\ base s = g) groups ss.
Proof.
  destruct (process_all_inv (sorted_by_time dets) [] []) as (groups & Hg & Hinv).
  { split_and!; done. }
  simpl in Hinv.
  assert (Forall (fun g => StronglySorted ts_le (detections g)) groups) as Hsorted.
  { assert (Forall (fun g => detections g `sublist_of` sorted_by_time dets) groups) as Hsub.
    { apply (process_all_sublist calculate_distance max_distance
               (sorted_by_time dets) [] [] groups); done. }
    eapply Forall_impl; [exact Hsub|]. intros g Hsubg.
    eapply StronglySorted_sublist; [exact Hsubg|].
    apply py_sorted_StronglySorted; [apply String.leb_total|apply string_leb_trans]. }
  rewrite group_detections_unfold, Hg. simpl.
  exists groups. destruct Hinv as (Hinv & Hrest).
  assert (exists ss, mapM add_statistics groups = Some ss
                     /\ Forall2 (fun g s => add_statistics g = Some s /\ base s = g) groups ss)
    as (ss & Hss & Hbase).
  { clear Hg Hrest. induction groups as [|g groups IH]; simpl.
    - by eexists.
    - apply Forall_cons in Hinv as [((_ & Hne) & _) Hinv].
      apply Forall_cons in Hsorted as [Hs Hsorted].
      destruct (add_statistics_ok g Hne) as (s & Hs1 & Hs2).
      destruct (IH Hinv Hsorted) as (ss & -> & Hss).
      rewrite Hs1. simpl. eexists. split; [done|]. constructor; [|done].
      split; [done|]. rewrite Hs2, (py_sorted_id _ _ (detections g)) by done.
      apply set_detections_id. }
  exists ss. done.
Qed.

(** ** Statistics of a group *)

Lemma fold_py_max_spec (l : list Q) (x0 : Q) :
  let m := fold_left (fun cur y => if Qltb cur y then y else cur) l x0 in
  (m = x0 \/ m ∈ l) /\ (x0 <= m)%Q /\ Forall (fun y => (y <= m)%Q) l.
Proof.
  revert x0. induction l as [|y l IH]; intros x0; simpl.
  - split_and!; [by left|apply Qle_refl|done].
  - destruct (IH (if Qltb x0 y then y else x0)) as (Hin & Hle & Hall).
    unfold Qltb in *. destruct (Qle_bool y x0) eqn:E; simpl in *.
    + apply Qle_bool_iff in E. split_and!.
      * destruct Hin as [->|Hin]; [by left|right; by right].
      * done.
      * constructor; [|done]. by eapply Qle_trans.
    + assert (x0 <= y)%Q as Hxy.
      { destruct (Qlt_le_dec x0 y) as [H|H]; [by apply Qlt_le_weak|].
        apply Qle_bool_iff in H. congruence. }
      split_and!.
      * right. destruct Hin as [->|Hin]; [left|by right].
      * by eapply Qle_trans.
      * by constructor.
Qed.

Lemma py_max_spec (xs : list Q) (m : Q) :
  py_max xs = Some m -> m ∈ xs /\ Forall (fun x => (x <= m)%Q) xs.
Proof.
  destruct xs as [|x xs]; simpl; [done|]. intros [= <-].
  destruct (fold_py_max_spec xs x) as (Hin & Hle & Hall). split.
  - destruct Hin as [->|Hin]; [left|by right].
  - by constructor.
Qed.

Lemma ts_le_refl (d : detection) : ts_le d d.
Proof. unfold ts_le, key_le. by destruct (String.leb_total (get_timestamp d) (get_timestamp d)). Qed.

Lemma sorted_head_first (l : list detection) (d1 : detection) :
  StronglySorted ts_le l -> head l = Some d1 -> Forall (ts_le d1) l.
Proof.
  destruct 1 as [|x l Hl Hx]; simpl; [done|]. intros [= ->].
  constructor; [apply ts_le_refl|done].
Qed.

Lemma sorted_last_latest (l : list detection) (dn : detection) :
  StronglySorted ts_le l -> last l = Some dn -> Forall (fun d => ts_le d dn) l.
Proof.
  intros Hs Hl. apply last_Some in Hl as [l' ->].
  apply StronglySorted_app in Hs as (Hle & _ & _).
  apply Forall_app. split.
  - apply Forall_forall. intros d Hd. apply Hle; [done|left].
  - constructor; [apply ts_le_refl|done].
Qed.

(** What holds of the result of [group_detections], group by group. *)
Lemma group_detections_each (dets : list detection) :
  exists ss,
    group_detections dets = Some ss
    /\ Forall (fun s => group_inv (base s)
                        /\ StronglySorted ts_le (detections (base s))
                        /\ add_statistics (base s) = Some s) ss
    /\ map (fun s => group_id (base s)) ss = seq 1 (length ss)
    /\ concat (map (fun s => detections (base s)) ss)
       ≡ₚ filter (fun d => valid_position d = true) dets.
Proof.
  destruct (group_detections_groups dets) as (groups & ss & Hss & Hinv & Hsorted & Hbase).
  exists ss. split; [done|].
  assert (map base ss = groups) as Hgroups.
  { clear -Hbase. induction Hbase as [|g s groups ss [_ Hb] _ IH]; simpl; [done|].
    by rewrite Hb, IH. }
  destruct Hinv as (Hinv & Hids & Hperm). subst groups. split_and!.
  - clear -Hbase Hinv Hsorted.
    apply Forall_forall. intros s Hs.
    apply list_elem_of_lookup in Hs as [i Hi].
    destruct (Forall2_lookup_r _ _ _ _ _ Hbase Hi) as (g & Hg & Hadd & Hb).
    assert (g ∈ map base ss) as Hin by (by eapply list_elem_of_lookup_2).
    rewrite Forall_forall in Hinv, Hsorted.
    rewrite Hb. split_and!; [by apply Hinv|by apply Hsorted|done].
  - rewrite length_map in Hids. rewrite <- Hids. clear. by induction ss; simpl; [|f_equal].
  - transitivity (filter (fun d => valid_position d = true) (sorted_by_time dets));
      [|by rewrite py_sorted_Permutation].
    rewrite <- Hperm. clear. induction ss; simpl; [done|]. by f_equiv.
Qed.

(** X1. The groups [group_detections] returns carry the ids 1, 2, 3, ...
    in the order of the list: a group's id is its position in the
    result. *)
Theorem groups_are_numbered_in_creation_order
        (dets : list detection) (ss : list grouped) :
  group_detections dets = Some ss ->
  map (fun s => group_id (base s)) ss = seq 1 (length ss).
Proof.
  intros Hret.
  destruct (group_detections_each dets) as (ss' & Hss & _ & Hids & _).
  rewrite Hret in Hss. by injection Hss as <-.
Qed.

(** X2. The groups partition the detections with a usable position: the
    members of all groups together are a permutation of the input
    detections that pass the position test, so none of them is lost or
    counted twice, and no group is empty. *)
Theorem groups_partition_the_positioned_detections (dets : list detection) :
  exists ss,
    group_detections dets = Some ss
    /\ concat (map (fun s => detections (base s)) ss)
       ≡ₚ filter (fun d => valid_position d = true) dets
    /\ Forall (fun s => detections (base s) <> []) ss.
Proof.
  destruct (group_detections_each dets) as (ss & Hss & Heach & _ & Hperm).
  exists ss. split_and!; [done..|].
  eapply Forall_impl; [exact Heach|]. by intros s (((_ & Hne) & _) & _).
Qed.

(** X3. Every member of a group has the group's damage type (the class
    of its detection, 'unknown' when it has none). *)
Theorem group_members_have_the_type_of_the_group (dets : list detection) :
  exists ss,
    group_detections dets = Some ss
    /\ Forall (fun s => Forall (fun d => get_class d = damage_type (base s))
                               (detections (base s))) ss.
Proof.
  destruct (group_detections_each dets) as (ss & Hss & Heach & _).
  exists ss. split; [done|].
  eapply Forall_impl; [exact Heach|]. by intros s ((_ & Hty & _) & _).
Qed.

(** X4. The centre of every returned group is the arithmetic mean of the
    latitudes and longitudes of its members (centre times number of
    members equals the sum), and every member has both coordinates. *)
Theorem group_center_is_the_mean_of_its_members (dets : list detection) :
  exists ss,
    group_detections dets = Some ss
    /\ Forall (fun s =>
                 let members := detections (base s) in
                 let n := inject_Z (Z.of_nat (length members)) in
                 (lat (center (base s)) * n == py_sum (map member_lat members))%Q
                 /\ (lon (center (base s)) * n == py_sum (map member_lon members))%Q
                 /\ Forall (fun d => gps_latitude d = Some (member_lat d)
                                     /\ gps_longitude d = Some (member_lon d)) members) ss.
Proof.
  destruct (group_detections_each dets) as (ss & Hss & Heach & _).
  exists ss. split; [done|].
  eapply Forall_impl; [exact Heach|].
  intros s (((Hall & Hne) & _ & (Hlat & Hlon) & _) & _). simpl.
  assert (~ inject_Z (Z.of_nat (length (detections (base s)))) == 0)%Q as Hn.
  { destruct (detections (base s)); [done|]. simpl length.
    change 0%Q with (inject_Z 0). rewrite inject_Z_injective. lia. }
  split_and!.
  - rewrite Hlat. unfold centroid. simpl. by field.
  - rewrite Hlon. unfold centroid. simpl. by field.
  - eapply Forall_impl; [exact Hall|]. intros d Hd.
    apply valid_position_gps in Hd as (la & lo & H1 & H2 & _).
    unfold member_lat, member_lon. by rewrite H1, H2.
Qed.

(** X5. The statistics of every returned group: [image_count] is the
    number of members and at least 1; [best_confidence] is the confidence
    of some member and no member exceeds it; [avg_confidence] is the sum
    of the members' confidences divided by the count. *)
Theorem group_confidence_statistics (dets : list detection) :
  exists ss,
    group_detections dets = Some ss
    /\ Forall (fun s =>
                 let members := detections (base s) in
                 image_count s = length members
                 /\ 1 <= image_count s
                 /\ (exists d, d ∈ members /\ best_confidence s = get_confidence d)
                 /\ Forall (fun d => (get_confidence d <= best_confidence s)%Q) members
                 /\ (avg_confidence s
                     == py_sum (map get_confidence members)
                        / inject_Z (Z.of_nat (image_count s)))%Q) ss.
Proof.
  destruct (group_detections_each dets) as (ss & Hss & Heach & _).
  exists ss. split; [done|].
  eapply Forall_impl; [exact Heach|].
  intros s (((_ & Hne) & _) & Hsorted & Hadd). simpl.
  unfold add_statistics in Hadd.
  rewrite (py_sorted_id _ _ (detections (base s))) in Hadd by done.
  destruct (py_div _ _) as [avg|] eqn:Havg; [|done]. simpl in Hadd.
  destruct (py_max _) as [best|] eqn:Hbest; [|done]. simpl in Hadd.
  assert (image_count s = length (detections (base s))
          /\ avg_confidence s = avg /\ best_confidence s = best) as (Hn & -> & ->).
  { injection Hadd as <-. done. }
  apply py_max_spec in Hbest as [Hin Hall].
  rewrite Hn. split_and!.
  - done.
  - destruct (detections (base s)); [done|simpl; lia].
  - apply list_elem_of_fmap in Hin as (d & -> & Hd). by exists d.
  - rewrite Forall_fmap in Hall. done.
  - unfold py_div in Havg. destruct (Nat.eqb_spec (length (detections (base s))) 0); [done|].
    injection Havg as <-. reflexivity.
Qed.

(** X6. The members of every returned group are in the order of their
    timestamps: [first_seen] is the timestamp of the first member,
    [last_seen] that of the last, [created] the timestamp entry of the
    first, and every member's timestamp lies between the two. *)
Theorem group_time_span (dets : list detection) :
  exists ss,
    group_detections dets = Some ss
    /\ Forall (fun s =>
                 exists d1 dn,
                   head (detections (base s)) = Some d1
                   /\ last (detections (base s)) = Some dn
                   /\ created (base s) = timestamp d1
                   /\ first_seen s = Some (get_timestamp d1)
                   /\ last_seen s = Some (get_timestamp dn)
                   /\ Forall (fun d =>
                                String.leb (get_timestamp d1) (get_timestamp d) = true
                                /\ String.leb (get_timestamp d) (get_timestamp dn) = true)
                             (detections (base s))) ss.
Proof.
  destruct (group_detections_each dets) as (ss & Hss & Heach & _).
  exists ss. split; [done|].
  eapply Forall_impl; [exact Heach|].
  intros s (((_ & Hne) & _ & _ & Hcr) & Hsorted & Hadd).
  unfold add_statistics in Hadd.
  rewrite (py_sorted_id _ _ (detections (base s))) in Hadd by done.
  destruct (py_div _ _) as [avg|]; [|done]. simpl in Hadd.
  destruct (py_max _) as [best|]; [|done]. simpl in Hadd.
  assert (first_seen s = get_timestamp <$> head (detections (base s))
          /\ last_seen s = get_timestamp <$> last (detections (base s))) as (Hf & Hl).
  { injection Hadd as <-. done. }
  destruct (head (detections (base s))) as [d1|] eqn:Hd1;
    [|by destruct (detections (base s))].
  destruct (last (detections (base s))) as [dn|] eqn:Hdn;
    [|by apply last_None in Hdn].
  exists d1, dn. simpl in *. split_and!; try done.
  - by injection Hcr.
  - pose proof (sorted_head_first _ _ Hsorted Hd1) as H1.
    pose proof (sorted_last_latest _ _ Hsorted Hdn) as H2.
    apply Forall_forall. intros d Hd. rewrite Forall_forall in H1, H2.
    split; [by apply H1|by apply H2].
Qed.
End GroupInvariants.

(** X1 on the sample potholes: two groups, numbered 1 and 2. *)
Lemma groups_are_numbered_in_creation_order_witness :
  exists ss,
    GroupDamages.group_detections meridian_distance 1 [pothole1; pothole2; pothole3]
    = Some ss
    /\ map (fun s => GroupDamages.group_id (GroupDamages.base s)) ss = [1; 2].
Proof.
  destruct (GroupDamages.group_detections meridian_distance 1
              [pothole1; pothole2; pothole3]) as [ss|] eqn:E; [|by vm_compute in E].
  exists ss. split; [done|].
  rewrite (groups_are_numbered_in_creation_order meridian_distance 1
             [pothole1; pothole2; pothole3] ss E).
  vm_compute in E. by injection E as <-.
Defined.

Section ImageFactor.

Lemma count_over_three (n : nat) (t : Q) (k : nat) :
  (inject_Z (Z.of_nat k) - 1 <= 3 * t)%Q -> (3 * t < inject_Z (Z.of_nat k))%Q -> (t < 1)%Q ->
  Qgtb (Qmin (inject_Z (Z.of_nat n) / 3) 1) t = (k <=? n)%nat.
Proof.
  intros Hlo Hhi H1. unfold Qgtb.
  destruct (Nat.leb_spec k n) as [Hkn|Hkn].
  - apply negb_true_iff. destruct (Qle_bool _ t) eqn:E; [|done].
    apply Qle_bool_iff in E. exfalso.
    assert (t < inject_Z (Z.of_nat n) / 3)%Q as Hn.
    { apply Qlt_shift_div_l; [done|].
      rewrite Qmult_comm. eapply Qlt_le_trans; [exact Hhi|].
      rewrite <- Zle_Qle. lia. }
    apply (Qlt_not_le _ _ (Q.min_glb_lt _ _ _ Hn H1)). exact E.
  - apply negb_false_iff, Qle_bool_iff.
    eapply Qle_trans; [apply Q.le_min_l|].
    apply Qle_shift_div_r; [done|].
    rewrite Qmult_comm. eapply Qle_trans; [|exact Hlo].
    assert (inject_Z (Z.of_nat k) - 1 == inject_Z (Z.of_nat k - 1))%Q as ->.
    { unfold Qeq. simpl. lia. }
    rewrite <- Zle_Qle. lia.
Qed.

(** X8. The image factor [min(image_count / 3, 1.0)] of
    [_calculate_severity] only counts images: it is above 0.7 exactly when
    the group has at least three images and above 0.5 exactly when it has
    at least two.  So a pothole is 'high' iff its best confidence is above
    0.8 or it has three images, and a crack is 'medium' iff its best
    confidence is above 0.75 and it has two images. *)
Theorem severity_counts_images (ty : string) (conf : Q) (count : nat) :
  GroupDamages.severity_of ty conf count = severity_by_count ty conf count.
Proof.
  unfold GroupDamages.severity_of, severity_by_count.
  rewrite (count_over_three count 0.7 3), (count_over_three count 0.5 2); [done|..];
    unfold Qle, Qlt; simpl; lia.
Qed.
End ImageFactor.

(** ** The GeoJSON export of the groups *)

Section ExportFacts.
Import GroupDamages GroupedGeojson.
Variable calculate_distance : Q -> Q -> Q -> Q -> Q.
Variable max_distance : Q.
Variable round3 : Q -> Q.
Variable image_url : detection -> string.
Variable now : string.

Lemma sum_list_length_concat {A : Type} (ls : list (list A)) :
  sum_list (map length ls) = length (concat ls).
Proof. induction ls as [|l ls IH]; simpl; [done|]. by rewrite length_app, IH. Qed.

Lemma add_statistics_inv (g : group) (s : grouped) :
  add_statistics g = Some s ->
  image_count s = length (detections g)
  /\ is_Some (first_seen s) /\ is_Some (last_seen s).
Proof.
  unfold add_statistics.
  pose proof (py_sorted_Permutation String.leb get_timestamp (detections g)) as Hp.
  destruct (py_sorted String.leb get_timestamp (detections g)) as [|d l] eqn:E; [done|].
  destruct (py_div _ _) as [avg|]; [|done]. simpl.
  intros [= <-]. simpl. split_and!.
  - by rewrite <- Hp.
  - by eexists.
  - destruct (last (d :: l)) eqn:El; [by eexists|by apply last_None in El].
Qed.

(** X7. Exporting the groups of [group_detections] never raises (the keys
    'first_seen' and 'last_seen' are always there), [total_groups] is the
    number of features, [total_images] the number of input detections
    with a usable position, and the feature of a group is a Point at
    [[lon, lat]] of its centre with the group's id, as many images as
    [image_count] says and the severity of [_calculate_severity]. *)
Theorem export_counts_the_positioned_detections (dets : list detection) :
  exists ss doc,
    group_detections calculate_distance max_distance dets = Some ss
    /\ export_grouped_geojson round3 image_url now max_distance ss = Some doc
    /\ total_groups (metadata doc) = length (features doc)
    /\ total_images (metadata doc)
       = length (filter (fun d => valid_position d = true) dets)
    /\ Forall2 (fun s f =>
                  geometry_type f = "Point"%string
                  /\ coordinates f = [lon (center (base s)); lat (center (base s))]
                  /\ p_id (properties f) = group_id (base s)
                  /\ length (p_images (properties f)) = p_image_count (properties f)
                  /\ p_severity (properties f) = _calculate_severity s)
               ss (features doc).
Proof.
  destruct (group_detections_each calculate_distance max_distance dets)
    as (ss & Hss & Heach & _ & Hperm).
  assert (exists fs, mapM (feature_of round3 image_url) ss = Some fs
                     /\ Forall2 (fun s f => feature_of round3 image_url s = Some f
                                            /\ add_statistics (base s) = Some s) ss fs)
    as (fs & Hfs & Hall).
  { clear Hss Hperm. induction Heach as [|s ss (_ & _ & Hadd) _ (fs & IH & Hfs)].
    - by eexists.
    - pose proof Hadd as (_ & [t1 H1] & [t2 H2])%add_statistics_inv.
      assert (exists f, feature_of round3 image_url s = Some f) as [f Hf].
      { unfold feature_of. rewrite H1, H2. simpl. by eexists. }
      cbn [mapM]. rewrite Hf, IH. simpl. eexists. split; [done|].
      by constructor. }
  exists ss. eexists. split; [done|]. unfold export_grouped_geojson. rewrite Hfs. simpl.
  split; [done|]. simpl. split_and!.
  - by apply Forall2_length in Hall.
  - rewrite <- Hperm, <- sum_list_length_concat, map_map.
    f_equal. clear -Heach. induction Heach as [|s ss (_ & _ & Hadd) _ IH]; simpl; [done|].
    f_equal; [|done]. by apply add_statistics_inv in Hadd as (-> & _).
  - eapply Forall2_impl; [exact Hall|]. intros s f [Hf Hadd].
    apply add_statistics_inv in Hadd as (Hn & _).
    unfold feature_of in Hf.
    destruct (first_seen s); [|done]. destruct (last_seen s); [|done].
    simpl in Hf. injection Hf as <-. simpl. split_and!; try done.
    by rewrite length_map.
Qed.
End ExportFacts.

(** ** Grouping of the published damages *)

Lemma filter_ext_Forall {A : Type} (P1 P2 : A -> Prop)
      `{!forall x, Decision (P1 x), !forall x, Decision (P2 x)} (l : list A) :
  Forall (fun x => P1 x <-> P2 x) l -> filter P1 l = filter P2 l.
Proof.
  induction 1 as [|x l Hx _ IH]; [done|].
  rewrite !filter_cons, IH. destruct (decide (P1 x)), (decide (P2 x)); tauto.
Qed.

Section EnumerateFacts.
Context {A : Type}.

Lemma enumerate_from_fst (n : nat) (l : list A) :
  (enumerate_from n l).*1 = seq n (length l).
Proof. revert n. induction l as [|x l IH]; intros n; simpl; [done|]. by rewrite IH. Qed.

Lemma enumerate_from_snd (n : nat) (l : list A) : (enumerate_from n l).*2 = l.
Proof. revert n. induction l as [|x l IH]; intros n; simpl; [done|]. by rewrite IH. Qed.

Lemma length_enumerate_from (n : nat) (l : list A) :
  length (enumerate_from n l) = length l.
Proof. revert n. induction l as [|x l IH]; intros n; simpl; [done|]. by rewrite IH. Qed.

Lemma NoDup_enumerate_from (n : nat) (l : list A) : NoDup (enumerate_from n l).*1.
Proof. rewrite enumerate_from_fst. apply NoDup_seq. Qed.

Lemma picked_insert (all : list (nat * A)) (used : gset nat) (j : nat) (x : A) :
  NoDup all.*1 -> (j, x) ∈ all -> j ∉ used ->
  picked all ({[j]} ∪ used) ≡ₚ x :: picked all used.
Proof.
  unfold picked. induction all as [|[k y] all IH]; intros Hnd Hin Hj.
  - by apply elem_of_nil in Hin.
  - simpl in Hnd. apply NoDup_cons in Hnd as [Hk Hnd].
    apply elem_of_cons in Hin as [[= <- <-]|Hin].
    + rewrite filter_cons, decide_True
        by (apply elem_of_union_l; by apply elem_of_singleton).
      rewrite (filter_cons _ (j, x)), decide_False by done. simpl.
      rewrite (filter_ext_Forall (fun p : nat * A => p.1 ∈ {[j]} ∪ used)
                 (fun p => p.1 ∈ used) all); [done|].
      apply Forall_forall. intros [k y] Hy. simpl.
      assert (k <> j) as Hkj.
      { intros ->. apply Hk. by apply (list_elem_of_fmap_2 fst) in Hy. }
      rewrite elem_of_union, elem_of_singleton. tauto.
    + assert (k <> j) as Hkj.
      { intros ->. apply Hk. by apply (list_elem_of_fmap_2 fst) in Hin. }
      rewrite !filter_cons. simpl.
      destruct (decide (k ∈ used)) as [Hku|Hku].
      * rewrite decide_True by (by apply elem_of_union_r). simpl.
        rewrite IH by done. apply perm_swap.
      * rewrite decide_False
          by (rewrite elem_of_union, elem_of_singleton; tauto).
        by apply IH.
Qed.

Lemma picked_all (all : list (nat * A)) (used : gset nat) :
  Forall (fun p => p.1 ∈ used) all -> picked all used = all.*2.
Proof.
  unfold picked. induction 1 as [|p all Hp _ IH]; [done|].
  by rewrite filter_cons, decide_True, fmap_cons, IH.
Qed.

Lemma picked_empty (all : list (nat * A)) : picked all ∅ = [].
Proof.
  unfold picked. induction all as [|p all IH]; [done|].
  by rewrite filter_cons, decide_False by apply not_elem_of_empty.
Qed.
End EnumerateFacts.


Section PagesDamagesFacts.
Import PagesDamages.
Variable radius_m : Q.
Variable dist : Q * Q -> Q * Q -> Q.
Variable damages : list damage.

Local Abbreviation all := (enumerate_from 0 damages).
Local Abbreviation inner_body := (inner_body radius_m dist).
Local Abbreviation outer_body := (outer_body radius_m dist damages).
Local Abbreviation outer_inv := (outer_inv dist radius_m damages).

Lemma inner_fold_spec (i : nat) (seed : damage) (es : list (nat * damage))
      (group : list damage) (used : gset nat) :
  Forall (fun p => p ∈ all) es ->
  exists extra used',
    fold_left (inner_body i seed) es (group, used) = (group ++ extra, used')
    /\ Forall (fun o =>
                 damage_type o = damage_type seed
                 /\ (dist (latitude seed, longitude seed) (latitude o, longitude o)
                     <= radius_m)%Q) extra
    /\ (used ⊆ used')
    /\ picked all used' ≡ₚ picked all used ++ extra.
Proof.
  intros Hes. revert group used.
  induction Hes as [|[j other] es Hin _ IH]; intros group used.
  - exists [], used. simpl. by rewrite !app_nil_r.
  - cbn [fold_left].
    assert (inner_body i seed (group, used) (j, other) = (group, used)
            \/ ((j ∉ used)
                /\ damage_type other = damage_type seed
                /\ (dist (latitude seed, longitude seed) (latitude other, longitude other)
                    <= radius_m)%Q
                /\ inner_body i seed (group, used) (j, other)
                   = (group ++ [other], {[j]} ∪ used))) as [->|(Hj & Hty & Hd & ->)].
    { unfold PagesDamages.inner_body. simpl.
      destruct (decide (j ∈ used)) as [Hj|Hj].
      - rewrite bool_decide_eq_true_2 by done. by left.
      - rewrite bool_decide_eq_false_2 by done. simpl.
        destruct (i =? j)%nat; [by left|].
        destruct (String.eqb_spec (damage_type seed) (damage_type other)) as [Hty|Hty];
          simpl; [|by left].
        destruct (Qle_bool _ radius_m) eqn:Hd; [|by left].
        right. apply Qle_bool_iff in Hd. done. }
    + apply IH.
    + destruct (IH (group ++ [other]) ({[j]} ∪ used)) as (extra & used' & Hf & Hall & Hsub & Hp).
      exists (other :: extra), used'. split_and!.
      * rewrite Hf. by rewrite <- app_assoc.
      * by constructor.
      * etrans; [|exact Hsub]. apply union_subseteq_r.
      * rewrite Hp, picked_insert; [|apply NoDup_enumerate_from|done|done].
        simpl. by rewrite Permutation_middle.
Qed.

Lemma outer_body_spec (st : list (list damage) * gset nat) (i : nat) (d : damage) :
  (i, d) ∈ all -> outer_inv st ->
  outer_inv (outer_body st (i, d))
  /\ st.2 ⊆ (outer_body st (i, d)).2
  /\ i ∈ (outer_body st (i, d)).2
  /\ length (outer_body st (i, d)).1 <= S (length st.1).
Proof.
  intros Hin [Hp Hg]. destruct st as [groups used]. unfold PagesDamages.outer_body. simpl in *.
  destruct (decide (i ∈ used)) as [Hi|Hi].
  - rewrite bool_decide_eq_true_2 by done. split_and!; try done. simpl. lia.
  - rewrite bool_decide_eq_false_2 by done.
    destruct (inner_fold_spec i d all [d] ({[i]} ∪ used)) as (extra & used' & -> & Hall & Hsub & Hp').
    { apply Forall_forall. auto. }
    simpl. split_and!.
    + split; simpl.
      * rewrite concat_app, Hp, Hp'. simpl. rewrite app_nil_r.
        rewrite picked_insert; [|apply NoDup_enumerate_from|done|done].
        simpl. symmetry. apply Permutation_middle.
      * apply Forall_app. split; [done|]. constructor; [|done]. by exists d, extra.
    + etrans; [|exact Hsub]. apply union_subseteq_r.
    + apply Hsub. apply elem_of_union_l. by apply elem_of_singleton.
    + rewrite length_app. simpl. lia.
Qed.

Lemma outer_fold_spec (es : list (nat * damage)) (st : list (list damage) * gset nat) :
  Forall (fun p => p ∈ all) es -> outer_inv st ->
  let st' := fold_left outer_body es st in
  outer_inv st' /\ st.2 ⊆ st'.2 /\ Forall (fun p => p.1 ∈ st'.2) es
  /\ length st'.1 <= length st.1 + length es.
Proof.
  intros Hes. revert st. induction Hes as [|[i d] es Hin _ IH]; intros st Hinv; simpl.
  - split_and!; try done. lia.
  - destruct (outer_body_spec st i d Hin Hinv) as (Hinv1 & Hsub1 & Hi1 & Hlen1).
    destruct (IH _ Hinv1) as (Hinv' & Hsub' & Hall' & Hlen').
    split_and!; try done.
    + by etrans.
    + constructor; [by apply Hsub'|done].
    + lia.
Qed.
End PagesDamagesFacts.

Section PagesDamagesClaims.
Import PagesDamages.
Variable radius_m : Q.

Lemma group_damages_None (damages : list damage) :
  group_damages None radius_m damages = map (fun d => [d]) damages.
Proof. unfold group_damages. by destruct damages. Qed.

Lemma concat_singletons {A : Type} (l : list A) : concat (map (fun x => [x]) l) = l.
Proof. induction l as [|x l IH]; simpl; [done|]. by rewrite IH. Qed.

Lemma group_damages_Some (dist : Q * Q -> Q * Q -> Q) (damages : list damage) :
  concat (group_damages (Some dist) radius_m damages) ≡ₚ damages
  /\ Forall (seeded_group dist radius_m) (group_damages (Some dist) radius_m damages)
  /\ length (group_damages (Some dist) radius_m damages) <= length damages.
Proof.
  unfold group_damages. destruct damages as [|d0 ds] eqn:E; [done|].
  rewrite <- E.
  destruct (outer_fold_spec radius_m dist damages (enumerate_from 0 damages) ([], ∅))
    as ((Hp & Hg) & _ & Hall & Hlen).
  { apply Forall_forall. auto. }
  { split; simpl; [by rewrite picked_empty|done]. }
  split_and!.
  - rewrite Hp, picked_all by done. by rewrite enumerate_from_snd.
  - done.
  - simpl in Hlen.
    assert (length (enumerate_from 0 damages) = length damages) as Hl.
    { rewrite <- (enumerate_from_snd 0 damages) at 2. by rewrite length_map. }
    by rewrite <- Hl.
Qed.

Lemma group_damages_Permutation (geodesic : option (Q * Q -> Q * Q -> Q))
      (damages : list damage) :
  concat (group_damages geodesic radius_m damages) ≡ₚ damages.
Proof.
  destruct geodesic as [dist|]; [apply group_damages_Some|].
  by rewrite group_damages_None, concat_singletons.
Qed.

(** Whether geopy is there or not, a group has a first member, and the
    others have its type. *)
Lemma group_damages_uniform (geodesic : option (Q * Q -> Q * Q -> Q))
      (damages : list damage) :
  Forall (fun g => exists seed rest,
              g = seed :: rest
              /\ Forall (fun o => damage_type o = damage_type seed) rest)
         (group_damages geodesic radius_m damages).
Proof.
  destruct geodesic as [dist|].
  - destruct (group_damages_Some dist damages) as (_ & Hg & _).
    eapply Forall_impl; [exact Hg|].
    intros g (seed & rest & -> & Hrest). exists seed, rest. split; [done|].
    eapply Forall_impl; [exact Hrest|]. by intros o [? _].
  - rewrite group_damages_None. apply Forall_fmap, Forall_forall.
    intros d _. by exists d, [].
Qed.

(** X9. [group_damages] partitions the damages: every damage is in one
    group (the groups concatenated are a permutation of the input), no
    group is empty, and there are at most as many groups as damages.
    Without geopy every damage is a group of its own. *)
Theorem group_damages_partitions (geodesic : option (Q * Q -> Q * Q -> Q))
        (damages : list damage) :
  concat (group_damages geodesic radius_m damages) ≡ₚ damages
  /\ Forall (fun g => g <> []) (group_damages geodesic radius_m damages)
  /\ length (group_damages geodesic radius_m damages) <= length damages
  /\ group_damages None radius_m damages = map (fun d => [d]) damages.
Proof.
  split_and!.
  - apply group_damages_Permutation.
  - eapply Forall_impl; [apply group_damages_uniform|].
    by intros g (seed & rest & -> & _).
  - destruct geodesic as [dist|]; [apply group_damages_Some|].
    by rewrite group_damages_None, length_map.
  - apply group_damages_None.
Qed.

(** X10. With geopy, every group of [group_damages] is built around its
    first member: the other members have the damage type of the first
    and lie within [radius_m] of it (not of each other, and not of a
    centre). *)
Theorem group_damages_groups_around_a_seed (dist : Q * Q -> Q * Q -> Q)
        (damages : list damage) :
  Forall (fun g =>
            exists seed rest,
              g = seed :: rest
              /\ Forall (fun o =>
                           damage_type o = damage_type seed
                           /\ (dist (latitude seed, longitude seed)
                                    (latitude o, longitude o) <= radius_m)%Q) rest)
         (group_damages (Some dist) radius_m damages).
Proof.
  destruct (group_damages_Some dist damages) as (_ & Hg & _). exact Hg.
Qed.
End PagesDamagesClaims.

(** ** The damage markers *)

Lemma string_ltb_false_leb (a b : string) : String.ltb a b = false -> String.leb b a = true.
Proof.
  unfold String.ltb, String.leb. rewrite (String.compare_antisym b a).
  by destruct (String.compare a b).
Qed.

Lemma string_ltb_leb (a b : string) : String.ltb a b = true -> String.leb a b = true.
Proof. unfold String.ltb, String.leb. by destruct (String.compare a b). Qed.

Lemma string_leb_refl (a : string) : String.leb a a = true.
Proof.
  unfold String.leb.
  pose proof (String.compare_antisym a a) as H.
  by destruct (String.compare a a).
Qed.

Lemma fold_py_min_str_spec (l : list string) (x0 : string) :
  let m := fold_left (fun cur y => if String.ltb y cur then y else cur) l x0 in
  (m = x0 \/ m ∈ l) /\ String.leb m x0 = true /\ Forall (fun y => String.leb m y = true) l.
Proof.
  revert x0. induction l as [|y l IH]; intros x0; simpl.
  - split_and!; [by left|apply string_leb_refl|done].
  - destruct (IH (if String.ltb y x0 then y else x0)) as (Hin & Hle & Hall).
    destruct (String.ltb y x0) eqn:E.
    + split_and!.
      * right. destruct Hin as [->|Hin]; [left|by right].
      * eapply string_leb_trans; [exact Hle|]. by apply string_ltb_leb.
      * by constructor.
    + split_and!.
      * destruct Hin as [->|Hin]; [by left|right; by right].
      * done.
      * constructor; [|done].
        eapply string_leb_trans; [exact Hle|]. by apply string_ltb_false_leb.
Qed.

Lemma py_min_str_spec (xs : list string) (m : string) :
  py_min_str xs = Some m -> m ∈ xs /\ Forall (fun y => String.leb m y = true) xs.
Proof.
  destruct xs as [|x0 l]; simpl; [done|]. intros [= <-].
  destruct (fold_py_min_str_spec l x0) as (Hin & Hle & Hall).
  split; [destruct Hin as [->|Hin]; [left|by right]|by constructor].
Qed.

Lemma fold_py_max_str_spec (l : list string) (x0 : string) :
  let m := fold_left (fun cur y => if String.ltb cur y then y else cur) l x0 in
  (m = x0 \/ m ∈ l) /\ String.leb x0 m = true /\ Forall (fun y => String.leb y m = true) l.
Proof.
  revert x0. induction l as [|y l IH]; intros x0; simpl.
  - split_and!; [by left|apply string_leb_refl|done].
  - destruct (IH (if String.ltb x0 y then y else x0)) as (Hin & Hle & Hall).
    destruct (String.ltb x0 y) eqn:E.
    + split_and!.
      * right. destruct Hin as [->|Hin]; [left|by right].
      * eapply string_leb_trans; [|exact Hle]. by apply string_ltb_leb.
      * by constructor.
    + split_and!.
      * destruct Hin as [->|Hin]; [by left|right; by right].
      * done.
      * constructor; [|done].
        eapply string_leb_trans; [|exact Hle]. by apply string_ltb_false_leb.
Qed.

Lemma py_max_str_spec (xs : list string) (m : string) :
  py_max_str xs = Some m -> m ∈ xs /\ Forall (fun y => String.leb y m = true) xs.
Proof.
  destruct xs as [|x0 l]; simpl; [done|]. intros [= <-].
  destruct (fold_py_max_str_spec l x0) as (Hin & Hle & Hall).
  split; [destruct Hin as [->|Hin]; [left|by right]|by constructor].
Qed.

Lemma worst_severity_spec (l : list string) :
  l <> [] ->
  (exists s, s ∈ l /\ severity_string_rank s
                      = severity_string_rank (PagesGeojson.worst_severity l))
  /\ Forall (fun s => severity_string_rank s
                      <= severity_string_rank (PagesGeojson.worst_severity l)) l.
Proof.
  intros Hne. unfold PagesGeojson.worst_severity.
  destruct (existsb (String.eqb "high") l) eqn:Eh.
  - split.
    + apply existsb_exists in Eh as (s & Hs & E). exists s.
      split; [by apply list_elem_of_In|]. unfold severity_string_rank. by rewrite E.
    + apply Forall_forall. intros s _. unfold severity_string_rank.
      destruct (String.eqb "high" s); [done|]. destruct (String.eqb "medium" s); simpl; lia.
  - assert (Forall (fun s => String.eqb "high" s = false) l) as Hh.
    { apply Forall_forall. intros s Hs. destruct (String.eqb "high" s) eqn:E; [|done].
      assert (existsb (String.eqb "high") l = true) as H; [|congruence].
      apply existsb_exists. exists s. split; [by apply list_elem_of_In|done]. }
    destruct (existsb (String.eqb "medium") l) eqn:Em.
    + split.
      * apply existsb_exists in Em as (s & Hs & E). exists s.
        apply list_elem_of_In in Hs. split; [done|].
        rewrite Forall_forall in Hh. unfold severity_string_rank.
        rewrite (Hh s Hs), E. done.
      * eapply Forall_impl; [exact Hh|]. intros s E. unfold severity_string_rank.
        rewrite E. destruct (String.eqb "medium" s); simpl; lia.
    + assert (Forall (fun s => severity_string_rank s = 0) l) as H0.
      { apply Forall_forall. intros s Hs. rewrite Forall_forall in Hh.
        unfold severity_string_rank. rewrite (Hh s Hs).
        destruct (String.eqb "medium" s) eqn:E; [|done].
        assert (existsb (String.eqb "medium") l = true) as H; [|congruence].
        apply existsb_exists. exists s. split; [by apply list_elem_of_In|done]. }
      split.
      * destruct l as [|s l]; [done|]. exists s. split; [left|].
        by apply Forall_cons in H0 as [-> _].
      * eapply Forall_impl; [exact H0|]. intros s ->. lia.
Qed.

Section PagesGeojsonFacts.
Import PagesDamages PagesGeojson.
Variable geodesic : option (Q * Q -> Q * Q -> Q).
Variable radius_m : Q.
Variable set_order : list string -> list string.
Variable path_name : string -> string.
Variable now : string.
Hypothesis set_order_spec : set_order_ok set_order.

Local Abbreviation feature_of := (feature_of set_order path_name).
Local Abbreviation generate_damages_geojson :=
  (generate_damages_geojson geodesic radius_m set_order path_name now).

Lemma py_div_Some (x : Q) (n : nat) :
  n <> 0 ->
  exists q, py_div x n = Some q /\ (q * inject_Z (Z.of_nat n) == x)%Q.
Proof.
  intros Hn. unfold py_div. destruct (Nat.eqb_spec n 0); [done|].
  eexists. split; [done|]. field.
  change 0%Q with (inject_Z 0). rewrite inject_Z_injective. lia.
Qed.

(** The vote over a group of one type gives that type, whatever the
    order of the set. *)
Lemma vote_uniform (types : list string) (t : string) :
  types <> [] -> Forall (fun u => u = t) types ->
  py_max_by (AutoLiveSystem.count types) (set_order types) = Some t.
Proof.
  intros Hne Hall. destruct (set_order_spec types) as [_ Hset].
  assert (set_order types <> []) as Hne'.
  { destruct types as [|t0 types]; [done|].
    assert (t0 ∈ set_order (t0 :: types)) as Hin by (apply Hset; left).
    intros E. rewrite E in Hin. by apply elem_of_nil in Hin. }
  destruct (py_max_by_Some (AutoLiveSystem.count types) _ Hne') as [u Hu].
  rewrite Hu. f_equal.
  apply py_max_by_elem_of, Hset in Hu. rewrite Forall_forall in Hall. by apply Hall.
Qed.

Lemma feature_of_spec (session_id : string) (group_id : nat) (seed : damage)
      (rest : list damage) :
  Forall (fun o => damage_type o = damage_type seed) rest ->
  exists f,
    feature_of session_id group_id (seed :: rest) = Some f
    /\ p_id (properties f) = group_id
    /\ length (p_images (properties f)) = length (seed :: rest)
    /\ summarises f (seed :: rest).
Proof.
  intros Hty.
  assert (Forall (fun d => damage_type d = damage_type seed) (seed :: rest)) as Hall
      by (by constructor).
  assert (length (seed :: rest) <> 0) as Hlen by done.
  assert (seed :: rest <> []) as Hne by done.
  revert Hall Hlen Hne. generalize (seed :: rest). intros g Hall Hlen Hne.
  unfold PagesGeojson.feature_of.
  destruct (py_div_Some (py_sum (map latitude g)) _ Hlen) as (avg_lat & -> & Hlat).
  destruct (py_div_Some (py_sum (map longitude g)) _ Hlen) as (avg_lon & -> & Hlon).
  destruct (py_div_Some (py_sum (map confidence g)) _ Hlen) as (avg & -> & Havg).
  rewrite (vote_uniform (map damage_type g) (damage_type seed));
    [|by destruct g|by rewrite Forall_fmap].
  destruct (py_max (map confidence g)) as [best|] eqn:Hbest; [|by destruct g].
  destruct (py_min_str (map timestamp g)) as [first|] eqn:Hfirst; [|by destruct g].
  destruct (py_max_str (map timestamp g)) as [last|] eqn:Hlast; [|by destruct g].
  simpl. eexists. split; [done|]. simpl.
  apply py_max_spec in Hbest as [Hbin Hball].
  apply py_min_str_spec in Hfirst as [Hfin Hfall].
  apply py_max_str_spec in Hlast as [Hlin Hlall].
  destruct (worst_severity_spec (map severity g)) as [(s & Hs & Hrank) Hworst];
    [by destruct g|].
  split; [done|]. split; [by rewrite length_map|].
  unfold summarises. simpl. split_and!.
  - done.
  - by exists avg_lat, avg_lon.
  - eapply Forall_impl; [exact Hall|]. done.
  - apply list_elem_of_fmap in Hs as (d & -> & Hd). by exists d.
  - by rewrite Forall_fmap in Hworst.
  - by rewrite length_map.
  - rewrite <- list_fmap_compose. done.
  - done.
  - apply list_elem_of_fmap in Hbin as (d & -> & Hd). by exists d.
  - by rewrite Forall_fmap in Hball.
  - apply list_elem_of_fmap in Hfin as (d1 & -> & Hd1).
    apply list_elem_of_fmap in Hlin as (dn & -> & Hdn). by exists d1, dn.
  - rewrite Forall_fmap in Hfall, Hlall. apply Forall_forall. intros d Hd.
    rewrite Forall_forall in Hfall, Hlall. split; [by apply Hfall|by apply Hlall].
Qed.

Lemma mapM_feature_of (session_id : string) (n : nat) (groups : list (list damage)) :
  Forall (fun g => exists seed rest,
              g = seed :: rest
              /\ Forall (fun o => damage_type o = damage_type seed) rest) groups ->
  exists fs,
    mapM (fun p => feature_of session_id p.1 p.2) (enumerate_from n groups) = Some fs
    /\ map (fun f => p_id (properties f)) fs = seq n (length groups)
    /\ map (fun f => length (p_images (properties f))) fs = map length groups
    /\ Forall2 summarises fs groups.
Proof.
  intros Hall. revert n.
  induction Hall as [|g groups (seed & rest & -> & Hty) _ IH]; intros n.
  - by exists [].
  - destruct (feature_of_spec session_id n seed rest Hty) as (f & Hf & Hid & Himg & Hsum).
    destruct (IH (S n)) as (fs & Hfs & Hids & Himgs & Hsums).
    exists (f :: fs). cbn [enumerate_from mapM]. simpl fst. simpl snd.
    rewrite Hf. simpl. rewrite Hfs. simpl.
    split_and!; [done| | |by constructor].
    + by rewrite Hid, Hids.
    + by rewrite Himg, Himgs.
Qed.

Lemma generate_damages_geojson_spec (session_id : string) (damages : list damage) :
  exists doc,
    generate_damages_geojson session_id damages = Some doc
    /\ total_groups (metadata doc) = length (features doc)
    /\ length (features doc) = length (group_damages geodesic radius_m damages)
    /\ total_images (metadata doc) = length damages
    /\ map (fun f => p_id (properties f)) (features doc) = seq 1 (length (features doc))
    /\ Forall2 summarises (features doc) (group_damages geodesic radius_m damages).
Proof.
  unfold PagesGeojson.generate_damages_geojson.
  destruct (mapM_feature_of session_id 1 (group_damages geodesic radius_m damages))
    as (fs & -> & Hids & Himgs & Hsums); [apply group_damages_uniform|].
  simpl. eexists. split; [done|]. simpl.
  assert (length fs = length (group_damages geodesic radius_m damages)) as Hlen.
  { by apply Forall2_length in Hsums. }
  split_and!; try done.
  - rewrite Himgs, sum_list_length_concat.
    by rewrite (group_damages_Permutation radius_m geodesic damages).
  - by rewrite Hids, Hlen.
Qed.

(** X11. With any iteration order of sets, in every document
    [generate_damages_geojson] returns the features are numbered 1, 2,
    3, ... in the order of the groups, [total_groups] is their number,
    and [total_images] is the number of damages of the session: every
    damage is an image of exactly one marker. *)
Theorem damage_markers_count_every_damage
        (session_id : string) (damages : list damage) (doc : geojson) :
  generate_damages_geojson session_id damages = Some doc ->
  total_groups (metadata doc) = length (features doc)
  /\ length (features doc) = length (group_damages geodesic radius_m damages)
  /\ total_images (metadata doc) = length damages
  /\ concat (map (fun f => map img_timestamp (p_images (properties f))) (features doc))
     ≡ₚ map timestamp damages
  /\ map (fun f => p_id (properties f)) (features doc) = seq 1 (length (features doc)).
Proof.
  intros Hret.
  destruct (generate_damages_geojson_spec session_id damages)
    as (doc' & Hdoc & Hn & Hlen & Himg & Hids & Hsums).
  rewrite Hret in Hdoc. injection Hdoc as <-.
  split_and!; try done.
  transitivity (map timestamp (concat (group_damages geodesic radius_m damages)));
    [|by rewrite (group_damages_Permutation radius_m geodesic damages)].
  clear -Hsums. induction Hsums as [|f g fs gs Hfg _ IH]; simpl; [done|].
  rewrite fmap_app. f_equiv; [|exact IH].
  destruct Hfg as (_ & _ & _ & _ & _ & _ & -> & _). done.
Qed.

(** X12. With any iteration order of sets, the marker of a group
    summarises it: it is a Point at the mean position of the members; its
    damage type is the type of every member, so the vote over
    [set(damage_types)] has one candidate; its severity is the highest
    severity of a member ('high' over 'medium' over anything else); its
    best confidence is attained by a member and bounds the others; and
    [first_seen] and [last_seen] are timestamps of members that bound
    the timestamps of all members. *)
Theorem damage_marker_summarises_its_group (session_id : string) (damages : list damage) :
  exists doc,
    generate_damages_geojson session_id damages = Some doc
    /\ Forall2 summarises (features doc) (group_damages geodesic radius_m damages).
Proof.
  destruct (generate_damages_geojson_spec session_id damages)
    as (doc & Hdoc & _ & _ & _ & _ & Hsums).
  by exists doc.
Qed.
End PagesGeojsonFacts.

(** X11 on the sample damages: three damages, two markers. *)
Lemma damage_markers_count_every_damage_witness :
  exists doc,
    PagesGeojson.generate_damages_geojson (Some meridian_geodesic) 1 remove_dups
      (fun p => p) "2025-10-27T14:02:11" "20251027_134700" sample_damages = Some doc
    /\ PagesGeojson.total_images (PagesGeojson.metadata doc) = 3
    /\ PagesGeojson.total_groups (PagesGeojson.metadata doc) = 2
    /\ map (fun f => PagesGeojson.p_id (PagesGeojson.properties f))
           (PagesGeojson.features doc) = [1; 2].
Proof.
  destruct (PagesGeojson.generate_damages_geojson (Some meridian_geodesic) 1 remove_dups
              (fun p => p) "2025-10-27T14:02:11" "20251027_134700" sample_damages)
    as [doc|] eqn:E; [|by vm_compute in E].
  exists doc. split; [done|].
  destruct (damage_markers_count_every_damage (Some meridian_geodesic) 1 remove_dups
              (fun p => p) "2025-10-27T14:02:11" remove_dups_set_order
              "20251027_134700" sample_damages doc E)
    as (Hn & Hlen & Himg & _ & Hids).
  assert (length (PagesGeojson.features doc) = 2) as Htwo.
  { rewrite Hlen. vm_compute. reflexivity. }
  rewrite Hids, Hn, Htwo. split_and!; [exact Himg|done|done].
Defined.

Lemma damage_marker_summarises_its_group_witness :
  exists doc,
    PagesGeojson.generate_damages_geojson (Some meridian_geodesic) 1 remove_dups
      (fun p => p) "2025-10-27T14:02:11" "20251027_134700" sample_damages = Some doc
    /\ Forall2 summarises (PagesGeojson.features doc)
         (PagesDamages.group_damages (Some meridian_geodesic) 1 sample_damages).
Proof.
  apply (damage_marker_summarises_its_group (Some meridian_geodesic) 1 remove_dups
           (fun p => p) "2025-10-27T14:02:11" remove_dups_set_order).
Defined.

(** ** The published route *)

Section PagesRouteFacts.
Import UpdateGithubPages PagesRoute.
Variable geodesic : option (Q * Q -> Q * Q -> Q).

(** The segments hold the coordinates of the route, in order. *)
Lemma segment_by_surface_concat (coords : list coord) (surfaces : list surface) :
  concat (map coordinates (segment_by_surface geodesic coords surfaces)) = coords.
Proof.
  unfold segment_by_surface. destruct surfaces as [|s0 surfaces]; simpl.
  - by rewrite app_nil_r.
  - match goal with |- context [fold_left ?f coords ?st0] =>
      pose proof (fold_loop_body_coords geodesic (s0 :: surfaces) coords st0) as H;
      destruct (fold_left f coords st0) as [segs cur idx]
    end.
    unfold state_coords in H. simpl in *.
    destruct (coordinates cur) as [|c cs] eqn:E.
    + by rewrite app_nil_r in H.
    + rewrite map_app, concat_app. simpl. by rewrite E, app_nil_r.
Qed.

Lemma segment_features_coords (session_id : string) (n : nat) (segs : list segment) :
  map (fun f => g_coordinates (f_geometry f))
      (map (segment_feature session_id) (enumerate_from n segs))
  = map coordinates segs.
Proof. revert n. induction segs as [|s segs IH]; intros n; simpl; [done|]. by rewrite IH. Qed.

Lemma segment_features_ids (session_id : string) (n : nat) (segs : list segment) :
  map segment_id_of (map (segment_feature session_id) (enumerate_from n segs))
  = map Some (seq n (length segs)).
Proof. revert n. induction segs as [|s segs IH]; intros n; simpl; [done|]. by rewrite IH. Qed.

(** X13. On a route without a feature [generate_route_geojson] raises.
    In every document it returns for a route with a feature, in both
    modes, the coordinates of the features, concatenated, are the
    coordinates of the first feature of the route, and the metadata
    entry 'segments' is the number of features.  With segments enabled
    every feature is a LineString with the colour of its surface type,
    and the segment ids are 0, 1, 2, ... in order; with segments
    disabled the one feature is the geometry of the route itself. *)
Theorem route_geojson_keeps_the_route (route_segments : bool) (now session_id : string)
        (geometry0 : geometry) (others : list geometry) (surfaces : list surface)
        (doc : geojson) :
  generate_route_geojson geodesic route_segments now session_id
    (geometry0 :: others) surfaces = Some doc ->
  generate_route_geojson geodesic route_segments now session_id [] surfaces = None
  /\ concat (map (fun f => g_coordinates (f_geometry f)) (features doc))
     = g_coordinates geometry0
  /\ m_segments doc = length (features doc)
  /\ (if route_segments then
        Forall (fun f => g_type (f_geometry f) = "LineString"%string
                         /\ colored_by_surface f) (features doc)
        /\ map segment_id_of (features doc)
           = map Some (seq 0 (length (features doc)))
      else
        features doc = [{| f_geometry := geometry0;
                           f_properties := RouteProperties session_id |}]).
Proof.
  intros Hret. split; [done|].
  unfold generate_route_geojson in Hret. simpl in Hret. injection Hret as <-. simpl.
  destruct route_segments; simpl.
  - split_and!.
    + by rewrite segment_features_coords, segment_by_surface_concat.
    + done.
    + apply Forall_fmap, Forall_forall. intros [i s] _. done.
    + by rewrite segment_features_ids, length_map, length_enumerate_from.
  - split_and!; [by rewrite app_nil_r|done..].
Qed.

(** X14. Without geopy the segmenter never splits: a route with points
    and at least one surface detection becomes one segment with the
    label and confidence of the first detection, whatever the later
    detections say; an empty route gives no segment. *)
Theorem route_without_geopy_is_one_segment
        (coords : list coord) (s0 : surface) (surfaces : list surface) :
  segment_by_surface None coords (s0 :: surfaces)
  = match coords with
    | [] => []
    | _ => [{| coordinates := coords;
               seg_surface_type := surface_type s0;
               seg_confidence := confidence s0 |}]
    end.
Proof.
  unfold segment_by_surface.
  assert (forall cs st,
             fold_left (loop_body None (s0 :: surfaces)) cs st
             = {| segments := segments st;
                  current_segment :=
                    {| coordinates := coordinates (current_segment st) ++ cs;
                       seg_surface_type := seg_surface_type (current_segment st);
                       seg_confidence := seg_confidence (current_segment st) |};
                  surface_idx := surface_idx st |}) as Hfold.
  { induction cs as [|c cs IH]; intros st; simpl.
    - rewrite app_nil_r. by destruct st as [? [] ?].
    - rewrite IH. unfold loop_body, passes_next, near.
      destruct (_ <? _)%Z; [destruct (_ !! _)|]; simpl; by rewrite <- app_assoc. }
  rewrite Hfold. simpl. by destruct coords.
Qed.
End PagesRouteFacts.

(** X13 on the sample route with a change of surface: two segments,
    numbered 0 and 1, that keep the two points of the route. *)
Lemma route_geojson_keeps_the_route_witness :
  exists doc,
    PagesRoute.generate_route_geojson (Some meridian_geodesic) true
      "2025-10-27T14:02:11" "20251027_134700"
      [{| PagesRoute.g_type := "LineString"; PagesRoute.g_coordinates := sample_route |}]
      surfaces_changing = Some doc
    /\ PagesRoute.m_segments doc = 2
    /\ map segment_id_of (PagesRoute.features doc) = [Some 0; Some 1]
    /\ concat (map (fun f => PagesRoute.g_coordinates (PagesRoute.f_geometry f))
                   (PagesRoute.features doc)) = sample_route.
Proof.
  destruct (PagesRoute.generate_route_geojson (Some meridian_geodesic) true
              "2025-10-27T14:02:11" "20251027_134700"
              [{| PagesRoute.g_type := "LineString";
                  PagesRoute.g_coordinates := sample_route |}]
              surfaces_changing) as [doc|] eqn:E; [|by vm_compute in E].
  exists doc. split; [done|].
  destruct (route_geojson_keeps_the_route (Some meridian_geodesic) true
              "2025-10-27T14:02:11" "20251027_134700" _ [] surfaces_changing doc E)
    as (_ & Hcoords & Hn & _ & Hids).
  assert (length (PagesRoute.features doc) = 2) as Htwo.
  { vm_compute in E. by injection E as <-. }
  rewrite Hids, Hn, Htwo. split_and!; [done|done|exact Hcoords].
Defined.

(** X15. The colour table: the nine known surface types have nine
    different colours, and the fallback colour '#3498db' is given exactly
    to the types outside the table, among them 'unknown', the label of
    a route without surface detections. *)
Theorem surface_colors_tell_the_types_apart (t u : string) :
  (PagesRoute.get_surface_color t = "#3498db"%string <-> PagesRoute.colors !! t = None)
  /\ (is_Some (PagesRoute.colors !! t) ->
      PagesRoute.get_surface_color t = PagesRoute.get_surface_color u -> t = u)
  /\ PagesRoute.get_surface_color "unknown" = "#3498db"%string
  /\ size PagesRoute.colors = 9.
Proof.
  assert (forall k c, PagesRoute.colors !! k = Some c ->
                      (k, c) ∈ map_to_list PagesRoute.colors) as Hin.
  { intros k c. by rewrite elem_of_map_to_list. }
  assert (map_to_list PagesRoute.colors
          ≡ₚ [("asphalt_excellent", "#27ae60"); ("asphalt_good", "#2ecc71");
              ("asphalt_fair", "#f39c12"); ("asphalt_poor", "#e74c3c");
              ("concrete", "#95a5a6"); ("cobblestone", "#7f8c8d");
              ("paving_stones", "#8e44ad"); ("gravel", "#d35400");
              ("dirt", "#795548")]%string) as Hlist.
  { apply map_to_list_to_map. apply (bool_decide_unpack _). vm_compute. reflexivity. }
  assert (forall k c, PagesRoute.colors !! k = Some c ->
                      c <> "#3498db"%string
                      /\ forall k' , PagesRoute.colors !! k' = Some c -> k' = k) as Hinj.
  { intros k c Hk. apply Hin in Hk. rewrite Hlist in Hk.
    split.
    - intros ->. apply list_elem_of_In in Hk. simpl in Hk.
      repeat (destruct Hk as [Hk|Hk]; [done|]). done.
    - intros k' Hk'. apply Hin in Hk'. rewrite Hlist in Hk'.
      apply list_elem_of_In in Hk, Hk'. simpl in Hk, Hk'.
      repeat (destruct Hk as [Hk|Hk]; [injection Hk as <- <-|]); try done;
        repeat (destruct Hk' as [Hk'|Hk']; [by injection Hk' as <-|]); done. }
  unfold PagesRoute.get_surface_color. split_and!.
  - destruct (PagesRoute.colors !! t) as [c|] eqn:E; simpl; [|done].
    split; [|done]. intros ->. by destruct (Hinj _ _ E).
  - intros [c E]. rewrite E. simpl.
    destruct (PagesRoute.colors !! u) as [c'|] eqn:E'; simpl.
    + intros ->. by apply (proj2 (Hinj _ _ E')).
    + intros ->. by destruct (Hinj _ _ E).
  - assert (PagesRoute.colors !! "unknown"%string = None) as ->; [|done].
    apply not_elem_of_list_to_map_1. apply (bool_decide_unpack _). vm_compute. reflexivity.
  - rewrite <- length_map_to_list, Hlist. done.
Qed.

(** ** The capture loop of the live system *)

Lemma count_app (l : list string) (t u : string) :
  AutoLiveSystem.count (l ++ [t]) u
  = AutoLiveSystem.count l u + (if decide (t = u) then 1 else 0).
Proof.
  unfold AutoLiveSystem.count. rewrite filter_app, length_app. f_equal.
  rewrite filter_cons, filter_nil. by destruct (decide (t = u)).
Qed.

Lemma tally_nil (t : string) : tally [] t = None.
Proof. done. Qed.

Lemma tally_insert (m : gmap string nat) (l : list string) (t : string) :
  (forall u, m !! u = tally l u) ->
  forall u, <[t := default 0 (m !! t) + 1]> m !! u = tally (l ++ [t]) u.
Proof.
  intros Hm u. unfold tally. rewrite count_app.
  destruct (decide (t = u)) as [->|Hne].
  - rewrite lookup_insert_eq, Hm. unfold tally.
    destruct (Nat.eqb_spec (AutoLiveSystem.count l u) 0) as [->|Hn]; simpl; [done|].
    destruct (Nat.eqb_spec (AutoLiveSystem.count l u + 1) 0); [lia|done].
  - rewrite lookup_insert_ne by done. rewrite Hm. unfold tally. by rewrite Nat.add_0_r.
Qed.

Lemma deque_append_length {A : Type} (maxlen : nat) (buf : list A) (x : A) :
  length buf <= maxlen ->
  length (AutoLiveSystem.deque_append maxlen buf x) <= maxlen
  /\ length (AutoLiveSystem.deque_append maxlen buf x) <= length buf + 1.
Proof.
  intros Hlen. unfold AutoLiveSystem.deque_append.
  destruct (Nat.eqb_spec maxlen 0); [lia|].
  destruct (Nat.ltb_spec (length buf) maxlen).
  - rewrite length_app. simpl. lia.
  - rewrite length_app. destruct buf; simpl in *; lia.
Qed.

Section LiveSystemFacts.
Import LiveSystem.
Variable geodesic : option (Q * Q -> Q * Q -> Q).
Variable set_order : list string -> list string.
Variable image_path : nat -> string.
Variable damage_path : nat -> string.
Hypothesis set_order_spec : set_order_ok set_order.

Local Abbreviation process_surface := (process_surface geodesic set_order).
Local Abbreviation record_damage := (record_damage damage_path).
Local Abbreviation process_damages := (process_damages damage_path).
Local Abbreviation add_route_point := (add_route_point geodesic).
Local Abbreviation capture_and_process :=
  (capture_and_process geodesic set_order image_path damage_path).
Local Abbreviation run := (run geodesic set_order image_path damage_path).

(** The smoothing never raises. *)
Lemma smoothing_total (smoothing : bool) (maxlen : nat) (buf : list (string * Q))
      (sample : string * Q) :
  exists out,
    AutoLiveSystem.process_surface set_order smoothing maxlen buf sample
    = Some (AutoLiveSystem.deque_append maxlen buf sample, out).
Proof.
  unfold AutoLiveSystem.process_surface.
  destruct (smoothing && (2 <=? length _)%nat) eqn:E; [|by eexists].
  apply andb_true_iff in E as [_ E]. apply Nat.leb_le in E.
  destruct (majority_vote_spec set_order set_order_spec
              (AutoLiveSystem.deque_append maxlen buf sample))
    as (t & c & -> & _).
  { intros E'. rewrite E' in E. simpl in E. lia. }
  by eexists.
Qed.

(** [get_gps_position], on the notion [positioned]. *)
Lemma get_gps_position_positioned (c : capture) :
  (if negb (default true (camera c)) then None else get_gps_position (gps c))
  = positioned c.
Proof.
  unfold positioned, get_gps_position.
  destruct (negb _); [done|].
  destruct (gps c) as [[[la lo]|]|]; try done. simpl.
  destruct la as [la|], lo as [lo|]; simpl; try done.
  - destruct (Qeq_bool la 0), (Qeq_bool lo 0); done.
  - by destruct (negb (Qeq_bool la 0)).
Qed.

Lemma add_route_point_inv (cfg : config) (c : capture) (lat lon : Q) (s : state) :
  live_inv cfg s ->
  live_inv cfg (add_route_point c lat lon s)
  /\ length (surface_detections (add_route_point c lat lon s))
     < length (route_points (add_route_point c lat lon s))
  /\ length (damage_detections (add_route_point c lat lon s))
     < length (route_points (add_route_point c lat lon s)).
Proof.
  intros (Hs & Hd & Hid & Hsev & Hq & Hcur & Hpos & Hcp & Hn1 & Hn2 & Hn3 & Hb1 & Hb2).
  unfold live_inv. simpl. rewrite length_app, last_snoc. simpl.
  split_and!; try done; try lia.
  destruct (camera c); lia.
Qed.

Lemma process_surface_inv (cfg : config) (c : capture) (lat lon : Q)
      (timestamp img : string) (s : state) :
  live_inv cfg s ->
  length (surface_detections s) < length (route_points s) ->
  exists s',
    process_surface cfg c lat lon timestamp img s = Some s'
    /\ live_inv cfg s'
    /\ route_points s' = route_points s
    /\ damage_detections s' = damage_detections s.
Proof.
  intros (Hs & Hd & Hid & Hsev & Hq & Hcur & Hpos & Hcp & Hn1 & Hn2 & Hn3 & Hb1 & Hb2) Hlt.
  assert (live_inv cfg s) as Hinv by (unfold live_inv; split_and!; done).
  unfold LiveSystem.process_surface.
  destruct (negb (surface_enabled cfg)); [by exists s|].
  destruct (too_close geodesic cfg s (lat, lon)); [by exists s|].
  destruct (smoothing_total (smoothing cfg) (smoothing_window cfg) (surface_buffer s)
              (raw_sample cfg c)) as (out & ->).
  simpl. eexists. split; [done|]. split; [|done].
  destruct (deque_append_length (smoothing_window cfg) (surface_buffer s)
              (raw_sample cfg c) Hb1) as [Hl1 Hl2].
  unfold live_inv. simpl. rewrite !length_app, !last_snoc, map_app. simpl.
  split_and!; try done; try lia.
  by apply tally_insert.
Qed.

Lemma record_damage_inv (cfg : config) (lat lon : Q) (timestamp : string) (s : state)
      (d : string * Q * list Q) :
  live_inv cfg s ->
  length (damage_detections s) < length (route_points s) ->
  live_inv cfg (record_damage cfg lat lon timestamp s d)
  /\ route_points (record_damage cfg lat lon timestamp s d) = route_points s
  /\ surface_detections (record_damage cfg lat lon timestamp s d) = surface_detections s.
Proof.
  intros (Hs & Hd & Hid & Hsev & Hq & Hcur & Hpos & Hcp & Hn1 & Hn2 & Hn3 & Hb1 & Hb2) Hlt.
  destruct d as [[damage_type confidence] bbox].
  unfold LiveSystem.record_damage. simpl. split; [|done].
  unfold live_inv. simpl. rewrite !length_app, !map_app. simpl.
  split_and!; try done; try lia.
  - by apply tally_insert.
  - rewrite Hid, seq_app. simpl. by rewrite Nat.add_comm.
  - apply Forall_app. split; [done|]. by constructor.
  - rewrite Hq. by destruct (azure_live cfg).
Qed.

Lemma process_damages_inv (cfg : config) (c : capture) (lat lon : Q)
      (timestamp : string) (s : state) :
  live_inv cfg s ->
  length (damage_detections s) < length (route_points s) ->
  live_inv cfg (process_damages cfg c lat lon timestamp s)
  /\ route_points (process_damages cfg c lat lon timestamp s) = route_points s
  /\ surface_detections (process_damages cfg c lat lon timestamp s)
     = surface_detections s.
Proof.
  intros Hinv Hlt. unfold LiveSystem.process_damages.
  destruct (negb (damage_enabled cfg)); [done|].
  unfold frame_damages. destruct (model_loaded cfg); [done|].
  destruct (drawn_damage c) as [[ty conf]|]; [|done].
  cbn [fold_left].
  by apply (record_damage_inv cfg lat lon timestamp s (ty, conf, [100; 100; 300; 300]%Q)).
Qed.

Lemma capture_and_process_inv (cfg : config) (c : capture) (s : state) :
  live_inv cfg s ->
  exists s', capture_and_process cfg c s = Some s' /\ live_inv cfg s'.
Proof.
  intros Hinv. unfold LiveSystem.capture_and_process.
  destruct (negb (default true (camera c))); [by exists s|].
  destruct (get_gps_position (gps c)) as [[lat lon]|]; [|by exists s].
  destruct (add_route_point_inv cfg c lat lon s Hinv) as (Hinv1 & Hlt1 & Hlt2).
  destruct (process_surface_inv cfg c lat lon (clock c)
              (image_path (length (route_points (add_route_point c lat lon s))))
              _ Hinv1 Hlt1) as (s2 & Hs2 & Hinv2 & Hrp & Hdd).
  cbv zeta. rewrite Hs2. simpl. eexists. split; [done|].
  apply process_damages_inv; [done|]. by rewrite Hrp, Hdd.
Qed.

Lemma initial_inv (cfg : config) : live_inv cfg initial.
Proof.
  unfold live_inv, initial. simpl. split_and!; try done; try lia.
  by destruct (azure_live cfg).
Qed.

Lemma run_inv (cfg : config) (cs : list capture) (s : state) :
  live_inv cfg s -> exists s', run cfg cs s = Some s' /\ live_inv cfg s'.
Proof.
  revert s. induction cs as [|c cs IH]; intros s Hinv; simpl; [by exists s|].
  destruct (capture_and_process_inv cfg c s Hinv) as (s1 & -> & Hinv1). simpl.
  by apply IH.
Qed.

Lemma run_app (cfg : config) (cs1 cs2 : list capture) (s : state) :
  run cfg (cs1 ++ cs2) s = run cfg cs1 s ≫= run cfg cs2.
Proof.
  revert s. induction cs1 as [|c cs1 IH]; intros s; simpl; [done|].
  destruct (capture_and_process cfg c s) as [s1|]; simpl; [apply IH|done].
Qed.

(** One pass of the loop, on the route. *)
Lemma capture_and_process_route (cfg : config) (c : capture) (s : state) :
  live_inv cfg s ->
  exists s',
    capture_and_process cfg c s = Some s'
    /\ live_inv cfg s'
    /\ match positioned c with
       | Some (lat, lon) =>
           route_points s'
           = route_points s
             ++ [{| rp_timestamp := clock c;
                    rp_latitude := lat;
                    rp_longitude := lon;
                    rp_surface_type :=
                      sd_surface_type <$> last (surface_detections s) |}]
       | None => s' = s
       end.
Proof.
  intros Hinv.
  destruct (capture_and_process_inv cfg c s Hinv) as (s' & Hs' & Hinv').
  exists s'. split; [done|]. split; [done|].
  rewrite <- get_gps_position_positioned.
  unfold LiveSystem.capture_and_process in Hs'.
  destruct (negb (default true (camera c))); [congruence|].
  destruct (get_gps_position (gps c)) as [[lat lon]|]; [|congruence].
  destruct (add_route_point_inv cfg c lat lon s Hinv) as (Hinv1 & Hlt1 & Hlt2).
  destruct (process_surface_inv cfg c lat lon (clock c)
              (image_path (length (route_points (add_route_point c lat lon s))))
              _ Hinv1 Hlt1) as (s2 & Hs2 & Hinv2 & Hrp & Hdd).
  cbv zeta in Hs'. rewrite Hs2 in Hs'. simpl in Hs'. injection Hs' as <-.
  destruct (process_damages_inv cfg c lat lon (clock c) s2 Hinv2) as (_ & -> & _).
  { by rewrite Hrp, Hdd. }
  rewrite Hrp. simpl.
  destruct Hinv as (_ & _ & _ & _ & _ & -> & _). done.
Qed.

(** X16. Whatever the captures bring, in every state the loop ends in
    the counters of the statistics agree with the lists: for every
    surface type [stats['surfaces']] holds the number of surface
    detections of that type, for every damage type [stats['damages']]
    holds the number of damage detections of that type, with no entry
    for a type that never occurred; and [total_images] never exceeds
    the number of route points. *)
Theorem live_statistics_tally_the_detections
        (cfg : config) (cs : list capture) (s : state) :
  run cfg cs initial = Some s ->
  (forall t, stats_surfaces s !! t
             = tally (map sd_surface_type (surface_detections s)) t)
  /\ (forall t, stats_damages s !! t
                = tally (map PagesDamages.damage_type (damage_detections s)) t)
  /\ total_images s <= length (route_points s).
Proof.
  intros Hret.
  destruct (run_inv cfg cs initial (initial_inv cfg))
    as (s' & Hs & H1 & H2 & _ & _ & _ & _ & _ & _ & _ & _ & H3 & _).
  rewrite Hret in Hs. by injection Hs as <-.
Qed.

(** X17. The damage detections of a session are numbered 1, 2, 3, ... in
    the order of their detection, each carries the severity that
    [calculate_severity] gives its type and confidence under the rules
    of the configuration, there is at most one for each route point, and
    the upload queue received exactly these detections, in order, if
    live upload of damages is on, and nothing otherwise. *)
Theorem damages_are_numbered_and_classified (cfg : config) (cs : list capture) :
  exists s,
    run cfg cs initial = Some s
    /\ map PagesDamages.damage_id (damage_detections s)
       = seq 1 (length (damage_detections s))
    /\ Forall (fun d => PagesDamages.severity d
                        = severity_str (AutoLiveSystem.calculate_severity
                                          (severity_rules cfg)
                                          (PagesDamages.damage_type d)
                                          (PagesDamages.confidence d)))
              (damage_detections s)
    /\ length (damage_detections s) <= length (route_points s)
    /\ upload_queue s = (if azure_live cfg then damage_detections s else []).
Proof.
  destruct (run_inv cfg cs initial (initial_inv cfg))
    as (s & Hs & _ & _ & H1 & H2 & H3 & _ & _ & _ & _ & H4 & _).
  by exists s.
Qed.

(** X18. After any number of passes, the current surface is the type of
    the last surface detection ([None] before the first), the position
    of the last surface check is the position of that detection, the
    current position is that of the last route point, there are at most
    as many surface detections as route points, and the smoothing buffer
    holds at most [smoothing_window] samples. *)
Theorem current_surface_is_the_last_detection (cfg : config) (cs : list capture) :
  exists s,
    run cfg cs initial = Some s
    /\ current_surface s = sd_surface_type <$> last (surface_detections s)
    /\ last_surface_check_pos s
       = (fun d => (sd_latitude d, sd_longitude d)) <$> last (surface_detections s)
    /\ current_position s
       = (fun p => (rp_latitude p, rp_longitude p)) <$> last (route_points s)
    /\ length (surface_detections s) <= length (route_points s)
    /\ length (surface_buffer s) <= smoothing_window cfg.
Proof.
  destruct (run_inv cfg cs initial (initial_inv cfg))
    as (s & Hs & _ & _ & _ & _ & _ & H1 & H2 & H3 & H4 & _ & _ & H5 & _).
  by exists s.
Qed.

(** X19. A route point is labelled with the surface known before its
    capture: the pass for a capture with a position appends one route
    point with the time and position of the capture and the type of the
    last surface detection made by the earlier captures, never the
    detection of its own frame; the first route point has no label. *)
Theorem route_point_carries_the_previous_surface
        (cfg : config) (cs : list capture) (c : capture) (lat lon : Q) :
  positioned c = Some (lat, lon) ->
  exists s s',
    run cfg cs initial = Some s
    /\ run cfg (cs ++ [c]) initial = Some s'
    /\ route_points s'
       = route_points s
         ++ [{| rp_timestamp := clock c;
                rp_latitude := lat;
                rp_longitude := lon;
                rp_surface_type := sd_surface_type <$> last (surface_detections s) |}]
    /\ (route_points s = [] -> surface_detections s = []).
Proof.
  intros Hpos.
  destruct (run_inv cfg cs initial (initial_inv cfg)) as (s & Hs & Hinv).
  destruct (capture_and_process_route cfg c s Hinv) as (s' & Hs' & _ & Hroute).
  rewrite Hpos in Hroute.
  exists s, s'. rewrite run_app, Hs. simpl. rewrite Hs'. split_and!; try done.
  destruct Hinv as (_ & _ & _ & _ & _ & _ & _ & _ & Hn & _).
  intros E. rewrite E in Hn. simpl in Hn. destruct (surface_detections s); [done|].
  simpl in Hn. lia.
Qed.

(** X20. A capture without a usable position changes nothing: when the
    camera fails, when the GPS module has no data, or when the latitude
    or the longitude is missing or 0 (a position on the equator or on
    the prime meridian), the pass returns with the state as it was: no
    route point, no detection, no image counted. *)
Theorem capture_without_position_changes_nothing
        (cfg : config) (c : capture) (s : state) :
  camera c = Some false
  \/ gps c = Some None
  \/ (exists data,
         gps c = Some (Some data)
         /\ (GroupDamages.latitude data = None
             \/ GroupDamages.longitude data = None
             \/ (exists q, GroupDamages.latitude data = Some q /\ (q == 0)%Q)
             \/ (exists q, GroupDamages.longitude data = Some q /\ (q == 0)%Q))) ->
  capture_and_process cfg c s = Some s.
Proof.
  intros Hc. unfold LiveSystem.capture_and_process.
  destruct Hc as [->|Hc]; [done|].
  destruct (negb (default true (camera c))); [done|].
  assert (get_gps_position (gps c) = None) as ->; [|done].
  destruct Hc as [->|(data & -> & Hdata)]; [done|]. simpl.
  destruct Hdata as [->|[->|[(q & -> & Hq)|(q & -> & Hq)]]]; simpl.
  - done.
  - by rewrite andb_false_r.
  - apply Qeq_bool_iff in Hq. by rewrite Hq.
  - apply Qeq_bool_iff in Hq. by rewrite Hq, andb_false_r.
Qed.
End LiveSystemFacts.

Lemma fold_left_Qplus_const (xs : list Q) (a c : Q) :
  Forall (fun x => (x == c)%Q) xs ->
  (fold_left Qplus xs a == a + inject_Z (Z.of_nat (length xs)) * c)%Q.
Proof.
  intros Hall. revert a. induction Hall as [|x xs Hx _ IH]; intros a.
  - simpl. ring.
  - cbn [fold_left length]. rewrite IH, Hx, Nat2Z.inj_succ, <- Z.add_1_r, inject_Z_plus.
    ring.
Qed.

Lemma mean_const (xs : list Q) (c m : Q) :
  Forall (fun x => (x == c)%Q) xs -> AutoLiveSystem.mean xs = Some m -> (m == c)%Q.
Proof.
  intros Hall. unfold AutoLiveSystem.mean, py_div, py_sum.
  destruct (Nat.eqb_spec (length xs) 0) as [|Hn]; [done|]. intros [= <-].
  rewrite (fold_left_Qplus_const xs 0 c Hall). field.
  change 0%Q with (inject_Z 0). rewrite inject_Z_injective. lia.
Qed.

Lemma deque_append_Forall {A : Type} (P : A -> Prop) (maxlen : nat) (buf : list A) (x : A) :
  Forall P buf -> P x -> Forall P (AutoLiveSystem.deque_append maxlen buf x).
Proof.
  intros Hbuf Hx. unfold AutoLiveSystem.deque_append.
  destruct (maxlen =? 0)%nat; [done|].
  destruct (length buf <? maxlen)%nat.
  - apply Forall_app. split; [done|by constructor].
  - apply Forall_app. split; [|by constructor].
    destruct Hbuf; [done|]. done.
Qed.

(** A full deque drops its oldest entry: the buffer is the end of the
    list of samples. *)
Lemma deque_append_drop {A : Type} (maxlen : nat) (l : list A) (x : A) :
  AutoLiveSystem.deque_append maxlen (drop (length l - maxlen) l) x
  = drop (length (l ++ [x]) - maxlen) (l ++ [x]).
Proof.
  unfold AutoLiveSystem.deque_append. rewrite length_drop, length_app. simpl.
  destruct (Nat.eqb_spec maxlen 0) as [->|Hn].
  - rewrite !Nat.sub_0_r, drop_all. symmetry. apply drop_ge.
    rewrite length_app. simpl. lia.
  - destruct (Nat.ltb_spec (length l - (length l - maxlen)) maxlen) as [Hlt|Hge].
    + assert (length l < maxlen) as Hl by lia.
      replace (length l - maxlen) with 0 by lia.
      replace (length l + 1 - maxlen) with 0 by lia. done.
    + assert (maxlen <= length l) as Hl by lia.
      replace (length l + 1 - maxlen) with ((length l - maxlen) + 1) by lia.
      rewrite drop_app_le by lia. f_equal.
      rewrite <- drop_drop. by destruct (drop (length l - maxlen) l).
Qed.

Section LoadedModel.
Import LiveSystem.
Variable geodesic : option (Q * Q -> Q * Q -> Q).
Variable set_order : list string -> list string.
Variable image_path : nat -> string.
Variable damage_path : nat -> string.
Hypothesis set_order_spec : set_order_ok set_order.

Local Abbreviation capture_and_process :=
  (capture_and_process geodesic set_order image_path damage_path).
Local Abbreviation run := (run geodesic set_order image_path damage_path).

(** The recorded sample over a window of equal samples is that sample. *)
Lemma smoothing_const (smoothing : bool) (maxlen : nat) (buf : list (string * Q))
      (t : string) (c : Q) :
  Forall (fun x => x = (t, c)) buf ->
  exists out,
    AutoLiveSystem.process_surface set_order smoothing maxlen buf (t, c)
    = Some (AutoLiveSystem.deque_append maxlen buf (t, c), out)
    /\ out.1 = t /\ (out.2 == c)%Q.
Proof.
  intros Hbuf. unfold AutoLiveSystem.process_surface.
  pose proof (deque_append_Forall _ maxlen buf (t, c) Hbuf eq_refl) as Hwin.
  destruct (smoothing && (2 <=? length _)%nat) eqn:E; [|by eexists].
  apply andb_true_iff in E as [_ E]. apply Nat.leb_le in E.
  destruct (majority_vote_spec set_order set_order_spec
              (AutoLiveSystem.deque_append maxlen buf (t, c)))
    as (t' & c' & -> & _ & Hin & _ & Hmean).
  { intros E'. rewrite E' in E. simpl in E. lia. }
  simpl. eexists. split; [done|]. simpl.
  apply list_elem_of_fmap in Hin as ([t0 c0] & -> & Hin).
  rewrite Forall_forall in Hwin. pose proof (Hwin _ Hin) as [= -> ->].
  split; [done|]. eapply mean_const; [|exact Hmean].
  apply Forall_fmap, Forall_forall. intros [t1 c1] [_ H1]%list_elem_of_filter.
  apply Hwin in H1 as [= -> ->]. done.
Qed.

Lemma capture_and_process_loaded (cfg : config) (c : capture) (s : state) :
  model_loaded cfg = true -> loaded_inv s ->
  exists s', capture_and_process cfg c s = Some s' /\ loaded_inv s'.
Proof.
  intros Hm (Hbuf & Hsd & Hdd & Hst & Hq). unfold LiveSystem.capture_and_process.
  destruct (negb (default true (camera c))); [by exists s|].
  destruct (get_gps_position (gps c)) as [[lat lon]|]; [|by exists s].
  cbv zeta. unfold LiveSystem.process_surface, LiveSystem.process_damages, frame_damages.
  rewrite Hm. cbn [add_route_point surface_buffer last_surface_check_pos].
  assert (forall s', (if negb (damage_enabled cfg)
                      then s'
                      else fold_left (record_damage damage_path cfg lat lon (clock c)) [] s')
                     = s') as Hd.
  { intros s'. by destruct (negb (damage_enabled cfg)). }
  destruct (negb (surface_enabled cfg)).
  { simpl. rewrite Hd. eexists. split; [done|]. by split_and!. }
  match goal with |- context [too_close ?g ?cfg ?s1 ?p] => destruct (too_close g cfg s1 p) end.
  { simpl. rewrite Hd. eexists. split; [done|]. by split_and!. }
  unfold raw_sample. rewrite Hm.
  destruct (smoothing_const (smoothing cfg) (smoothing_window cfg) (surface_buffer s)
              "asphalt_good" 0.85 Hbuf) as (out & -> & Ht & Hc).
  simpl. rewrite Hd. eexists. split; [done|]. unfold loaded_inv. simpl.
  split_and!; try done.
  - by apply deque_append_Forall.
  - apply Forall_app. split; [done|]. by constructor.
Qed.

(** X21. With a model loaded, the results of the inference are not
    read: whatever the frames show, every surface detection of the
    session is 'asphalt_good' with confidence 0.85, also after smoothing,
    and no damage is ever detected, counted or queued. *)
Theorem loaded_model_reports_one_surface_and_no_damage
        (cfg : config) (cs : list capture) :
  model_loaded cfg = true ->
  exists s,
    run cfg cs initial = Some s
    /\ Forall (fun d => sd_surface_type d = "asphalt_good"%string
                        /\ (sd_confidence d == 0.85)%Q) (surface_detections s)
    /\ damage_detections s = []
    /\ stats_damages s = ∅
    /\ upload_queue s = [].
Proof.
  intros Hm.
  assert (forall s, loaded_inv s -> exists s', run cfg cs s = Some s' /\ loaded_inv s') as H.
  { induction cs as [|c cs' IH]; intros s Hinv; simpl; [by exists s|].
    destruct (capture_and_process_loaded cfg c s Hm Hinv) as (s1 & -> & Hinv1). simpl.
    by apply IH. }
  destruct (H initial) as (s & Hs & _ & H1 & H2 & H3 & H4).
  { unfold loaded_inv, initial. simpl. by split_and!. }
  by exists s.
Qed.
End LoadedModel.

Section WithoutGeopy.
Import LiveSystem.
Variable set_order : list string -> list string.
Variable image_path : nat -> string.
Variable damage_path : nat -> string.
Hypothesis set_order_spec : set_order_ok set_order.

Local Abbreviation capture_and_process :=
  (capture_and_process None set_order image_path damage_path).
Local Abbreviation run := (run None set_order image_path damage_path).

Lemma process_damages_keeps (cfg : config) (c : capture) (lat lon : Q)
      (timestamp : string) (s : state) :
  let s' := process_damages damage_path cfg c lat lon timestamp s in
  route_points s' = route_points s
  /\ surface_detections s' = surface_detections s
  /\ surface_buffer s' = surface_buffer s
  /\ total_distance_km s' = total_distance_km s.
Proof.
  unfold process_damages, frame_damages.
  destruct (negb (damage_enabled cfg)); [done|].
  destruct (model_loaded cfg); [done|].
  by destruct (drawn_damage c) as [[ty conf]|].
Qed.

Lemma capture_and_process_measured (cfg : config) (raws : list (string * Q))
      (c : capture) (s : state) :
  surface_enabled cfg = true ->
  measured_inv cfg raws s ->
  exists s',
    capture_and_process cfg c s = Some s'
    /\ measured_inv cfg (raws ++ raw_samples cfg [c]) s'
    /\ total_distance_km s' = total_distance_km s.
Proof.
  intros Hen [Hsd Hbuf]. unfold LiveSystem.capture_and_process, raw_samples.
  pose proof (get_gps_position_positioned c) as Hp.
  rewrite filter_cons, filter_nil.
  destruct (negb (default true (camera c))).
  { rewrite <- Hp. rewrite decide_False by (by intros [? ?]).
    rewrite app_nil_r. by exists s. }
  rewrite <- Hp. destruct (get_gps_position (gps c)) as [[lat lon]|].
  2:{ rewrite decide_False by (by intros [? ?]). rewrite app_nil_r. by exists s. }
  rewrite decide_True by done. cbv zeta.
  unfold LiveSystem.process_surface. rewrite Hen. cbn [negb].
  assert (forall s1, too_close None cfg s1 (lat, lon) = false) as ->.
  { intros s1. unfold too_close. by destruct (last_surface_check_pos s1). }
  cbn [add_route_point surface_buffer].
  destruct (smoothing_total set_order set_order_spec (smoothing cfg) (smoothing_window cfg)
              (surface_buffer s) (raw_sample cfg c)) as (out & ->).
  cbn -[process_damages].
  eexists. split; [done|]. unfold measured_inv.
  match goal with |- context [process_damages ?dp ?cfg ?c ?la ?lo ?ts ?s2] =>
    destruct (process_damages_keeps cfg c la lo ts s2) as (-> & -> & -> & ->)
  end.
  cbn. split; [|by destruct (last (route_points s))].
  split.
  - rewrite !map_app, Hsd. done.
  - rewrite Hbuf. apply deque_append_drop.
Qed.

Lemma run_measured (cfg : config) (cs : list capture) (raws : list (string * Q))
      (s : state) :
  surface_enabled cfg = true ->
  measured_inv cfg raws s ->
  exists s',
    run cfg cs s = Some s'
    /\ measured_inv cfg (raws ++ raw_samples cfg cs) s'
    /\ total_distance_km s' = total_distance_km s.
Proof.
  intros Hen. revert raws s. induction cs as [|c cs IH]; intros raws s Hinv.
  - exists s. unfold raw_samples. simpl. by rewrite app_nil_r.
  - destruct (capture_and_process_measured cfg raws c s Hen Hinv) as (s1 & Hs1 & Hinv1 & Hd1).
    destruct (IH _ s1 Hinv1) as (s' & Hs' & Hinv' & Hd').
    exists s'. simpl. rewrite Hs1. simpl. split; [done|]. split; [|congruence].
    replace (raws ++ raw_samples cfg (c :: cs))
      with ((raws ++ raw_samples cfg [c]) ++ raw_samples cfg cs); [done|].
    rewrite <- app_assoc. f_equal. unfold raw_samples.
    rewrite <- map_app, <- filter_app. done.
Qed.

(** X22. Without geopy (and with surface detection on) the distance
    test is never made: every capture with a position is measured, so
    the surface detections match the route points one to one, with the
    same times and positions; the smoothing buffer holds the last
    [smoothing_window] samples of the inference; and the distance of
    the session stays 0.0. *)
Theorem without_geopy_every_point_is_measured (cfg : config) (cs : list capture) :
  surface_enabled cfg = true ->
  exists s,
    run cfg cs initial = Some s
    /\ map (fun d => (sd_timestamp d, sd_latitude d, sd_longitude d))
           (surface_detections s)
       = map (fun p => (rp_timestamp p, rp_latitude p, rp_longitude p)) (route_points s)
    /\ surface_buffer s
       = drop (length (raw_samples cfg cs) - smoothing_window cfg) (raw_samples cfg cs)
    /\ total_distance_km s = 0%Q.
Proof.
  intros Hen.
  destruct (run_measured cfg cs [] initial Hen) as (s & Hs & [H1 H2] & H3); [done|].
  by exists s.
Qed.
End WithoutGeopy.

(** X23. What a session saves is published whole: from route.geojson
    and surfaces.json as [save_session_data] writes them,
    [generate_route_geojson] makes features whose coordinates,
    concatenated, are the positions [[lon, lat]] of the route points of
    the session, in order, whether the route is segmented or not and
    whether geopy is there or not. *)
Theorem saved_route_is_published_whole
        (geodesic : option (Q * Q -> Q * Q -> Q)) (route_segments : bool)
        (now session_id : string) (s : LiveSystem.state) :
  exists doc,
    PagesRoute.generate_route_geojson geodesic route_segments now session_id
      (LiveSystem.saved_route s) (LiveSystem.saved_surfaces s) = Some doc
    /\ concat (map (fun f => PagesRoute.g_coordinates (PagesRoute.f_geometry f))
                   (PagesRoute.features doc))
       = map (fun p => (LiveSystem.rp_longitude p, LiveSystem.rp_latitude p))
             (LiveSystem.route_points s)
    /\ PagesRoute.m_segments doc = length (PagesRoute.features doc).
Proof.
  unfold PagesRoute.generate_route_geojson, LiveSystem.saved_route. simpl.
  eexists. split; [done|]. simpl. split; [|done].
  destruct route_segments; simpl.
  - by rewrite segment_features_coords, segment_by_surface_concat.
  - by rewrite app_nil_r.
Qed.

(** ** The live system on the sample captures *)

Section LiveSystemExamples.
Import LiveSystem.

Local Abbreviation sample_run :=
  (run (Some meridian_geodesic) remove_dups sample_image_path sample_damage_path).

(** X16 on the sample captures: two smoothed surface detections of
    asphalt, none of gravel, one pothole. *)
Lemma live_statistics_tally_the_detections_witness :
  exists s,
    sample_run sample_config sample_captures initial = Some s
    /\ stats_surfaces s !! "asphalt_good"%string = Some 2
    /\ stats_surfaces s !! "gravel"%string = None
    /\ stats_damages s !! "pothole"%string = Some 1
    /\ total_images s <= length (route_points s).
Proof.
  destruct (sample_run sample_config sample_captures initial) as [s|] eqn:E;
    [|by vm_compute in E].
  exists s. split; [done|].
  destruct (live_statistics_tally_the_detections (Some meridian_geodesic) remove_dups
              sample_image_path sample_damage_path remove_dups_set_order
              sample_config sample_captures s E) as (Hsurfaces & Hdamages & Hn).
  rewrite !Hsurfaces, Hdamages.
  split_and!; [..|exact Hn]; vm_compute in E; injection E as <-; vm_compute; reflexivity.
Defined.

Lemma damages_are_numbered_and_classified_witness :
  exists s,
    sample_run sample_config sample_captures initial = Some s
    /\ map PagesDamages.damage_id (damage_detections s)
       = seq 1 (length (damage_detections s)).
Proof.
  destruct (damages_are_numbered_and_classified (Some meridian_geodesic) remove_dups
              sample_image_path sample_damage_path remove_dups_set_order
              sample_config sample_captures) as (s & Hs & Hid & _).
  exists s. split; [exact Hs|exact Hid].
Defined.

Lemma current_surface_is_the_last_detection_witness :
  exists s,
    sample_run sample_config sample_captures initial = Some s
    /\ current_surface s = sd_surface_type <$> last (surface_detections s).
Proof.
  destruct (current_surface_is_the_last_detection (Some meridian_geodesic) remove_dups
              sample_image_path sample_damage_path remove_dups_set_order
              sample_config sample_captures) as (s & Hs & Hcur & _).
  exists s. split; [exact Hs|exact Hcur].
Defined.

Lemma route_point_carries_the_previous_surface_witness :
  exists s s',
    sample_run sample_config (take 2 sample_captures) initial = Some s
    /\ sample_run sample_config sample_captures initial = Some s'
    /\ route_points s'
       = route_points s
         ++ [{| rp_timestamp := "2025-10-27T13:47:03";
                rp_latitude := 50.0001;
                rp_longitude := 8;
                rp_surface_type := sd_surface_type <$> last (surface_detections s) |}].
Proof.
  destruct (route_point_carries_the_previous_surface (Some meridian_geodesic) remove_dups
              sample_image_path sample_damage_path remove_dups_set_order
              sample_config (take 2 sample_captures)
              (capture_at "2025-10-27T13:47:03" (Some 50.0001%Q) "gravel"
                          (Some ("pothole"%string, 0.9%Q)))
              50.0001 8 eq_refl) as (s & s' & Hs & Hs' & Hroute & _).
  exists s, s'. split; [exact Hs|]. split; [exact Hs'|exact Hroute].
Defined.

Lemma capture_without_position_changes_nothing_witness :
  capture_and_process (Some meridian_geodesic) remove_dups sample_image_path
    sample_damage_path sample_config
    (capture_at "2025-10-27T13:47:02" None "gravel" None) initial
  = Some initial.
Proof.
  apply capture_without_position_changes_nothing.
  right. right. eexists. split; [reflexivity|]. left. reflexivity.
Defined.

Lemma loaded_model_reports_one_surface_and_no_damage_witness :
  exists s,
    sample_run sample_config_model sample_captures initial = Some s
    /\ damage_detections s = [].
Proof.
  destruct (loaded_model_reports_one_surface_and_no_damage (Some meridian_geodesic)
              remove_dups sample_image_path sample_damage_path remove_dups_set_order
              sample_config_model sample_captures eq_refl) as (s & Hs & _ & Hd & _).
  exists s. split; [exact Hs|exact Hd].
Defined.

Lemma without_geopy_every_point_is_measured_witness :
  exists s,
    run None remove_dups sample_image_path sample_damage_path
      sample_config sample_captures initial = Some s
    /\ total_distance_km s = 0%Q.
Proof.
  destruct (without_geopy_every_point_is_measured remove_dups sample_image_path
              sample_damage_path remove_dups_set_order sample_config sample_captures
              eq_refl) as (s & Hs & _ & _ & Hd).
  exists s. split; [exact Hs|exact Hd].
Defined.
End LiveSystemExamples.

(** ** The session around the upload *)

Section EdgeSessionFacts.
Import EdgeMain EdgeSession.
Variable batch_size : Z.
Variable max_files : Z.

Local Abbreviation sorted_by_mtime :=
  (py_sorted Qle_bool (fun p : string * file => st_mtime p.2)).


Lemma upload_accepted_empties (c : clock) (ride : option string) (s : system) :
  session_data (upload_to_cloud max_files c (Accepted ride) s) = [].
Proof.
  destruct (session_data s) eqn:E.
  - unfold upload_to_cloud. by rewrite E.
  - rewrite upload_accepted; [done|]. by rewrite E.
Qed.





(** X25. An accepted upload empties the buffer, whatever it held, and
    touches no backup file; if the buffer was not empty, the whole
    buffer was posted as one payload and the ride id of the answer is
    kept; with an empty buffer nothing is posted at all. *)
Theorem accepted_upload_empties_the_buffer (c : clock) (ride : option string)
        (s : system) :
  let s' := upload_to_cloud max_files c (Accepted ride) s in
  session_data s' = []
  /\ backup_dir s' = backup_dir s
  /\ posted s'
     = match session_data s with [] => posted s | _ => posted s ++ [session_data s] end
  /\ ride_id s' = match session_data s with [] => ride_id s | _ => ride end.
Proof.
  intros s'. split; [apply upload_accepted_empties|].
  unfold s'. destruct (session_data s) as [|r rs] eqn:E.
  - unfold upload_to_cloud. by rewrite E.
  - rewrite upload_accepted by (by rewrite E). simpl. by rewrite E.
Qed.

Lemma unlink_all_lookup_Some (del : list (string * file)) (dir : gmap string file)
      (name : string) (f : file) :
  unlink_all del dir !! name = Some f -> dir !! name = Some f.
Proof.
  revert dir. induction del as [|[name' f'] del IH]; intros dir; simpl; [done|].
  intros H. apply IH in H. by apply lookup_delete_Some in H as [_ H].
Qed.

Lemma cleanup_old_backups_lookup_Some (dir : gmap string file) (name : string) (f : file) :
  cleanup_old_backups max_files dir !! name = Some f -> dir !! name = Some f.
Proof.
  unfold cleanup_old_backups. destruct (_ >? _)%Z; [|done]. apply unlink_all_lookup_Some.
Qed.

Lemma unlink_all_other_files (del : list (string * file)) (dir : gmap string file)
      (name : string) :
  Forall (fun p => is_backup_name p.1 = true) del ->
  is_backup_name name = false ->
  unlink_all del dir !! name = dir !! name.
Proof.
  intros Hdel Hname. apply lookup_unlink_all.
  intros ([name' f'] & -> & Hin)%list_elem_of_fmap.
  rewrite Forall_forall in Hdel. apply Hdel in Hin. simpl in *. congruence.
Qed.

(** X26. Rotation with a limit of at least one: the files that are not
    backups are untouched, no file is created or changed, the number of
    backup files left is the smaller of the limit and the number before,
    and the backups that were removed are the oldest: none of them is
    newer than a backup that was kept. *)
Theorem rotation_keeps_the_newest_backups (dir : gmap string file) :
  (1 <= max_files)%Z ->
  let dir' := cleanup_old_backups max_files dir in
  (forall name, is_backup_name name = false -> dir' !! name = dir !! name)
  /\ (forall name f, dir' !! name = Some f -> dir !! name = Some f)
  /\ length (glob dir') = Nat.min (length (glob dir)) (Z.to_nat max_files)
  /\ (forall name f name' f',
         (name, f) ∈ glob dir -> dir' !! name = None ->
         (name', f') ∈ glob dir' ->
         (st_mtime f <= st_mtime f')%Q).
Proof.
  intros Hmax dir'.
  pose proof (glob_cleanup_old_backups max_files dir) as Hglob. cbv zeta in Hglob.
  fold dir' in Hglob.
  pose proof (sorted_by_mtime_Permutation dir) as Hperm.
  pose proof (sorted_by_mtime_sorted dir) as Hsorted.
  assert (length (sorted_by_mtime (glob dir)) = length (glob dir)) as Hlen
      by (by rewrite Hperm).
  unfold dir', cleanup_old_backups in *.
  destruct (Z.gtb_spec (Z.of_nat (length (sorted_by_mtime (glob dir)))) max_files)
    as [Hgt|Hle].
  - set (del := slice_to (- max_files) (sorted_by_mtime (glob dir))) in *.
    assert (length del = length (glob dir) - Z.to_nat max_files) as Hdel.
    { unfold del, slice_to. destruct (Z.ltb_spec (- max_files) 0); [|lia].
      rewrite length_take_le by lia. lia. }
    assert (sorted_by_mtime (glob dir)
            = del ++ drop (length del) (sorted_by_mtime (glob dir))) as Hsplit.
    { unfold del at 1, slice_to. rewrite Hdel.
      destruct (Z.ltb_spec (- max_files) 0); [|lia].
      replace (Z.to_nat (Z.max 0 (Z.of_nat (length (sorted_by_mtime (glob dir)))
                                  + - max_files)))
        with (length (glob dir) - Z.to_nat max_files) by lia.
      by rewrite take_drop. }
    split_and!.
    + intros name Hname. apply unlink_all_other_files; [|done].
      apply Forall_forall. intros [n f] Hin.
      assert ((n, f) ∈ glob dir) as Hin'.
      { rewrite <- Hperm, Hsplit. apply elem_of_app. by left. }
      by apply elem_of_glob in Hin' as [_ ?].
    + intros name f. apply unlink_all_lookup_Some.
    + rewrite Hglob, length_drop, Hdel. lia.
    + intros name f name' f' Hin Hnone Hin'.
      rewrite Hglob in Hin'. rewrite <- Hperm, Hsplit in Hin.
      apply elem_of_app in Hin as [Hin|Hin].
      * rewrite Hsplit in Hsorted.
        pose proof (StronglySorted_app_1_elem_of _ _ _ _ _ Hsorted Hin Hin') as Hs. unfold mtime_le, key_le in Hs. simpl in Hs.
        by apply Qle_bool_iff in Hs.
      * exfalso.
        assert ((name, f) ∈ glob (unlink_all del dir)) as Hk by (by rewrite Hglob).
        apply elem_of_glob in Hk as [Hk _]. congruence.
  - split_and!; try done.
    + lia.
    + intros name f name' f' [Hin _]%elem_of_glob Hnone. congruence.
Qed.

(** X27. A shutdown whose last upload fails writes the buffer to disk
    twice: once by the failed upload and once more by [cleanup], which
    finds the buffer still full.  The buffer itself is left as it was,
    both backup files hold the features of all buffered records, and
    (with a limit of at least one and a clock that has moved on past the
    older backups) the file of the second backup is in the directory
    afterwards.  After an accepted upload no backup is written. *)
Theorem failed_shutdown_backs_up_twice (c1 c2 : clock) (resp : response) (s : system) :
  session_data s <> [] ->
  (forall ride, resp <> Accepted ride) ->
  let s' := cleanup max_files c1 c2 resp s in
  let backup c := {| content := convert_to_geojson (isoformat c) (session_data s);
                     st_mtime := now c |} in
  session_data s' = session_data s
  /\ posted s' = posted s ++ [session_data s]
  /\ backup_dir s'
     = cleanup_old_backups max_files
         (<[backup_name c2 := backup c2]>
            (cleanup_old_backups max_files
               (<[backup_name c1 := backup c1]> (backup_dir s))))
  /\ features (content (backup c2)) = map to_feature (session_data s)
  /\ ((1 <= max_files)%Z ->
      (forall name f, backup_dir s !! name = Some f -> is_backup_name name = true ->
                      (st_mtime f < now c2)%Q) ->
      (backup_name c1 <> backup_name c2 -> (now c1 < now c2)%Q) ->
      backup_dir s' !! backup_name c2 = Some (backup c2))
  /\ (forall ride,
         backup_dir (cleanup max_files c1 c2 (Accepted ride) s) = backup_dir s).
Proof.
  intros Hne Hresp s' backup.
  assert (s' = {| session_data := session_data s; ride_id := ride_id s;
                  backup_dir :=
                    cleanup_old_backups max_files
                      (<[backup_name c2 := backup c2]>
                         (cleanup_old_backups max_files
                            (<[backup_name c1 := backup c1]> (backup_dir s))));
                  posted := posted s ++ [session_data s] |}) as Hs'.
  { unfold s', cleanup. rewrite upload_failed by done.
    unfold save_local_backup. simpl. by destruct (session_data s). }
  split_and!; try (by rewrite Hs').
  - done.
  - intros Hmax Hold Hclock. rewrite Hs'. simpl.
    apply cleanup_old_backups_newest.
    + done.
    + by rewrite lookup_insert_eq.
    + apply backup_name_is_backup_name.
    + intros name' f' Hf' Hb' Hne'. rewrite lookup_insert_ne in Hf' by done.
      apply cleanup_old_backups_lookup_Some in Hf'.
      destruct (decide (name' = backup_name c1)) as [->|Hne1].
      * rewrite lookup_insert_eq in Hf'. injection Hf' as <-. simpl. by apply Hclock.
      * rewrite lookup_insert_ne in Hf' by done. by apply (Hold name').
  - intros ride. unfold cleanup. rewrite upload_accepted by done. simpl.
    by destruct (session_data s).
Qed.
End EdgeSessionFacts.

Lemma rotation_keeps_the_newest_backups_witness :
  length (EdgeMain.glob (EdgeMain.cleanup_old_backups 1 sample_backups))
  = Nat.min (length (EdgeMain.glob sample_backups)) (Z.to_nat 1).
Proof.
  destruct (rotation_keeps_the_newest_backups 1 sample_backups) as (_ & _ & H & _).
  - lia.
  - exact H.
Defined.

Lemma failed_shutdown_backs_up_twice_witness :
  EdgeMain.session_data (EdgeSession.cleanup 5 clock1 clock2 EdgeMain.ConnectionError system0)
  = ten_records.
Proof.
  destruct (failed_shutdown_backs_up_twice 5 clock1 clock2 EdgeMain.ConnectionError system0)
    as (H & _).
  - apply (bool_decide_unpack _). vm_compute. reflexivity.
  - apply connection_error_not_accepted.
  - exact H.
Defined.

Section PostedPayloads.
Import EdgeMain EdgeSession.
Variable batch_size : Z.
Variable max_files : Z.

Lemma upload_to_cloud_posted (c : clock) (resp : response) (s : system) :
  posted (upload_to_cloud max_files c resp s)
  = posted s ++ match session_data s with [] => [] | _ => [session_data s] end.
Proof.
  destruct (session_data s) as [|r rs] eqn:E.
  - unfold upload_to_cloud. by rewrite E, app_nil_r.
  - rewrite <- E. destruct resp as [ride| | |].
    + rewrite upload_accepted; [done|]. by rewrite E.
    + rewrite upload_failed; [done| |done]. by rewrite E.
    + rewrite upload_failed; [done| |done]. by rewrite E.
    + rewrite upload_failed; [done| |done]. by rewrite E.
Qed.

Lemma save_local_backup_posted (c : clock) (data : option (list record)) (s : system) :
  posted (save_local_backup max_files c data s) = posted s.
Proof. unfold save_local_backup. by destruct (default _ data). Qed.

Lemma step_posted (s : system) (e : event) :
  exists payloads,
    posted (step batch_size max_files s e) = posted s ++ payloads
    /\ Forall (fun p => p <> [] /\ p = session_data s) payloads
    /\ length payloads <= 1.
Proof.
  destruct e as [r|c resp|c1 c2 resp]; simpl.
  - exists []. rewrite app_nil_r. split_and!; [done..|simpl; lia].
  - unfold periodic_upload. destruct (batch_size <=? _)%Z.
    + rewrite upload_to_cloud_posted. eexists. split; [done|].
      destruct (session_data s) eqn:E; [split; [done|simpl; lia]|].
      split; [by constructor|simpl; lia].
    + exists []. rewrite app_nil_r. split_and!; [done..|simpl; lia].
  - unfold cleanup. destruct (session_data s) as [|r rs] eqn:E.
    + exists []. rewrite app_nil_r. split_and!; [done..|simpl; lia].
    + exists [r :: rs]. split; [|split; [by constructor|simpl; lia]].
      assert (posted (upload_to_cloud max_files c1 resp s) = posted s ++ [r :: rs]) as Hp.
      { by rewrite upload_to_cloud_posted, E. }
      destruct (session_data (upload_to_cloud max_files c1 resp s)); [done|].
      by rewrite save_local_backup_posted.
Qed.

(** X28. The edge never posts an empty payload: through any sequence of
    detections, due uploads and shutdowns, every request sent to the
    cloud during the session carries at least one record (an empty
    buffer returns before [requests.post]), there is at most one
    request for each event, and the requests posted before stay as they
    were. *)
Theorem posted_payloads_are_never_empty (events : list event) (s : system) :
  exists payloads,
    posted (session batch_size max_files events s) = posted s ++ payloads
    /\ Forall (fun p => p <> []) payloads
    /\ length payloads <= length events.
Proof.
  revert s. induction events as [|e events IH]; intros s.
  - exists []. simpl. rewrite app_nil_r. split_and!; [done..|lia].
  - destruct (step_posted s e) as (p1 & Hp1 & Hne1 & Hlen1).
    destruct (IH (step batch_size max_files s e)) as (p2 & Hp2 & Hne2 & Hlen2).
    exists (p1 ++ p2). split_and!.
    + change (session batch_size max_files (e :: events) s)
        with (session batch_size max_files events (step batch_size max_files s e)).
      by rewrite Hp2, Hp1, app_assoc.
    + apply Forall_app. split; [|done].
      eapply Forall_impl; [exact Hne1|]. by intros p [? _].
    + rewrite length_app. simpl. lia.
Qed.
End PostedPayloads.

(** ** The GPS module *)

Section GpsModuleFacts.
Import GpsModule.



End GpsModuleFacts.

(** ** The demo route *)

Lemma lookup_concat_uniform {A : Type} (n : nat) (blocks : list (list A)) (i j : nat) :
  Forall (fun b => length b = n) blocks -> j < n ->
  concat blocks !! (i * n + j) = blocks !! i ≫= (fun b => b !! j).
Proof.
  intros Hall Hj. revert i. induction Hall as [|b blocks Hb _ IH]; intros i.
  - simpl. by rewrite !lookup_nil.
  - destruct i as [|i]; simpl.
    + rewrite lookup_app_l by lia. done.
    + rewrite lookup_app_r by lia. rewrite <- IH. f_equal. lia.
Qed.

Lemma length_concat_uniform {A : Type} (n : nat) (blocks : list (list A)) :
  Forall (fun b => length b = n) blocks -> length (concat blocks) = length blocks * n.
Proof.
  induction 1 as [|b blocks Hb _ IH]; simpl; [done|]. rewrite length_app, IH, Hb. done.
Qed.

Section DemoFacts.
Import Demo.

Lemma mapM_segment_points (waypoints : list point) (pps : Z) (m : nat) :
  m <= length waypoints - 1 ->
  exists segments,
    mapM (segment_points waypoints pps) (seq 0 m) = Some segments
    /\ length segments = m
    /\ Forall (fun b => length b = Z.to_nat pps) segments
    /\ forall i p1 p2,
        i < m -> waypoints !! i = Some p1 -> waypoints !! (i + 1) = Some p2 ->
        segments !! i = Some (map (interpolate pps p1 p2) (seq 0 (Z.to_nat pps))).
Proof.
  induction m as [|m IH]; intros Hm.
  - exists []. split_and!; try done. intros; lia.
  - destruct IH as (segments & Hseg & Hlen & Hall & Hlook); [lia|].
    destruct (lookup_lt_is_Some_2 waypoints m) as [p1 Hp1]; [lia|].
    destruct (lookup_lt_is_Some_2 waypoints (m + 1)) as [p2 Hp2]; [lia|].
    exists (segments ++ [map (interpolate pps p1 p2) (seq 0 (Z.to_nat pps))]).
    rewrite seq_S. simpl. split_and!.
    + apply mapM_Some. apply Forall2_app.
      * by apply mapM_Some.
      * constructor; [|done]. unfold segment_points. by rewrite Hp1, Hp2.
    + rewrite length_app. simpl. lia.
    + apply Forall_app. split; [done|]. constructor; [|done].
      by rewrite length_map, length_seq.
    + intros i q1 q2 Hi Hq1 Hq2. destruct (decide (i = m)) as [->|Hne].
      * rewrite lookup_app_r by lia. rewrite Hlen, Nat.sub_diag. simpl.
        congruence.
      * rewrite lookup_app_l by lia. apply Hlook; [lia|done..].
Qed.

(** X30. [interpolate_route] raises exactly on an empty list of
    waypoints.  With at least one point per segment the route has
    [points_per_segment] points for each pair of successive waypoints
    and one more, it passes every waypoint: waypoint [i] is the point
    [i * points_per_segment] of the route, and it ends at the last
    waypoint. *)
Theorem interpolated_route_passes_every_waypoint
        (w0 : point) (ws : list point) (points_per_segment : Z) :
  (0 < points_per_segment)%Z ->
  interpolate_route [] points_per_segment = None
  /\ exists route,
      interpolate_route (w0 :: ws) points_per_segment = Some route
      /\ length route = length ws * Z.to_nat points_per_segment + 1
      /\ last route = last (w0 :: ws)
      /\ forall i p,
          (w0 :: ws) !! i = Some p ->
          exists q, route !! (i * Z.to_nat points_per_segment) = Some q /\ same_point q p.
Proof.
  intros Hpps. split; [done|].
  set (waypoints := w0 :: ws). set (n := Z.to_nat points_per_segment).
  destruct (mapM_segment_points waypoints points_per_segment (length waypoints - 1))
    as (segments & Hseg & Hlen & Hall & Hlook); [done|].
  fold n in Hall, Hlook.
  destruct (last waypoints) as [wl|] eqn:Hlast; [|by apply last_None in Hlast].
  unfold interpolate_route. rewrite Hseg. simpl. fold waypoints. rewrite Hlast. simpl.
  eexists. split; [done|].
  assert (length (concat segments) = length ws * n) as Hcl.
  { rewrite (length_concat_uniform n) by done. rewrite Hlen. simpl. by rewrite Nat.sub_0_r. }
  split_and!.
  - rewrite length_app, Hcl. done.
  - by rewrite last_snoc.
  - intros i p Hi.
    destruct (decide (i = length ws)) as [->|Hne].
    + exists wl. rewrite lookup_app_r by lia. rewrite Hcl, Nat.sub_diag. simpl.
      split; [done|].
      rewrite last_lookup in Hlast. simpl in Hlast. rewrite Hlast in Hi.
      injection Hi as ->. done.
    + pose proof (lookup_lt_Some _ _ _ Hi) as Hlt. simpl in Hlt.
      destruct (lookup_lt_is_Some_2 waypoints (i + 1)) as [p2 Hp2]; [simpl; lia|].
      assert (segments !! i
              = Some (map (interpolate points_per_segment p p2) (seq 0 n))) as Hb.
      { apply Hlook; [simpl; lia|done|done]. }
      assert (0 < n) as Hn by (unfold n; lia).
      rewrite lookup_app_l by (rewrite Hcl; nia).
      replace (i * n) with (i * n + 0) by lia.
      rewrite (lookup_concat_uniform n) by done.
      rewrite Hb. simpl.
      destruct n as [|n']; [lia|]. simpl.
      eexists. split; [done|]. unfold same_point, interpolate. simpl. split.
      * unfold Qdiv. ring.
      * unfold Qdiv. ring.
Qed.

Lemma interpolated_route_passes_every_waypoint_witness :
  exists route,
    interpolate_route generate_route_waypoints 12 = Some route
    /\ length route = 133.
Proof.
  destruct (interpolated_route_passes_every_waypoint
              (48.2905, 11.0434)%Q (tail generate_route_waypoints) 12)
    as (_ & route & Hr & Hlen & _).
  - lia.
  - exists route. split; [exact Hr|exact Hlen].
Defined.
End DemoFacts.

(** ** Batch grouping and streaming insertion *)

Section BatchAndStreaming.
Import GroupDamages.
Variable calculate_distance : Q -> Q -> Q -> Q -> Q.
Variable max_distance : Q.
Hypothesis distance_proper : distance_respects_Qeq calculate_distance.

Local Abbreviation fits := (fits calculate_distance max_distance).
Local Abbreviation scan_groups := (scan_groups calculate_distance max_distance).
Local Abbreviation process_detection := (process_detection calculate_distance max_distance).
Local Abbreviation process_all := (process_all calculate_distance max_distance).
Local Abbreviation group_detections := (group_detections calculate_distance max_distance).
Local Abbreviation sorted_by_time := (py_sorted String.leb get_timestamp).
Local Abbreviation qualifies_here := (qualifies calculate_distance max_distance).
Local Abbreviation first_fit := (insert_first_fit calculate_distance max_distance).

(** The test of the code on the stored centre is the test of the
    specification on the mean of the members. *)
Lemma fits_qualifies (g : group) (d : detection) (la lo : Q) :
  group_inv g ->
  gps_latitude d = Some la -> gps_longitude d = Some lo ->
  fits la lo (get_class d) g = qualifies_here d (cluster_of g).
Proof.
  intros (_ & _ & [Hlat Hlon] & _) Hla Hlo.
  unfold GroupDamages.fits, qualifies, distance_to, cluster_of. simpl.
  rewrite andb_comm. f_equal.
  unfold member_lat, member_lon. rewrite Hla, Hlo. simpl.
  apply Qleb_comp; [|done]. by apply distance_proper.
Qed.

Lemma insert_first_fit_none (d : detection) (cs : list cluster) :
  Forall (fun c => qualifies_here d c = false) cs ->
  first_fit d cs = cs ++ [singleton_cluster d].
Proof. induction 1 as [|c cs Hc _ IH]; simpl; [done|]. by rewrite Hc, IH. Qed.

Lemma insert_first_fit_first (d : detection) (pre post : list cluster) (c : cluster) :
  Forall (fun c' => qualifies_here d c' = false) pre ->
  qualifies_here d c = true ->
  first_fit d (pre ++ c :: post) = pre ++ join d c :: post.
Proof.
  intros Hpre Hc. induction Hpre as [|c' pre Hc' _ IH]; simpl.
  - by rewrite Hc.
  - by rewrite Hc', IH.
Qed.

(** One turn of the main loop is one first-fit insertion, or nothing for
    a detection without a usable position. *)
Lemma process_detection_stream (seen : list detection) (groups groups' : list group)
      (d : detection) :
  groups_inv seen groups ->
  process_detection groups d = Some groups' ->
  groups_inv (seen ++ [d]) groups'
  /\ map cluster_of groups'
     = if valid_position d then first_fit d (map cluster_of groups)
       else map cluster_of groups.
Proof.
  intros Hinv Hg.
  destruct (process_detection_inv calculate_distance max_distance seen groups d Hinv)
    as (groups'' & Hg'' & Hinv'').
  assert (groups'' = groups') as -> by congruence. split; [done|]. clear Hg'' Hinv''.
  destruct Hinv as (Hinv & _ & _).
  assert (Forall group_ok groups) as Hok.
  { eapply Forall_impl; [exact Hinv|]. by intros g [? _]. }
  destruct (valid_position d) eqn:Hd.
  - destruct (process_detection_valid calculate_distance max_distance groups d Hd)
      as (la & lo & Hla & Hlo & Heq).
    rewrite Heq in Hg. clear Heq.
    assert (Forall (fun g => fits la lo (get_class d) g = qualifies_here d (cluster_of g)) groups)
      as Hfq.
    { eapply Forall_impl; [exact Hinv|]. intros g Hgi. by apply fits_qualifies. }
    destruct (first_fit_split calculate_distance max_distance la lo (get_class d) groups)
      as [Hnone|(pre & g & post & -> & Hpre & Hfit)].
    + rewrite scan_groups_none in Hg by done. simpl in Hg. injection Hg as <-.
      rewrite map_app. simpl. rewrite insert_first_fit_none; [done|].
      apply Forall_fmap. rewrite Forall_forall in Hnone, Hfq. apply Forall_forall.
      intros g Hgin. simpl. rewrite <- Hfq by done. by apply Hnone.
    + apply Forall_app in Hok as [_ Hok2]. apply Forall_cons in Hok2 as [Hg_ok _].
      rewrite scan_groups_first in Hg by done. simpl in Hg. injection Hg as <-.
      apply Forall_app in Hfq as [Hfq1 Hfq2]. apply Forall_cons in Hfq2 as [Hfqg _].
      rewrite !map_app. simpl. rewrite insert_first_fit_first; [done| |].
      * apply Forall_fmap. rewrite Forall_forall in Hpre, Hfq1. apply Forall_forall.
        intros g' Hgin. simpl. rewrite <- Hfq1 by done. by apply Hpre.
      * by rewrite <- Hfqg.
  - rewrite process_detection_skip in Hg by done. by injection Hg as <-.
Qed.

Lemma process_all_stream (ds seen : list detection) (groups groups' : list group) :
  groups_inv seen groups ->
  process_all groups ds = Some groups' ->
  map cluster_of groups'
  = fold_left (fun cs d => first_fit d cs)
              (filter (fun d => valid_position d = true) ds) (map cluster_of groups).
Proof.
  revert seen groups. induction ds as [|d ds IH]; intros seen groups Hinv; simpl.
  - by intros [= <-].
  - destruct (process_detection groups d) as [groups1|] eqn:Hg1; [|done]. simpl.
    intros Hrest.
    destruct (process_detection_stream seen groups groups1 d Hinv Hg1) as [Hinv1 Hc1].
    rewrite (IH _ _ Hinv1 Hrest), Hc1, filter_cons.
    destruct (valid_position d); [by rewrite decide_True|by rewrite decide_False].
Qed.

(** The groups returned are the groups of the main loop: the second
    sort changes nothing. *)
Lemma group_detections_bases (dets : list detection) :
  map base <$> group_detections dets = process_all [] (sorted_by_time dets).
Proof.
  destruct (group_detections_ok calculate_distance max_distance dets)
    as (groups & ss & Hg & Hok & -> & Hbase).
  rewrite Hg. simpl. f_equal.
  assert (Forall (fun g => detections g `sublist_of` sorted_by_time dets) groups) as Hsub.
  { apply (process_all_sublist calculate_distance max_distance
             (sorted_by_time dets) [] [] groups); done. }
  clear Hg. induction Hbase as [|g s groups ss Hb _ IH]; [done|].
  apply Forall_cons in Hok as [_ Hok]. apply Forall_cons in Hsub as [Hg Hsub].
  simpl. rewrite IH by done. f_equal.
  rewrite Hb, (py_sorted_id _ _ (detections g)); [apply set_detections_id|].
  eapply StronglySorted_sublist; [exact Hg|].
  apply py_sorted_StronglySorted; [apply String.leb_total|apply string_leb_trans].
Qed.

(** C5, amended.  [group_detections] sorts the detections by timestamp
    with a stable sort (the result is sorted, a permutation of the input,
    and detections of one timestamp keep their order), and, whenever it
    returns, the groups it returns are the clusters of first-fit
    streaming over the sorted detections that have a usable position:
    the same types and the same members in the same order, each
    detection taken by the first cluster in creation order of its type
    whose centroid lies within the radius.  Hence two arrival orders of
    the same detections with distinct timestamps give the same result. *)
Theorem batch_agrees_with_streaming
        (dets arrival1 arrival2 : list detection) (ss : list grouped) :
  arrival1 ≡ₚ arrival2 ->
  NoDup (map get_timestamp arrival1) ->
  group_detections dets = Some ss ->
  (StronglySorted ts_le (sorted_by_time dets)
   /\ sorted_by_time dets ≡ₚ dets
   /\ forall t, filter (fun d => get_timestamp d = t) (sorted_by_time dets)
                = filter (fun d => get_timestamp d = t) dets)
  /\ map (fun s => cluster_of (base s)) ss
     = stream first_fit
         (filter (fun d => valid_position d = true) (sorted_by_time dets))
  /\ group_detections arrival1 = group_detections arrival2.
Proof.
  intros Hperm Hnd Hss. split; [|split].
  - split; [|split].
    + apply py_sorted_StronglySorted; [apply String.leb_total|apply string_leb_trans].
    + apply py_sorted_Permutation.
    + intros t. apply py_sorted_stable.
      intros x y Hx Hy. unfold key_le. rewrite Hx, Hy.
      by destruct (String.leb_total t t).
  - pose proof (group_detections_bases dets) as Hb. rewrite Hss in Hb. simpl in Hb.
    symmetry in Hb.
    assert (groups_inv [] []) as Hinv0 by (split_and!; done).
    pose proof (process_all_stream _ _ _ _ Hinv0 Hb) as Hstream.
    rewrite map_map in Hstream. exact Hstream.
  - rewrite !group_detections_unfold.
    by rewrite (py_sorted_unique _ _ String.leb_total string_leb_trans
                  arrival1 arrival2 String.leb_antisym Hperm Hnd).
Qed.
End BatchAndStreaming.

(** ** Batch grouping and streaming on the sample potholes *)

Section BatchAndStreamingExamples.
Import GroupDamages.

Lemma meridian_distance_respects_Qeq : distance_respects_Qeq meridian_distance.
Proof.
  intros a b c d a' b' c' d' Ha Hb Hc Hd. unfold meridian_distance.
  by rewrite Ha, Hc.
Qed.

(** C5, as stated, fails: streaming as the specification describes it
    gives the third pothole to the nearer second cluster (0.6 m against
    0.9 m), batch grouping gives it to the first; the clusters differ. *)
Lemma batch_is_not_nearest_streaming :
  exists ss,
    group_detections meridian_distance 1 [pothole1; pothole2; pothole3] = Some ss
    /\ map (fun s => cluster_of (base s)) ss
       = [{| cluster_type := "pothole"; members := [pothole1; pothole3] |};
          {| cluster_type := "pothole"; members := [pothole2] |}]
    /\ stream (insert_nearest meridian_distance 1)
         (filter (fun d => valid_position d = true)
                 (py_sorted String.leb get_timestamp [pothole1; pothole2; pothole3]))
       = [{| cluster_type := "pothole"; members := [pothole1] |};
          {| cluster_type := "pothole"; members := [pothole2; pothole3] |}].
Proof.
  destruct (group_detections meridian_distance 1 [pothole1; pothole2; pothole3])
    as [ss|] eqn:E; [|by vm_compute in E].
  exists ss. split; [done|]. split.
  - vm_compute in E. injection E as <-. vm_compute. reflexivity.
  - vm_compute. reflexivity.
Qed.

Lemma batch_agrees_with_streaming_witness :
  exists ss,
    group_detections meridian_distance 1 [pothole3; pothole1; pothole2] = Some ss
    /\ map (fun s => cluster_of (base s)) ss
       = [{| cluster_type := "pothole"; members := [pothole1; pothole3] |};
          {| cluster_type := "pothole"; members := [pothole2] |}]
    /\ group_detections meridian_distance 1 [pothole3; pothole1; pothole2]
       = group_detections meridian_distance 1 [pothole1; pothole2; pothole3].
Proof.
  destruct (group_detections meridian_distance 1 [pothole3; pothole1; pothole2])
    as [ss|] eqn:E; [|by vm_compute in E].
  exists ss. split; [done|].
  destruct (batch_agrees_with_streaming meridian_distance 1
              meridian_distance_respects_Qeq
              [pothole3; pothole1; pothole2] [pothole3; pothole1; pothole2]
              [pothole1; pothole2; pothole3] ss) as (_ & Hstream & Hsame).
  - etrans; [apply perm_swap|]. apply perm_skip, perm_swap.
  - apply (bool_decide_unpack _). vm_compute. reflexivity.
  - exact E.
  - split; [|by rewrite <- E, Hsame].
    rewrite Hstream. vm_compute. reflexivity.
Defined.
End BatchAndStreamingExamples.

(** ** The segmenter on a route that passes the detections *)

Section SegmenterLegs.
Import UpdateGithubPages.
Variable dist : Q * Q -> Q * Q -> Q.

Local Abbreviation passes_next := (passes_next (Some dist)).
Local Abbreviation loop_body := (loop_body (Some dist)).
Local Abbreviation segment_by_surface := (segment_by_surface (Some dist)).

(** Points that do not reach the next detection, if there is one, are
    appended to the current segment. *)
Lemma fold_loop_body_stay (surfaces : list surface) (points : list coord)
      (st : loop_state) :
  (forall s, surfaces !! (surface_idx st + 1)%nat = Some s ->
             Forall (fun c => reaches dist c s = false) points) ->
  fold_left (loop_body surfaces) points st
  = {| segments := segments st;
       current_segment :=
         {| coordinates := coordinates (current_segment st) ++ points;
            seg_surface_type := seg_surface_type (current_segment st);
            seg_confidence := seg_confidence (current_segment st) |};
       surface_idx := surface_idx st |}.
Proof.
  revert st. induction points as [|c points IH]; intros st Hstay; simpl.
  - rewrite app_nil_r. by destruct st as [? [] ?].
  - assert (passes_next surfaces (surface_idx st) c = None) as Hnone.
    { destruct (passes_next surfaces (surface_idx st) c) as [s|] eqn:E; [|done].
      apply passes_next_Some in E as [Hs Hn].
      specialize (Hstay s Hs). apply Forall_cons in Hstay as [Hc _].
      unfold reaches in Hc. congruence. }
    unfold UpdateGithubPages.loop_body at 2. rewrite Hnone.
    rewrite IH; simpl.
    + by rewrite <- app_assoc.
    + intros s Hs. specialize (Hstay s Hs). by apply Forall_cons in Hstay as [_ ?].
Qed.

Lemma fold_loop_body_legs (surfaces : list surface) (legs : list leg)
      (points : list coord) (st : loop_state) :
  drop (surface_idx st + 1) surfaces = map leg_surface legs ->
  separated dist points legs ->
  close_segments
    (fold_left (loop_body surfaces) (points ++ concat (map leg_coords legs)) st)
  = close_segments
      {| segments := segments st;
         current_segment :=
           {| coordinates := coordinates (current_segment st) ++ points;
              seg_surface_type := seg_surface_type (current_segment st);
              seg_confidence := seg_confidence (current_segment st) |};
         surface_idx := surface_idx st |}
    ++ map leg_segment legs.
Proof.
  revert points st. induction legs as [|l legs IH]; intros points st Hdrop Hsep.
  - simpl. rewrite !app_nil_r. rewrite fold_loop_body_stay; [done|].
    intros s Hs. apply (f_equal (fun l => l !! 0%nat)) in Hdrop.
    rewrite lookup_drop, Nat.add_0_r, Hs in Hdrop. done.
  - destruct Hsep as (Hstay & Hstart & Hsep).
    assert (surfaces !! (surface_idx st + 1)%nat = Some (leg_surface l)) as Hl.
    { apply (f_equal (fun l => l !! 0%nat)) in Hdrop.
      by rewrite lookup_drop, Nat.add_0_r in Hdrop. }
    rewrite fold_left_app. rewrite (fold_loop_body_stay surfaces points st).
    2:{ intros s Hs. rewrite Hl in Hs. by injection Hs as <-. }
    change (concat (map leg_coords (l :: legs)))
      with (leg_start l :: (leg_rest l ++ concat (map leg_coords legs))).
    cbn [fold_left].
    set (st1 := {| segments := segments st;
                   current_segment :=
                     {| coordinates := coordinates (current_segment st) ++ points;
                        seg_surface_type := seg_surface_type (current_segment st);
                        seg_confidence := seg_confidence (current_segment st) |};
                   surface_idx := surface_idx st |}).
    assert (loop_body surfaces st1 (leg_start l)
            = {| segments := close_segments st1;
                 current_segment :=
                   {| coordinates := [leg_start l];
                      seg_surface_type := surface_type (leg_surface l);
                      seg_confidence := confidence (leg_surface l) |};
                 surface_idx := surface_idx st + 1 |}) as ->.
    { unfold UpdateGithubPages.loop_body.
      assert (passes_next surfaces (surface_idx st1) (leg_start l) = Some (leg_surface l))
        as -> by (by apply passes_next_Some).
      done. }
    rewrite IH; [|simpl|done].
    + simpl. unfold close_segments at 1. simpl. by rewrite <- app_assoc.
    + simpl. apply (f_equal (drop 1)) in Hdrop. rewrite drop_drop in Hdrop.
      simpl in Hdrop. rewrite drop_0 in Hdrop. done.
Qed.

(** C7.  On a route that passes the surface detections one after the
    other, [segment_by_surface] opens a segment at every detection after
    the first, at the route point that comes within 5 m of it, whatever
    the labels are: the segments are the points before the second
    detection is reached, under the label of the first detection, and
    then one segment for each further detection, from the point that
    reaches it up to the point before the next is reached, under its
    label and confidence.  Labels are never compared, so detections that
    repeat a label give adjacent segments with one label. *)
Theorem segmenter_splits_at_every_detection
        (s0 : surface) (before : list coord) (legs : list leg) :
  separated dist before legs ->
  segment_by_surface (before ++ concat (map leg_coords legs)) (s0 :: map leg_surface legs)
  = match before with
    | [] => []
    | _ => [{| coordinates := before;
               seg_surface_type := surface_type s0;
               seg_confidence := confidence s0 |}]
    end
    ++ map leg_segment legs.
Proof.
  intros Hsep. unfold UpdateGithubPages.segment_by_surface.
  match goal with |- context [fold_left ?f ?cs ?st0] =>
    pose proof (fold_loop_body_legs (s0 :: map leg_surface legs) legs before st0) as H
  end.
  simpl in H. specialize (H eq_refl Hsep).
  unfold close_segments in H at 1. rewrite H.
  unfold close_segments. simpl. by destruct before.
Qed.
End SegmenterLegs.

(** C7 on the sample route: the second detection repeats the label of
    the first, the second route point reaches it, and the route of one
    label comes out as two segments. *)
Lemma segmenter_splits_at_every_detection_witness :
  UpdateGithubPages.segment_by_surface (Some meridian_geodesic) sample_route surfaces_unchanged
  = [{| UpdateGithubPages.coordinates := [route_point 50];
        UpdateGithubPages.seg_surface_type := "asphalt_good";
        UpdateGithubPages.seg_confidence := 0.9 |};
     {| UpdateGithubPages.coordinates := [route_point 50.0001];
        UpdateGithubPages.seg_surface_type := "asphalt_good";
        UpdateGithubPages.seg_confidence := 0.8 |}].
Proof.
  apply (segmenter_splits_at_every_detection meridian_geodesic
           (surface_at 50 "asphalt_good" 0.9) [route_point 50]
           [{| leg_surface := surface_at 50.0001 "asphalt_good" 0.8;
               leg_start := route_point 50.0001;
               leg_rest := [] |}]).
  simpl. split_and!; [|vm_compute; reflexivity|done].
  constructor; [vm_compute; reflexivity|constructor].
Defined.
